(** * Expression ASTs of the Swift front end: conversion ranking and walking

    A shallow embedding of [lib/AST/Expr.cpp]: the conversion-rank engine
    ([getConversionRank], [getTupleToTupleTypeConversionRank]) and the
    expression walker ([ExprWalker], [Expr::WalkExpr]), with the properties
    the design document states about them; and, with further properties of
    these, [Expr::getLocStart], [ClosureExpr::getNumArgs] and the printer
    ([PrintExpr], [Expr::print]). *)

From Stdlib Require Import ZArith Ascii String List Bool Arith Lia DecimalString.
From stdpp Require Import base option list strings numbers.

Set Warnings "-register-all".

Local Open Scope Z_scope.
Local Open Scope string_scope.
Local Open Scope nat_scope.

(** ** Identifiers *)

(** An [Identifier] is an interned string; the code only asks whether it is
    [empty()] and compares two of them with [==]. *)
Definition Identifier := string.

Definition empty (Id : Identifier) : bool :=
  match Id with
  | EmptyString => true
  | String _ _ => false
  end.

(** ** Types ([swift/AST/Types.h]) *)

(** One field of a tuple type.  [Init] is the default-value expression of the
    field in the source ([Expr *Init]); the rank engine only tests it against
    null, so the model keeps its presence. *)
Record TupleTypeElt (T : Type) : Type := mkTupleTypeElt {
  Name : Identifier;
  EltTy : T;
  Init : bool
}.
Arguments mkTupleTypeElt {T} Name EltTy Init.
Arguments Name {T} _.
Arguments EltTy {T} _.
Arguments Init {T} _.

(** Modelled from the spec: the type classes of [swift/AST/Types.h], which is
    not part of the sources at hand.  The design document (sections 3, 6 and
    the glossary) speaks of tuple types with [(name, type, hasDefault)] fields,
    function types with a result type, a still-unresolved (dependent) type, and
    of canonical types that collapse superficial spelling differences, for
    which the model has named aliases of a type. *)
Inductive TypeBase : Type :=
| BuiltinType (TypeName : Identifier)
| DependentType
| NameAliasType (AliasName : Identifier) (Underlying : TypeBase)
| TupleType (Fields : list (TupleTypeElt TypeBase))
| FunctionType (Input Result : TypeBase).

(** A [Type] handle of the source is a nullable pointer to a [TypeBase]. *)
Definition Type_ := option TypeBase.

Section TypeBase_induction.
Variable P : TypeBase -> Prop.
Hypothesis HBuiltin : forall n, P (BuiltinType n).
Hypothesis HDependent : P DependentType.
Hypothesis HAlias : forall n T, P T -> P (NameAliasType n T).
Hypothesis HTuple :
  forall Fields, Forall (fun f => P (EltTy f)) Fields -> P (TupleType Fields).
Hypothesis HFunction :
  forall In Res, P In -> P Res -> P (FunctionType In Res).

Fixpoint TypeBase_nested_ind (T : TypeBase) : P T :=
  match T with
  | BuiltinType n => HBuiltin n
  | DependentType => HDependent
  | NameAliasType n U => HAlias n U (TypeBase_nested_ind U)
  | TupleType Fields =>
      HTuple Fields
        ((fix fields_ind (l : list (TupleTypeElt TypeBase)) :
            Forall (fun f => P (EltTy f)) l :=
            match l with
            | [] => Forall_nil _
            | f :: l' =>
                Forall_cons _ f l' (TypeBase_nested_ind (EltTy f)) (fields_ind l')
            end) Fields)
  | FunctionType In Res =>
      HFunction In Res (TypeBase_nested_ind In) (TypeBase_nested_ind Res)
  end.
End TypeBase_induction.

(** Structural equality of types, as a boolean: the uniqued canonical types
    of the source are compared by pointer, which is equality of structure. *)
Fixpoint TypeBase_eqb (A B : TypeBase) {struct A} : bool :=
  match A, B with
  | BuiltinType n, BuiltinType m => String.eqb n m
  | DependentType, DependentType => true
  | NameAliasType n U, NameAliasType m V => String.eqb n m && TypeBase_eqb U V
  | TupleType Fs, TupleType Gs =>
      (fix fields_eqb (l : list (TupleTypeElt TypeBase))
           (r : list (TupleTypeElt TypeBase)) {struct l} : bool :=
         match l, r with
         | [], [] => true
         | f :: l', g :: r' =>
             String.eqb (Name f) (Name g) && TypeBase_eqb (EltTy f) (EltTy g)
             && Bool.eqb (Init f) (Init g) && fields_eqb l' r'
         | _, _ => false
         end) Fs Gs
  | FunctionType In Res, FunctionType In' Res' =>
      TypeBase_eqb In In' && TypeBase_eqb Res Res'
  | _, _ => false
  end.

(** [getCanonicalType]: the type with every alias replaced by what it names. *)
Fixpoint getCanonicalType (T : TypeBase) : TypeBase :=
  match T with
  | BuiltinType n => BuiltinType n
  | DependentType => DependentType
  | NameAliasType _ U => getCanonicalType U
  | TupleType Fields =>
      TupleType
        (map (fun f => mkTupleTypeElt (Name f) (getCanonicalType (EltTy f)) (Init f))
             Fields)
  | FunctionType In Res =>
      FunctionType (getCanonicalType In) (getCanonicalType Res)
  end.

(** [A->getCanonicalType(Ctx) == B->getCanonicalType(Ctx)]. *)
Definition sameCanonicalType (A B : TypeBase) : bool :=
  TypeBase_eqb (getCanonicalType A) (getCanonicalType B).

(** [getDesugaredType]: the aliases at the top of a type removed; [getAs<T>]
    and [is<T>] look at the desugared type. *)
Fixpoint getDesugaredType (T : TypeBase) : TypeBase :=
  match T with
  | NameAliasType _ U => getDesugaredType U
  | _ => T
  end.

Definition getAsTupleType (T : TypeBase) : option (list (TupleTypeElt TypeBase)) :=
  match getDesugaredType T with
  | TupleType Fields => Some Fields
  | _ => None
  end.

Definition getAsFunctionType (T : TypeBase) : option (TypeBase * TypeBase) :=
  match getDesugaredType T with
  | FunctionType In Res => Some (In, Res)
  | _ => None
  end.

Definition isDependentType (T : TypeBase) : bool :=
  match getDesugaredType T with
  | DependentType => true
  | _ => false
  end.

(** Modelled from the spec: [TupleType::getFieldForScalarInit], declared in
    the missing [Types.h].  Section 4.4 step 3b: the field is the one field
    without a default value when there is exactly one such field; the result
    is [-1] otherwise, as [getConversionRank] tests. *)
Fixpoint fieldsWithoutDefault (Fields : list (TupleTypeElt TypeBase)) (i : nat)
  : list nat :=
  match Fields with
  | [] => []
  | f :: rest =>
      if Init f then fieldsWithoutDefault rest (S i)
      else i :: fieldsWithoutDefault rest (S i)
  end.

Definition getFieldForScalarInit (Fields : list (TupleTypeElt TypeBase)) : Z :=
  match fieldsWithoutDefault Fields 0 with
  | [i] => Z.of_nat i
  | _ => (-1)%Z
  end.

(** ** Expressions ([swift/AST/Expr.h]) *)

(** A declaration, as far as the walker looks into it: a [ValueDecl] has an
    optional initializer expression, other declarations have none. *)
Inductive Decl (E : Type) : Type :=
| ValueDecl (DeclName : Identifier) (DeclInit : option E)
| OtherDecl (DeclName : Identifier).
Arguments ValueDecl {E} DeclName DeclInit.
Arguments OtherDecl {E} DeclName.

(** The expression kinds, one constructor per [ExprKind] of [getLocStart].
    Each node has its type [Ty] (a nullable handle); child pointers that the
    code tests against null are options. *)
Inductive Expr : Type :=
| IntegerLiteral (Ty : Type_) (Val : string)
| DeclRefExpr (Ty : Type_) (D : Identifier)
| OverloadSetRefExpr (Ty : Type_) (Decls : list Identifier)
| UnresolvedDeclRefExpr (Ty : Type_) (RefName : Identifier)
| UnresolvedMemberExpr (Ty : Type_) (RefName : Identifier)
| UnresolvedScopedIdentifierExpr (Ty : Type_) (TypeDecl RefName : Identifier)
| TupleExpr (Ty : Type_) (SubExprs : list (option Expr))
            (SubExprNames : option (list Identifier))
| UnresolvedDotExpr (Ty : Type_) (SubExpr : option Expr) (RefName : Identifier)
| TupleElementExpr (Ty : Type_) (SubExpr : Expr) (FieldNo : nat)
| ApplyExpr (Ty : Type_) (Fn Arg : Expr)
| SequenceExpr (Ty : Type_) (Elements : list Expr)
| BraceExpr (Ty : Type_) (Elements : list (Expr + Decl Expr))
| ClosureExpr (Ty : Type_) (Input : Expr)
| AnonClosureArgExpr (Ty : Type_) (ArgNo : nat)
| BinaryExpr (Ty : Type_) (Fn : option Expr) (LHS RHS : Expr).

(** [E->Ty]. *)
Definition getType (E : Expr) : Type_ :=
  match E with
  | IntegerLiteral Ty _ | DeclRefExpr Ty _ | OverloadSetRefExpr Ty _
  | UnresolvedDeclRefExpr Ty _ | UnresolvedMemberExpr Ty _
  | UnresolvedScopedIdentifierExpr Ty _ _ | TupleExpr Ty _ _
  | UnresolvedDotExpr Ty _ _ | TupleElementExpr Ty _ _ | ApplyExpr Ty _ _
  | SequenceExpr Ty _ | BraceExpr Ty _ | ClosureExpr Ty _
  | AnonClosureArgExpr Ty _ | BinaryExpr Ty _ _ _ => Ty
  end.

(** The initializer of a declaration in a brace statement, when the walker
    descends into it: [dyn_cast<ValueDecl>(D)] and then [VD->Init]. *)
Definition declInit {E : Type} (D : Decl E) : option E :=
  match D with
  | ValueDecl _ Init => Init
  | OtherDecl _ => None
  end.

(** Modelled from the spec: [TupleExpr::isGroupingParen], declared in the
    missing [Expr.h].  Sections 3 and 4.4 step 2: a grouping parenthesis is a
    tuple with a single element, which has no name. *)
Definition isGroupingParen (SubExprs : list (option Expr))
    (SubExprNames : option (list Identifier)) : bool :=
  (length SubExprs =? 1) &&
  match SubExprNames with
  | None => true
  | Some Names => empty (default "" (Names !! 0))
  end.

(** ** Conversion ranks *)

(** Modelled from the spec: [Expr::ConversionRank], declared in the missing
    [Expr.h]; section 3 gives its three values and their order,
    [Identity < AutoClosure < Invalid]. *)
Inductive ConversionRank : Type := CR_Identity | CR_AutoClosure | CR_Invalid.

Definition rankValue (R : ConversionRank) : nat :=
  match R with
  | CR_Identity => 0
  | CR_AutoClosure => 1
  | CR_Invalid => 2
  end.

(** [std::max(A, B)] on ranks: [B] when [A < B], else [A]. *)
Definition rank_max (A B : ConversionRank) : ConversionRank :=
  if rankValue A <? rankValue B then B else A.

(** What a call of the rank engine comes to: a rank; a fatal stop, where the
    source fails an [assert] or dereferences a null pointer; or, for the
    recursion bounded by a counter below, the counter running out (shown not to
    happen, see [getConversionRank_fuel]). *)
Inductive Outcome : Type :=
| Ranked (R : ConversionRank)
| Fatal
| OutOfFuel.

(** ** Tuple reconciliation ([getTupleToTupleTypeConversionRank]) *)

(** The two arrays the function keeps: which input elements are used, and for
    each destination field the input element that provides it ([-1]: none yet,
    [-2]: the field's default value). *)
Record Bookkeeping : Type := mkBookkeeping {
  UsedElements : list bool;
  DestElementSources : list Z
}.

(** The inner loop of lines 131-136: the first [j] with
    [IdentList[j] == DestElt.Name], or [-1]. *)
Fixpoint findNamedInput (IdentList : list Identifier) (DestName : Identifier)
    (j : nat) : Z :=
  match IdentList with
  | [] => (-1)%Z
  | Id :: rest =>
      if String.eqb Id DestName then Z.of_nat j
      else findNamedInput rest DestName (S j)
  end.

(** Lines 125-141: destination fields with a name take the input element of
    that name.  [Fields] are the fields from index [i] on. *)
Fixpoint resolveNamed (IdentList : list Identifier)
    (Fields : list (TupleTypeElt TypeBase)) (i : nat) (B : Bookkeeping)
  : Bookkeeping :=
  match Fields with
  | [] => B
  | DestElt :: rest =>
      if empty (Name DestElt) then resolveNamed IdentList rest (S i) B
      else
        let InputElement := findNamedInput IdentList (Name DestElt) 0 in
        if (InputElement =? -1)%Z then resolveNamed IdentList rest (S i) B
        else
          resolveNamed IdentList rest (S i)
            (mkBookkeeping
               (<[Z.to_nat InputElement := true]> (UsedElements B))
               (<[i := InputElement]> (DestElementSources B)))
  end.

(** The [while (1)] of lines 152-162, which moves [NextInputValue] to the next
    input that is unused and unnamed, or to [NumExprElements].  It runs at most
    [NumExprElements - NextInputValue] times, which [steps] counts. *)
Fixpoint scanUnmatched (IdentList : list Identifier) (Used : list bool)
    (NumExprElements steps NextInputValue : nat) : nat :=
  match steps with
  | 0 => NextInputValue
  | S steps' =>
      if NextInputValue =? NumExprElements then NextInputValue
      else if negb (default false (Used !! NextInputValue))
              && empty (default "" (IdentList !! NextInputValue))
      then NextInputValue
      else scanUnmatched IdentList Used NumExprElements steps' (S NextInputValue)
  end.

(** Lines 146-180: the fields still without a source take the left-over
    unnamed inputs in order, or their default value; [None] is the
    [return Expr::CR_Invalid] of line 169. *)
Fixpoint resolveUnnamed (IdentList : list Identifier) (NumExprElements : nat)
    (Fields : list (TupleTypeElt TypeBase)) (i NextInputValue : nat)
    (B : Bookkeeping) : option Bookkeeping :=
  match Fields with
  | [] => Some B
  | DestElt :: rest =>
      if negb (default (-1) (DestElementSources B !! i) =? -1)%Z
      then resolveUnnamed IdentList NumExprElements rest (S i) NextInputValue B
      else
        let Next :=
          scanUnmatched IdentList (UsedElements B) NumExprElements
            (NumExprElements - NextInputValue) NextInputValue in
        if Next =? NumExprElements then
          if Init DestElt then
            resolveUnnamed IdentList NumExprElements rest (S i) Next
              (mkBookkeeping (UsedElements B)
                 (<[i := (-2)%Z]> (DestElementSources B)))
          else None
        else
          resolveUnnamed IdentList NumExprElements rest (S i) Next
            (mkBookkeeping (<[Next := true]> (UsedElements B))
               (<[i := Z.of_nat Next]> (DestElementSources B)))
  end.

(** Lines 183-185: is there an input element that no field uses? *)
Definition anyUnused (Used : list bool) : bool := existsb negb Used.

Inductive Reconciliation : Type :=
| Rec_Fatal
| Rec_Invalid
| Rec_Bound (IdentList : list Identifier) (B : Bookkeeping).

(** Lines 109-142: the names of the input elements and the named matching.
    The names are those of the fields of [E]'s type [T] when that is a tuple
    type, whose size is asserted to be [NumExprElements] ([None]: the
    assertion fails); otherwise no input element has a name and the named
    matching is skipped. *)
Definition namedMatching (T : TypeBase) (NumExprElements : nat)
    (DestTy : list (TupleTypeElt TypeBase))
  : option (list Identifier * Bookkeeping) :=
  let B0 := mkBookkeeping (replicate NumExprElements false)
                          (replicate (length DestTy) (-1)%Z) in
  match getAsTupleType T with
  | Some EFields =>
      if length EFields =? NumExprElements
      then Some (Name <$> EFields, resolveNamed (Name <$> EFields) DestTy 0 B0)
      else None
  | None => Some (replicate NumExprElements "", B0)
  end.

(** Lines 109-185, the matching of input elements and destination fields.
    [ETy] is [E->Ty]. *)
Definition reconcileElements (ETy : Type_) (NumExprElements : nat)
    (DestTy : list (TupleTypeElt TypeBase)) : Reconciliation :=
  match ETy with
  | None => Rec_Fatal
  | Some T =>
      match namedMatching T NumExprElements DestTy with
      | None => Rec_Fatal
      | Some (IdentList, B1) =>
          match resolveUnnamed IdentList NumExprElements DestTy 0 0 B1 with
          | None => Rec_Invalid
          | Some B2 =>
              if anyUnused (UsedElements B2) then Rec_Invalid
              else Rec_Bound IdentList B2
          end
      end
  end.

(** Lines 192-213: the rank of a tuple expression converted in place, the
    worst of the ranks of its elements.  [rank] is
    [Elt->getRankOfConversionTo].  [SrcField] is the source read as an
    [unsigned]: [-1] reads as [~0U], which the assertion excludes, and [-2] as
    [-2U]; any other source is an index. *)
Fixpoint literalRank (rank : Expr -> TypeBase -> Outcome)
    (SubExprs : list (option Expr)) (Sources : list Z)
    (Fields : list (TupleTypeElt TypeBase)) (i : nat) (CurRank : ConversionRank)
  : Outcome :=
  match Fields with
  | [] => Ranked CurRank
  | DestElt :: rest =>
      let SrcField := default (-1)%Z (Sources !! i) in
      if (SrcField =? -1)%Z then Fatal
      else if (SrcField =? -2)%Z
      then literalRank rank SubExprs Sources rest (S i) CurRank
      else
        match SubExprs !! Z.to_nat SrcField with
        | Some (Some Elt) =>
            match rank Elt (EltTy DestElt) with
            | Ranked R =>
                literalRank rank SubExprs Sources rest (S i) (rank_max CurRank R)
            | stop => stop
            end
        | _ => Fatal
        end
  end.

(** Lines 218-235: a tuple value that is not converted in place may be
    permuted, and its element types must be those of the destination. *)
Fixpoint structuralRank (ETy : option (list (TupleTypeElt TypeBase)))
    (Sources : list Z) (Fields : list (TupleTypeElt TypeBase)) (i : nat)
  : Outcome :=
  match Fields with
  | [] => Ranked CR_Identity
  | DestElt :: rest =>
      let SrcField := default (-1)%Z (Sources !! i) in
      if (SrcField =? -1)%Z then Fatal
      else if (SrcField =? -2)%Z then structuralRank ETy Sources rest (S i)
      else
        match ETy with
        | Some EFields =>
            match EFields !! Z.to_nat SrcField with
            | Some SrcElt =>
                if sameCanonicalType (EltTy SrcElt) (EltTy DestElt)
                then structuralRank ETy Sources rest (S i)
                else Ranked CR_Invalid
            | None => Fatal
            end
        | None => Fatal
        end
  end.

(** [dyn_cast<TupleExpr>(E)]. *)
Definition asTupleExpr (E : Expr)
  : option (list (option Expr) * option (list Identifier)) :=
  match E with
  | TupleExpr _ SubExprs Names => Some (SubExprs, Names)
  | _ => None
  end.

(** The test of line 191: [E] is a tuple expression, not of one element, with
    as many elements as the destination has fields. *)
Definition convertsInPlace (E : Expr) (DestTy : list (TupleTypeElt TypeBase))
  : bool :=
  match asTupleExpr E with
  | Some (SubExprs, _) =>
      negb (length SubExprs =? 1) && (length SubExprs =? length DestTy)
  | None => false
  end.

Definition getTupleToTupleTypeConversionRank
    (rank : Expr -> TypeBase -> Outcome) (E : Expr) (NumExprElements : nat)
    (DestTy : list (TupleTypeElt TypeBase)) : Outcome :=
  match reconcileElements (getType E) NumExprElements DestTy with
  | Rec_Fatal => Fatal
  | Rec_Invalid => Ranked CR_Invalid
  | Rec_Bound _ B =>
      if convertsInPlace E DestTy then
        match asTupleExpr E with
        | Some (SubExprs, _) =>
            literalRank rank SubExprs (DestElementSources B) DestTy 0 CR_Identity
        | None => Fatal
        end
      else
        structuralRank (getType E ≫= getAsTupleType)
          (DestElementSources B) DestTy 0
  end.

(** ** [getConversionRank] *)

(** Lines 278-289: the auto-closure case, and failure. *)
Definition autoClosureRank (rank : Expr -> TypeBase -> Outcome) (E : Expr)
    (DestTy : TypeBase) : Outcome :=
  match getAsFunctionType DestTy with
  | Some (_, Result) =>
      match rank E Result with
      | Ranked CR_Invalid => Ranked CR_Invalid
      | Ranked _ => Ranked CR_AutoClosure
      | stop => stop
      end
  | None => Ranked CR_Invalid
  end.

(** The body of [getConversionRank], lines 246-289, with its recursive calls
    made through [rank]. *)
Definition getConversionRank_body (rank : Expr -> TypeBase -> Outcome)
    (E : Expr) (DestTy : TypeBase) : Outcome :=
  if isDependentType DestTy then Fatal
  else
    match getType E with
    | None => Fatal
    | Some ETy =>
        if sameCanonicalType ETy DestTy then Ranked CR_Identity
        else
          match asTupleExpr E with
          | Some (SubExprs, Names) =>
              if isGroupingParen SubExprs Names then
                match SubExprs with
                | Some Sub :: _ => rank Sub DestTy
                | _ => Fatal
                end
              else
                match getAsTupleType DestTy with
                | Some TT =>
                    getTupleToTupleTypeConversionRank rank E (length SubExprs) TT
                | None => autoClosureRank rank E DestTy
                end
          | None =>
              match getAsTupleType DestTy with
              | Some TT =>
                  let ScalarFieldNo := getFieldForScalarInit TT in
                  if negb (ScalarFieldNo =? -1)%Z then
                    match TT !! Z.to_nat ScalarFieldNo with
                    | Some Field => rank E (EltTy Field)
                    | None => Fatal
                    end
                  else
                    match getAsTupleType ETy with
                    | Some EFields =>
                        getTupleToTupleTypeConversionRank rank E (length EFields) TT
                    | None => autoClosureRank rank E DestTy
                    end
              | None => autoClosureRank rank E DestTy
              end
          end
    end.

(** The recursion of [getConversionRank], bounded by a counter: every call
    that the body makes is on a smaller expression or a smaller type. *)
Fixpoint getConversionRank (fuel : nat) (E : Expr) (DestTy : TypeBase) : Outcome :=
  match fuel with
  | 0 => OutOfFuel
  | S fuel' => getConversionRank_body (getConversionRank fuel') E DestTy
  end.

Fixpoint TypeBase_size (T : TypeBase) : nat :=
  match T with
  | BuiltinType _ => 1
  | DependentType => 1
  | NameAliasType _ U => S (TypeBase_size U)
  | TupleType Fields =>
      S (list_sum (map (fun f => TypeBase_size (EltTy f)) Fields))
  | FunctionType In Res => S (TypeBase_size In + TypeBase_size Res)
  end.

Fixpoint Expr_size (E : Expr) : nat :=
  match E with
  | TupleExpr _ SubExprs _ =>
      S (list_sum (map (fun o => match o with
                                 | Some e => Expr_size e
                                 | None => 0
                                 end) SubExprs))
  | UnresolvedDotExpr _ (Some Sub) _ => S (Expr_size Sub)
  | TupleElementExpr _ Sub _ => S (Expr_size Sub)
  | ApplyExpr _ Fn Arg => S (Expr_size Fn + Expr_size Arg)
  | SequenceExpr _ Elements => S (list_sum (map Expr_size Elements))
  | BraceExpr _ Elements =>
      S (list_sum (map (fun x => match x with
                                 | inl e => Expr_size e
                                 | inr (ValueDecl _ (Some e)) => Expr_size e
                                 | inr _ => 0
                                 end) Elements))
  | ClosureExpr _ Input => S (Expr_size Input)
  | BinaryExpr _ _ LHS RHS => S (Expr_size LHS + Expr_size RHS)
  | _ => 1
  end.

(** [Expr::getRankOfConversionTo], lines 294-297. *)
Definition getRankOfConversionTo (E : Expr) (DestTy : TypeBase) : Outcome :=
  getConversionRank (S (Expr_size E + TypeBase_size DestTy)) E DestTy.

(** ** The start of an expression ([Expr::getLocStart], lines 42-68) *)

(** Modelled from the spec: [UnresolvedDotExpr::getLocStart], declared in the
    missing [Expr.h].  Section 3: the start of a member projection is the
    start of its sub-expression ([None] when there is none).  [getLocStart]
    is [Expr::getLocStart], for the call on the sub-expression. *)
Definition UnresolvedDotExpr_getLocStart {SMLoc : Type}
    (getLocStart : Expr -> option SMLoc) (SubExpr : option Expr) : option SMLoc :=
  match SubExpr with
  | Some Sub => getLocStart Sub
  | None => None
  end.

(** The expression nodes of this development do not carry their location
    fields; [storedLoc E] stands for the one location field that the node [E]
    stores ([Loc], [ColonLoc], [TypeDeclLoc], [LParenLoc] or [LBLoc],
    according to its kind).  [None] is the read of the first element of a
    sequence without elements, or through a null pointer. *)
Fixpoint getLocStart {SMLoc : Type} (storedLoc : Expr -> SMLoc) (E : Expr)
  : option SMLoc :=
  match E with
  | IntegerLiteral _ _ | DeclRefExpr _ _ | OverloadSetRefExpr _ _
  | UnresolvedDeclRefExpr _ _ | UnresolvedMemberExpr _ _
  | UnresolvedScopedIdentifierExpr _ _ _ | TupleExpr _ _ _ | BraceExpr _ _
  | AnonClosureArgExpr _ _ => Some (storedLoc E)
  | UnresolvedDotExpr _ SubExpr _ =>
      UnresolvedDotExpr_getLocStart (getLocStart storedLoc) SubExpr
  | TupleElementExpr _ SubExpr _ => getLocStart storedLoc SubExpr
  | ApplyExpr _ Fn _ => getLocStart storedLoc Fn
  | SequenceExpr _ Elements =>
      match Elements with
      | First :: _ => getLocStart storedLoc First
      | [] => None
      end
  | ClosureExpr _ Input => getLocStart storedLoc Input
  | BinaryExpr _ _ LHS _ => getLocStart storedLoc LHS
  end.

(** ** Support methods ([ClosureExpr::getNumArgs], lines 76-82) *)

(** The number of arguments of a closure expression of type [Ty]: the number
    of fields of the input of its function type when that is a tuple type, and
    one otherwise.  [None] is the null dereference of the source when the type
    is absent or is not a function type. *)
Definition getNumArgs (Ty : Type_) : option nat :=
  match Ty with
  | None => None
  | Some T =>
      match getAsFunctionType T with
      | None => None
      | Some (Input, _) =>
          match getAsTupleType Input with
          | Some Fields => Some (length Fields)
          | None => Some 1
          end
      end
  end.

(** * The expression walker ([ExprWalker], lines 305-443) *)

Inductive WalkOrder : Type := Walk_PreOrder | Walk_PostOrder.

(** A walk runs the caller's function [Fn] on the nodes, with the caller's
    [Data]: a computation that reads and changes the data.  A walk function
    returns a node or null ([None]).  The nodes are trees here: a child slot
    that the source assigns ([E->Fn = E2]) is a component of the node that the
    visit returns. *)
Definition Walk (Data A : Type) : Type := Data -> A * Data.

Definition ret {Data A : Type} (a : A) : Walk Data A := fun d => (a, d).

Definition bind {Data A B : Type} (m : Walk Data A) (k : A -> Walk Data B)
  : Walk Data B :=
  fun d => let (a, d') := m d in k a d'.

(** [if (Expr *x = m) k else return 0]. *)
Definition ifNode {Data A B : Type} (m : Walk Data (option A))
    (k : A -> Walk Data (option B)) : Walk Data (option B) :=
  bind m (fun o => match o with
                   | Some x => k x
                   | None => ret None
                   end).

Notation "'do' x <- m ;; k" := (bind m (fun x => k))
  (at level 10, x name, m at level 99, k at level 200).
Notation "'ifnode' x <- m ;; k" := (ifNode m (fun x => k))
  (at level 10, x name, m at level 99, k at level 200).

Definition WalkFn (Data : Type) : Type :=
  Expr -> WalkOrder -> Walk Data (option Expr).

Section Visit.
Context {Data : Type}.
(** [ProcessNode], which the visit functions call on the children. *)
Variable ProcessNode : Expr -> Walk Data (option Expr).

(** The loop of [VisitTupleExpr], lines 325-331, over the element slots. *)
Fixpoint walkSubExprs (SubExprs : list (option Expr))
  : Walk Data (option (list (option Expr))) :=
  match SubExprs with
  | [] => ret (Some [])
  | None :: rest =>
      ifnode rest' <- walkSubExprs rest ;; ret (Some (None :: rest'))
  | Some Sub :: rest =>
      ifnode Elt <- ProcessNode Sub ;;
      ifnode rest' <- walkSubExprs rest ;; ret (Some (Some Elt :: rest'))
  end.

Definition VisitTupleExpr Ty SubExprs Names : Walk Data (option Expr) :=
  ifnode SubExprs' <- walkSubExprs SubExprs ;; ret (Some (TupleExpr Ty SubExprs' Names)).

Definition VisitUnresolvedDotExpr Ty (SubExpr : option Expr) N
  : Walk Data (option Expr) :=
  match SubExpr with
  | None => ret (Some (UnresolvedDotExpr Ty None N))
  | Some Sub =>
      ifnode E2 <- ProcessNode Sub ;; ret (Some (UnresolvedDotExpr Ty (Some E2) N))
  end.

Definition VisitTupleElementExpr Ty (SubExpr : Expr) FieldNo
  : Walk Data (option Expr) :=
  ifnode E2 <- ProcessNode SubExpr ;; ret (Some (TupleElementExpr Ty E2 FieldNo)).

Definition VisitApplyExpr Ty (Callee Arg : Expr) : Walk Data (option Expr) :=
  ifnode Callee' <- ProcessNode Callee ;;
  ifnode Arg' <- ProcessNode Arg ;;
  ret (Some (ApplyExpr Ty Callee' Arg')).

(** The loop of [VisitSequenceExpr], lines 363-367. *)
Fixpoint walkElements (Elements : list Expr) : Walk Data (option (list Expr)) :=
  match Elements with
  | [] => ret (Some [])
  | Elt :: rest =>
      ifnode Elt' <- ProcessNode Elt ;;
      ifnode rest' <- walkElements rest ;; ret (Some (Elt' :: rest'))
  end.

Definition VisitSequenceExpr Ty Elements : Walk Data (option Expr) :=
  ifnode Elements' <- walkElements Elements ;; ret (Some (SequenceExpr Ty Elements')).

(** The loop of [VisitBraceExpr], lines 371-387: an expression is walked; of
    a declaration, the initializer of a [ValueDecl] that has one. *)
Fixpoint walkBraceElements (Elements : list (Expr + Decl Expr))
  : Walk Data (option (list (Expr + Decl Expr))) :=
  match Elements with
  | [] => ret (Some [])
  | inl SubExpr :: rest =>
      ifnode E2 <- ProcessNode SubExpr ;;
      ifnode rest' <- walkBraceElements rest ;; ret (Some (inl E2 :: rest'))
  | inr (ValueDecl N (Some DInit)) :: rest =>
      ifnode E2 <- ProcessNode DInit ;;
      ifnode rest' <- walkBraceElements rest ;;
      ret (Some (inr (ValueDecl N (Some E2)) :: rest'))
  | inr D :: rest =>
      ifnode rest' <- walkBraceElements rest ;; ret (Some (inr D :: rest'))
  end.

Definition VisitBraceExpr Ty Elements : Walk Data (option Expr) :=
  ifnode Elements' <- walkBraceElements Elements ;; ret (Some (BraceExpr Ty Elements')).

Definition VisitClosureExpr Ty (Input : Expr) : Walk Data (option Expr) :=
  ifnode E2 <- ProcessNode Input ;; ret (Some (ClosureExpr Ty E2)).

Definition VisitBinaryExpr Ty (Callee : option Expr) (LHS RHS : Expr)
  : Walk Data (option Expr) :=
  ifnode LHS' <- ProcessNode LHS ;;
  ifnode RHS' <- ProcessNode RHS ;;
  ret (Some (BinaryExpr Ty Callee LHS' RHS')).

(** [ExprVisitor::Visit]: the visit function of the node's kind. *)
Definition Visit (E : Expr) : Walk Data (option Expr) :=
  match E with
  | IntegerLiteral _ _ | DeclRefExpr _ _ | OverloadSetRefExpr _ _
  | UnresolvedDeclRefExpr _ _ | UnresolvedMemberExpr _ _
  | UnresolvedScopedIdentifierExpr _ _ _ | AnonClosureArgExpr _ _ => ret (Some E)
  | TupleExpr Ty SubExprs Names => VisitTupleExpr Ty SubExprs Names
  | UnresolvedDotExpr Ty SubExpr N => VisitUnresolvedDotExpr Ty SubExpr N
  | TupleElementExpr Ty SubExpr FieldNo => VisitTupleElementExpr Ty SubExpr FieldNo
  | ApplyExpr Ty Callee Arg => VisitApplyExpr Ty Callee Arg
  | SequenceExpr Ty Elements => VisitSequenceExpr Ty Elements
  | BraceExpr Ty Elements => VisitBraceExpr Ty Elements
  | ClosureExpr Ty Input => VisitClosureExpr Ty Input
  | BinaryExpr Ty Callee LHS RHS => VisitBinaryExpr Ty Callee LHS RHS
  end.
End Visit.

(** [ExprWalker::ProcessNode], lines 412-421. *)
Fixpoint ProcessNode {Data : Type} (Fn : WalkFn Data) (E : Expr)
  : Walk Data (option Expr) :=
  do E2 <- Fn E Walk_PreOrder ;;
  match E2 with
  | None => ret (Some E)
  | Some _ =>
      ifnode E' <- Visit (ProcessNode Fn) E ;;
      Fn E' Walk_PostOrder
  end.

(** [Expr::WalkExpr], lines 440-443. *)
Definition WalkExpr {Data : Type} (E : Expr) (Fn : WalkFn Data)
  : Walk Data (option Expr) :=
  ProcessNode Fn E.

(** * The printer ([PrintExpr], lines 450-590) *)

(** The state of a [PrintExpr]: the text written to the stream [OS] so far,
    and the member [Indent], an [unsigned]. *)
Record PrintState : Type := mkPrintState {
  OS : string;
  Indent : Z
}.

(** Arithmetic on [unsigned] wraps around. *)
Definition unsigned (z : Z) : Z := (z mod 2 ^ 32)%Z.

(** A statement of the printer; [None] is a read of the first declaration of
    an overload set without declarations. *)
Definition Print : Type := PrintState -> option PrintState.

(** [OS << Text]. *)
Definition write (Text : string) : Print :=
  fun st => Some (mkPrintState (OS st ++ Text) (Indent st)).

(** The new-line character. *)
Definition nl : string := String (Ascii.ascii_of_nat 10) "".

Fixpoint spaces (n : nat) : string :=
  match n with
  | 0 => ""
  | S n' => String " "%char (spaces n')
  end.

(** [OS.indent(Indent)] and [OS.indent(Indent+2)]. *)
Definition indent : Print :=
  fun st => write (spaces (Z.to_nat (Indent st))) st.

Definition indentElement : Print :=
  fun st => write (spaces (Z.to_nat (unsigned (Indent st + 2)))) st.

Definition stop : Print := fun _ => None.

(** Statements, one after the other. *)
Fixpoint printAll (ms : list Print) : Print :=
  fun st =>
    match ms with
    | [] => Some st
    | m :: rest =>
        match m st with
        | Some st1 => printAll rest st1
        | None => None
        end
    end.

(** The loops of lines 496-502, 532-535 and 540-546: a new line before each
    element. *)
Fixpoint printElements {A : Type} (printElement : A -> Print) (l : list A)
  : Print :=
  match l with
  | [] => printAll []
  | x :: rest =>
      printAll [write nl; printElement x; printElements printElement rest]
  end.

(** [OS << N] for an [unsigned]: its decimal digits. *)
Definition decimal (N : nat) : string := NilEmpty.string_of_uint (Nat.to_uint N).

(** Lines 567-574: the name that a binary expression prints for its function;
    [None] when the function is an overload set without declarations. *)
Definition binaryName (Fn : option Expr) : option string :=
  match Fn with
  | None => Some "="
  | Some (DeclRefExpr _ D) => Some D
  | Some (OverloadSetRefExpr _ Decls) => head Decls
  | Some _ => Some "***UNKNOWN***"
  end.

Definition writeName (N : option string) : Print :=
  match N with
  | Some Text => write Text
  | None => stop
  end.

Section PrintExpr.
(** What the printer calls of the code that is not in this file: the text
    that [OS << Ty] writes for a type, the text that [D->print(OS, Indent)]
    writes for a declaration, and [E->ResolvedDecls.size()], a field that the
    expression nodes of this development do not carry. *)
Variable printType : Type_ -> string.
Variable printDecl : Decl Expr -> Z -> string.
Variable numResolvedDecls : Expr -> nat.

Section Visit.
(** [Visit], for the calls on the children. *)
Variable Visit : Expr -> Print.

(** [PrintRec(Expr *E)], lines 460-467. *)
Definition PrintRec (E : option Expr) : Print :=
  fun st =>
    let st1 := mkPrintState (OS st) (unsigned (Indent st + 2)) in
    match
      match E with
      | Some E' => Visit E' st1
      | None => printAll [indent; write ("(" ++ "**NULL EXPRESSION**" ++ ")")] st1
      end
    with
    | Some st2 => Some (mkPrintState (OS st2) (unsigned (Indent st2 - 2)))
    | None => None
    end.

(** [PrintRec(Decl *D)], lines 469-471. *)
Definition PrintRec_Decl (D : Decl Expr) : Print :=
  fun st => write (printDecl D (unsigned (Indent st + 2))) st.

Definition PrintVisitIntegerLiteral Ty Val : Print :=
  printAll [indent; write "(integer_literal type='"; write (printType Ty);
            write "' value="; write Val; write ")"].

Definition PrintVisitDeclRefExpr Ty D : Print :=
  printAll [indent; write "(declref_expr type='"; write (printType Ty);
            write "' decl="; write D; write ")"].

Definition PrintVisitOverloadSetRefExpr Ty (Decls : list Identifier) : Print :=
  printAll [indent; write "(overloadsetref_expr type='"; write (printType Ty);
            write "' decl="; writeName (head Decls); write ")"].

Definition PrintVisitUnresolvedDeclRefExpr Ty N : Print :=
  printAll [indent; write "(unresolved_decl_ref_expr type='"; write (printType Ty);
            write "' name="; write N; write ")"].

Definition PrintVisitUnresolvedMemberExpr Ty N : Print :=
  printAll [indent; write "(unresolved_member_expr type='"; write (printType Ty);
            write "' name='"; write N; write "')"].

Definition PrintVisitUnresolvedScopedIdentifierExpr (TypeDecl N : Identifier)
  : Print :=
  printAll [indent; write "(unresolved_scoped_identifier_expr type='";
            write TypeDecl; write "' name='"; write N; write "')"].

Definition PrintVisitTupleExpr Ty (SubExprs : list (option Expr)) : Print :=
  printAll [indent; write "(tuple_expr type='"; write (printType Ty); write "'";
            printElements
              (fun o => match o with
                        | Some Sub => PrintRec (Some Sub)
                        | None =>
                            printAll [indentElement;
                                      write "<<tuple element default value>>"]
                        end) SubExprs;
            write ")"].

Definition PrintVisitUnresolvedDotExpr (E : Expr) Ty (SubExpr : option Expr) N
  : Print :=
  printAll [indent; write "(unresolved_dot_expr type='"; write (printType Ty);
            write "' field '"; write N; write "'";
            if numResolvedDecls E =? 0 then printAll []
            else printAll [write " decl resolved to ";
                           write (decimal (numResolvedDecls E));
                           write " candidate(s)!"];
            match SubExpr with
            | Some Sub => printAll [write nl; PrintRec (Some Sub)]
            | None => printAll []
            end;
            write ")"].

Definition PrintVisitTupleElementExpr Ty (SubExpr : Expr) (FieldNo : nat) : Print :=
  printAll [indent; write "(tuple_element_expr type='"; write (printType Ty);
            write "' field #"; write (decimal FieldNo); write nl;
            PrintRec (Some SubExpr); write ")"].

Definition PrintVisitApplyExpr Ty (Fn Arg : Expr) : Print :=
  printAll [indent; write "(apply_expr type='"; write (printType Ty);
            write "'"; write nl; PrintRec (Some Fn); write nl;
            PrintRec (Some Arg); write ")"].

Definition PrintVisitSequenceExpr Ty (Elements : list Expr) : Print :=
  printAll [indent; write "(sequence_expr type='"; write (printType Ty);
            write "'";
            printElements (fun Elt => PrintRec (Some Elt)) Elements;
            write ")"].

Definition PrintVisitBraceExpr Ty (Elements : list (Expr + Decl Expr)) : Print :=
  printAll [indent; write "(brace_expr type='"; write (printType Ty); write "'";
            printElements
              (fun x => match x with
                        | inl SubExpr => PrintRec (Some SubExpr)
                        | inr D => PrintRec_Decl D
                        end) Elements;
            write ")"].

Definition PrintVisitClosureExpr Ty (Input : Expr) : Print :=
  printAll [indent; write "(closure_expr type='"; write (printType Ty);
            write "'"; write nl; PrintRec (Some Input); write ")"].

Definition PrintVisitAnonClosureArgExpr Ty (ArgNo : nat) : Print :=
  printAll [indent; write "(anon_closure_arg_expr type='"; write (printType Ty);
            write "' ArgNo="; write (decimal ArgNo); write ")"].

Definition PrintVisitBinaryExpr Ty (Fn : option Expr) (LHS RHS : Expr) : Print :=
  printAll [indent; write "(binary_expr '"; writeName (binaryName Fn);
            write "' type='"; write (printType Ty); write "'"; write nl;
            PrintRec (Some LHS); write nl; PrintRec (Some RHS); write ")"].
End Visit.

(** [ExprVisitor::Visit] of the printer: the function of the node's kind. *)
Fixpoint PrintVisit (E : Expr) : Print :=
  match E with
  | IntegerLiteral Ty Val => PrintVisitIntegerLiteral Ty Val
  | DeclRefExpr Ty D => PrintVisitDeclRefExpr Ty D
  | OverloadSetRefExpr Ty Decls => PrintVisitOverloadSetRefExpr Ty Decls
  | UnresolvedDeclRefExpr Ty N => PrintVisitUnresolvedDeclRefExpr Ty N
  | UnresolvedMemberExpr Ty N => PrintVisitUnresolvedMemberExpr Ty N
  | UnresolvedScopedIdentifierExpr _ TypeDecl N =>
      PrintVisitUnresolvedScopedIdentifierExpr TypeDecl N
  | TupleExpr Ty SubExprs _ => PrintVisitTupleExpr PrintVisit Ty SubExprs
  | UnresolvedDotExpr Ty SubExpr N =>
      PrintVisitUnresolvedDotExpr PrintVisit E Ty SubExpr N
  | TupleElementExpr Ty SubExpr FieldNo =>
      PrintVisitTupleElementExpr PrintVisit Ty SubExpr FieldNo
  | ApplyExpr Ty Fn Arg => PrintVisitApplyExpr PrintVisit Ty Fn Arg
  | SequenceExpr Ty Elements => PrintVisitSequenceExpr PrintVisit Ty Elements
  | BraceExpr Ty Elements => PrintVisitBraceExpr PrintVisit Ty Elements
  | ClosureExpr Ty Input => PrintVisitClosureExpr PrintVisit Ty Input
  | AnonClosureArgExpr Ty ArgNo => PrintVisitAnonClosureArgExpr Ty ArgNo
  | BinaryExpr Ty Fn LHS RHS => PrintVisitBinaryExpr PrintVisit Ty Fn LHS RHS
  end.

(** [Expr::print], lines 587-589: the text on the stream afterwards. *)
Definition print (E : Expr) (Stream : string) (Indentation : Z) : option string :=
  OS <$> PrintVisit E (mkPrintState Stream (unsigned Indentation)).
End PrintExpr.

(** * The vocabulary of the properties *)

(** The elements of an expression that is a tuple expression. *)
Definition tupleElements (E : Expr) : list (option Expr) :=
  match asTupleExpr E with
  | Some (SubExprs, _) => SubExprs
  | None => []
  end.

(** [smaller E DestTy e t]: the pair [(e, t)] is below [(E, DestTy)]. *)
Definition smaller (E : Expr) (DestTy : TypeBase) (e : Expr) (t : TypeBase) : Prop :=
  Expr_size e + TypeBase_size t < Expr_size E + TypeBase_size DestTy.

(** The input element a destination field takes by its name: [-1] for a
    field without a name or without an input of its name. *)
Definition namedSource (IdentList : list Identifier) (f : TupleTypeElt TypeBase) : Z :=
  if empty (Name f) then (-1)%Z else findNamedInput IdentList (Name f) 0.

(** The bookkeeping at the start: no input used, no field provided for. *)
Definition initialBookkeeping (NumExprElements NumFields : nat) : Bookkeeping :=
  mkBookkeeping (replicate NumExprElements false) (replicate NumFields (-1)%Z).

(** [E] is a tuple expression that [isGroupingParen()]. *)
Definition isGroupingParenExpr (E : Expr) : bool :=
  match asTupleExpr E with
  | Some (SubExprs, Names) => isGroupingParen SubExprs Names
  | None => false
  end.

(** An input element that the positional matching may take: not used, and
    without a name. *)
Definition isLeftOver (IdentList : list Identifier) (Used : list bool) (j : nat)
  : bool :=
  negb (default false (Used !! j)) && empty (default "" (IdentList !! j)).

(** The left-over inputs from position [Next] on, in order. *)
Definition leftOverInputs (IdentList : list Identifier) (Used : list bool)
    (Next NumExprElements : nat) : list nat :=
  List.filter (isLeftOver IdentList Used) (seq Next (NumExprElements - Next)).

(** The positional matching in the words of the design document (section
    4.4.1, pass 2): the fields that are still unresolved take, from left to
    right, the left-over inputs in their order; when these are exhausted, a
    field takes its default value if it has one, and the reconciliation fails
    otherwise. *)
Fixpoint assignPositional (Fields : list (TupleTypeElt TypeBase))
    (Sources : list Z) (LeftOver : list nat) : option (list Z) :=
  match Fields, Sources with
  | f :: Fields', s :: Sources' =>
      if negb (s =? -1)%Z then cons s <$> assignPositional Fields' Sources' LeftOver
      else
        match LeftOver with
        | j :: LeftOver' =>
            cons (Z.of_nat j) <$> assignPositional Fields' Sources' LeftOver'
        | [] =>
            if Init f then cons (-2)%Z <$> assignPositional Fields' Sources' []
            else None
        end
  | _, _ => Some []
  end.

(** The number of fields without a source. *)
Definition unresolvedFields (Sources : list Z) : nat :=
  length (List.filter (fun s => (s =? -1)%Z) Sources).

Definition markUsed (Inputs : list nat) (Used : list bool) : list bool :=
  foldl (fun U j => <[j := true]> U) Used Inputs.

Local Arguments unresolvedFields : simpl never.

(** The state of the bookkeeping between the passes: the arrays have their
    sizes, a source is [-1] or an input element, and an input element that is
    marked used is the source of a field. *)
Definition wellFormed (NumExprElements NumFields : nat) (B : Bookkeeping) : Prop :=
  length (UsedElements B) = NumExprElements
  /\ length (DestElementSources B) = NumFields
  /\ (forall i s, DestElementSources B !! i = Some s ->
                  s = (-1)%Z \/ (0 <= s < Z.of_nat NumExprElements)%Z)
  /\ (forall j, UsedElements B !! j = Some true ->
                exists i, DestElementSources B !! i = Some (Z.of_nat j)).

(** The literal mode in the words of the design document (section 4.4.1, rank
    computation): for each destination field bound to an actual source
    element, the rank of that element against the field's type, fields bound
    to their default value skipped ... *)
Fixpoint elementRanks (rank : Expr -> TypeBase -> Outcome)
    (SubExprs : list (option Expr)) (Sources : list Z)
    (Fields : list (TupleTypeElt TypeBase)) {struct Fields} : list Outcome :=
  match Fields, Sources with
  | f :: Fields', s :: Sources' =>
      if (s =? -2)%Z then elementRanks rank SubExprs Sources' Fields'
      else
        match SubExprs !! Z.to_nat s with
        | Some (Some Elt) => rank Elt (EltTy f)
        | _ => Fatal
        end :: elementRanks rank SubExprs Sources' Fields'
  | _, _ => []
  end.

(** ... and the maximum of the ranks computed, Identity when there are none.
    A computation that stops is the outcome. *)
Fixpoint worstRank (Ranks : list Outcome) : Outcome :=
  match Ranks with
  | [] => Ranked CR_Identity
  | Ranked R :: rest =>
      match worstRank rest with
      | Ranked R' => Ranked (rank_max R R')
      | stop => stop
      end
  | stop :: _ => stop
  end.

Definition literalModeRank (rank : Expr -> TypeBase -> Outcome)
    (SubExprs : list (option Expr)) (Sources : list Z)
    (Fields : list (TupleTypeElt TypeBase)) : Outcome :=
  worstRank (elementRanks rank SubExprs Sources Fields).

(** The structural children of a node, in the order in which the visit
    functions process them: the elements of a tuple that are present, callee
    and argument of an application, the elements of a sequence, the
    expressions and declaration initializers of a brace statement, the input
    of a closure, the operands of a binary expression. *)
Definition children (E : Expr) : list Expr :=
  match E with
  | TupleExpr _ SubExprs _ => omap id SubExprs
  | UnresolvedDotExpr _ SubExpr _ => option_list SubExpr
  | TupleElementExpr _ SubExpr _ => [SubExpr]
  | ApplyExpr _ Callee Arg => [Callee; Arg]
  | SequenceExpr _ Elements => Elements
  | BraceExpr _ Elements =>
      omap (fun x => match x with
                     | inl e => Some e
                     | inr D => declInit D
                     end) Elements
  | ClosureExpr _ Input => [Input]
  | BinaryExpr _ _ LHS RHS => [LHS; RHS]
  | _ => []
  end.

Fixpoint fillSubExprs (SubExprs : list (option Expr)) (Cs : list Expr)
  : list (option Expr) :=
  match SubExprs, Cs with
  | Some _ :: rest, C :: Cs' => Some C :: fillSubExprs rest Cs'
  | o :: rest, _ => o :: fillSubExprs rest Cs
  | [], _ => []
  end.

Fixpoint fillBraceElements (Elements : list (Expr + Decl Expr)) (Cs : list Expr)
  : list (Expr + Decl Expr) :=
  match Elements, Cs with
  | inl _ :: rest, C :: Cs' => inl C :: fillBraceElements rest Cs'
  | inr (ValueDecl N (Some _)) :: rest, C :: Cs' =>
      inr (ValueDecl N (Some C)) :: fillBraceElements rest Cs'
  | x :: rest, _ => x :: fillBraceElements rest Cs
  | [], _ => []
  end.

(** The node [E] with the nodes [Cs] in its child slots. *)
Definition withChildren (E : Expr) (Cs : list Expr) : Expr :=
  match E, Cs with
  | TupleExpr Ty SubExprs Names, _ => TupleExpr Ty (fillSubExprs SubExprs Cs) Names
  | UnresolvedDotExpr Ty (Some _) N, [C] => UnresolvedDotExpr Ty (Some C) N
  | TupleElementExpr Ty _ FieldNo, [C] => TupleElementExpr Ty C FieldNo
  | ApplyExpr Ty _ _, [C; A] => ApplyExpr Ty C A
  | SequenceExpr Ty _, _ => SequenceExpr Ty Cs
  | BraceExpr Ty Elements, _ => BraceExpr Ty (fillBraceElements Elements Cs)
  | ClosureExpr Ty _, [C] => ClosureExpr Ty C
  | BinaryExpr Ty Callee _ _, [L; R] => BinaryExpr Ty Callee L R
  | _, _ => E
  end.

(** The walk function that accepts every node, replaces none, and records
    its calls in the data. *)
Definition record : WalkFn (list (Expr * WalkOrder)) :=
  fun E Order log => (Some E, (log ++ [(E, Order)])%list).

(** The calls of a walk of [E] with [record]. *)
Definition trace (E : Expr) : list (Expr * WalkOrder) :=
  snd (WalkExpr E record []).

(** The walk function that accepts every node and, after its children,
    replaces it by [g] of it; it leaves the data alone. *)
Definition rewriter {Data : Type} (g : Expr -> Expr) : WalkFn Data :=
  fun E Order d =>
    (match Order with
     | Walk_PreOrder => Some E
     | Walk_PostOrder => Some (g E)
     end, d).

(** The kinds of node of which [getLocStart] returns a location field. *)
Definition hasStoredLoc (E : Expr) : bool :=
  match E with
  | UnresolvedDotExpr _ _ _ | TupleElementExpr _ _ _ | ApplyExpr _ _ _
  | SequenceExpr _ _ | ClosureExpr _ _ | BinaryExpr _ _ _ _ => false
  | _ => true
  end.

(** A statement of the printer that, at the indentation [i], adds [Text] to
    the stream, whatever is on it, and leaves the indentation as it is. *)
Definition appendsText (m : Print) (i : Z) (Text : string) : Prop :=
  forall Stream, m (mkPrintState Stream i) = Some (mkPrintState (Stream ++ Text) i).

(** A statement that stops at the indentation [i]. *)
Definition stopsAt (m : Print) (i : Z) : Prop :=
  forall Stream, m (mkPrintState Stream i) = None.

(** A statement adds a text to the stream, or it stops, which shows [bad]. *)
Definition appends (bad : Prop) (m : Print) (i : Z) : Prop :=
  (exists Text, appendsText m i Text) \/ (stopsAt m i /\ bad).

(** A parenthesized clause at the indentation [i]. *)
Definition isClause (i : Z) (Text : string) : Prop :=
  exists Body, Text = spaces (Z.to_nat i) ++ "(" ++ Body ++ ")".

(** The nodes of which the printer can print the name of the declaration:
    not a reference to an overload set without declarations, and not a binary
    expression whose function is one. *)
Definition printsName (E : Expr) : bool :=
  match E with
  | OverloadSetRefExpr _ [] => false
  | BinaryExpr _ (Some (OverloadSetRefExpr _ [])) _ _ => false
  | _ => true
  end.


(** The result of the walk of [E] with [rewriter g]. *)
Definition rewritten (g : Expr -> Expr) (E : Expr) : Expr :=
  default E (fst (WalkExpr E (rewriter g) tt)).

(** The data after the calls of [Fn] in [Calls], one after the other. *)
Definition afterCalls {Data : Type} (Fn : WalkFn Data)
    (Calls : list (Expr * WalkOrder)) (d : Data) : Data :=
  foldl (fun d' c => snd (Fn (fst c) (snd c) d')) d Calls.

(** ** Types, expressions and walk functions of the examples *)

Definition Int : TypeBase := BuiltinType "Int".

Definition field (N : Identifier) (T : TypeBase) : TupleTypeElt TypeBase :=
  mkTupleTypeElt N T false.

Definition fieldWithDefault (N : Identifier) (T : TypeBase) : TupleTypeElt TypeBase :=
  mkTupleTypeElt N T true.

Definition literal (V : string) : Expr := IntegerLiteral (Some Int) V.

(** The type [() -> Int]. *)
Definition IntProducer : TypeBase := FunctionType (TupleType []) Int.

(** The tuple literal [(1, 2)], of type [(Int, Int)]. *)
Definition pair_1_2 : Expr :=
  TupleExpr (Some (TupleType [field "" Int; field "" Int]))
    [Some (literal "1"); Some (literal "2")] None.

(** The swizzle of the source's comment: [(.y = 4, .x = 3)]. *)
Definition swizzle_4_3 : Expr :=
  TupleExpr (Some (TupleType [field "y" Int; field "x" Int]))
    [Some (literal "4"); Some (literal "3")] (Some ["y"; "x"]).

(** A variable of type [(x : Int, y : Int)]. *)
Definition point_variable : Expr :=
  DeclRefExpr (Some (TupleType [field "x" Int; field "y" Int])) "p".

(** The fields of the type [(() -> Int, Int, c : Int = ...)]: three fields,
    the last with a default value. *)
Definition producer_and_default : list (TupleTypeElt TypeBase) :=
  [field "" IntProducer; field "" Int; fieldWithDefault "c" Int].

(** The walk functions of the examples record their calls in the data. *)
Definition Log : Type := list (Expr * WalkOrder).

Definition isRef (N : Identifier) (E : Expr) : bool :=
  match E with
  | DeclRefExpr _ D => String.eqb D N
  | _ => false
  end.

Definition isApply (E : Expr) : bool :=
  match E with
  | ApplyExpr _ _ _ => true
  | _ => false
  end.

Definition ref (N : Identifier) : Expr := DeclRefExpr None N.

(** Returns null after the children of the reference to [N]. *)
Definition abortAfter (N : Identifier) : WalkFn Log :=
  fun E Order log =>
    (match Order with
     | Walk_PostOrder => if isRef N E then None else Some E
     | Walk_PreOrder => Some E
     end, (log ++ [(E, Order)])%list).

(** Returns null before the children of an application, and replaces the
    reference to [c] by one to [c'] after its children. *)
Definition rejectApply : WalkFn Log :=
  fun E Order log =>
    (match Order with
     | Walk_PreOrder => if isApply E then None else Some E
     | Walk_PostOrder => if isRef "c" E then Some (ref "c'") else Some E
     end, (log ++ [(E, Order)])%list).

(** As [rejectApply], but it returns some other node before the children of
    a node that it does not reject. *)
Definition rejectApplyOrOther : WalkFn Log :=
  fun E Order log =>
    (match Order with
     | Walk_PreOrder => if isApply E then None else Some (ref "other")
     | Walk_PostOrder => if isRef "c" E then Some (ref "c'") else Some E
     end, (log ++ [(E, Order)])%list).

Definition sequence_a_gb_c : Expr :=
  SequenceExpr None [ref "a"; ApplyExpr None (ref "g") (ref "b"); ref "c"].

(** * Properties *)

(** ** Types: equality and sizes *)

Lemma TypeBase_eqb_eq (A B : TypeBase) : TypeBase_eqb A B = true <-> A = B.
Proof.
  revert B. induction A as [n| |n U IH|Fs IH|In Res IHIn IHRes]
    using TypeBase_nested_ind; intros B; destruct B as [m| |m V|Gs|In' Res'];
    simpl; try (split; [discriminate|congruence]).
  - rewrite String.eqb_eq. split; congruence.
  - split; congruence.
  - rewrite andb_true_iff, String.eqb_eq, IH.
    split; [intros [-> ->]; reflexivity | intros Heq; injection Heq; auto].
  - revert Gs. induction IH as [|f Fs Hf HFs IHFs]; intros [|g Gs];
      try (split; [discriminate|congruence]).
    + split; congruence.
    + rewrite !andb_true_iff, String.eqb_eq, Hf, Bool.eqb_true_iff, IHFs.
      destruct f, g; simpl. split.
      * intros [[[-> ->] ->] Heq]. congruence.
      * intros Heq. injection Heq as -> -> -> ->. auto.
  - rewrite andb_true_iff, IHIn, IHRes.
    split; [intros [-> ->]; reflexivity | intros Heq; injection Heq; auto].
Qed.

Lemma TypeBase_eqb_refl (A : TypeBase) : TypeBase_eqb A A = true.
Proof. now apply TypeBase_eqb_eq. Qed.

Lemma sameCanonicalType_spec (A B : TypeBase) :
  sameCanonicalType A B = true <-> getCanonicalType A = getCanonicalType B.
Proof. apply TypeBase_eqb_eq. Qed.

Lemma sameCanonicalType_refl (A : TypeBase) : sameCanonicalType A A = true.
Proof. apply TypeBase_eqb_refl. Qed.

Lemma getDesugaredType_size (T : TypeBase) :
  TypeBase_size (getDesugaredType T) <= TypeBase_size T.
Proof. induction T; simpl; lia. Qed.

Lemma list_sum_elem_le {A : Type} (f : A -> nat) (l : list A) (x : A) :
  x ∈ l -> f x <= list_sum (map f l).
Proof.
  induction 1 as [x l|x y l _ IH]; simpl; lia.
Qed.

Lemma getAsTupleType_size (T : TypeBase) Fields (f : TupleTypeElt TypeBase) :
  getAsTupleType T = Some Fields -> f ∈ Fields ->
  TypeBase_size (EltTy f) < TypeBase_size T.
Proof.
  unfold getAsTupleType. intros HT Hf.
  pose proof (getDesugaredType_size T) as Hle.
  destruct (getDesugaredType T); try discriminate.
  injection HT as ->. simpl in Hle.
  pose proof (list_sum_elem_le (fun f => TypeBase_size (EltTy f)) _ _ Hf). lia.
Qed.

Lemma getAsFunctionType_size (T In Res : TypeBase) :
  getAsFunctionType T = Some (In, Res) -> TypeBase_size Res < TypeBase_size T.
Proof.
  unfold getAsFunctionType. intros HT.
  pose proof (getDesugaredType_size T) as Hle.
  destruct (getDesugaredType T); try discriminate.
  injection HT as -> ->. simpl in Hle. lia.
Qed.

Lemma TupleExpr_size Ty SubExprs Names (e : Expr) :
  Some e ∈ SubExprs -> Expr_size e < Expr_size (TupleExpr Ty SubExprs Names).
Proof.
  intros He. simpl.
  pose proof (list_sum_elem_le
    (fun o => match o with Some e => Expr_size e | None => 0 end) _ _ He).
  simpl in *. lia.
Qed.

(** ** The recursion of [getConversionRank] ends *)

(** The body calls [rank] on elements of the tuple expression against field
    types of the destination, on the expression against a field or result type
    of the destination, and on the element of a grouping parenthesis: always on
    a smaller pair. *)

Lemma literalRank_ext rank1 rank2 SubExprs Sources Fields i R :
  (forall e f, Some e ∈ SubExprs -> f ∈ Fields ->
               rank1 e (EltTy f) = rank2 e (EltTy f)) ->
  literalRank rank1 SubExprs Sources Fields i R
  = literalRank rank2 SubExprs Sources Fields i R.
Proof.
  revert i R. induction Fields as [|f Fields IH]; intros i R Hext; simpl; [done|].
  assert (Hrest : forall e f', Some e ∈ SubExprs -> f' ∈ Fields ->
                               rank1 e (EltTy f') = rank2 e (EltTy f')).
  { intros e f' He Hf'. apply Hext; [done|]. now right. }
  destruct (_ =? -1)%Z; [done|].
  destruct (_ =? -2)%Z; [now apply IH|].
  destruct (SubExprs !! _) as [[Elt|]|] eqn:Hl; try done.
  rewrite <- (Hext Elt f); [|by eapply list_elem_of_lookup_2|by left].
  destruct (rank1 Elt (EltTy f)); try done. now apply IH.
Qed.

Lemma literalRank_fuel rank SubExprs Sources Fields i R :
  (forall e f, Some e ∈ SubExprs -> f ∈ Fields -> rank e (EltTy f) <> OutOfFuel) ->
  literalRank rank SubExprs Sources Fields i R <> OutOfFuel.
Proof.
  revert i R. induction Fields as [|f Fields IH]; intros i R Hext; simpl; [done|].
  assert (Hrest : forall e f', Some e ∈ SubExprs -> f' ∈ Fields ->
                               rank e (EltTy f') <> OutOfFuel).
  { intros e f' He Hf'. apply Hext; [done|]. now right. }
  destruct (_ =? -1)%Z; [done|].
  destruct (_ =? -2)%Z; [now apply IH|].
  destruct (SubExprs !! _) as [[Elt|]|] eqn:Hl; try done.
  pose proof (Hext Elt f) as HElt.
  destruct (rank Elt (EltTy f)); try done.
  - now apply IH.
  - apply HElt; [by eapply list_elem_of_lookup_2|by left].
Qed.

Lemma structuralRank_fuel ETy Sources Fields i :
  structuralRank ETy Sources Fields i <> OutOfFuel.
Proof.
  revert i. induction Fields as [|f Fields IH]; intros i; simpl; [done|].
  repeat case_match; done.
Qed.

Lemma tupleElements_size (E e : Expr) :
  Some e ∈ tupleElements E -> Expr_size e < Expr_size E.
Proof.
  destruct E; unfold tupleElements; simpl; try (intros H; by inversion H).
  intros H. by apply (TupleExpr_size Ty SubExprs SubExprNames).
Qed.

Lemma getTupleToTupleTypeConversionRank_ext rank1 rank2 E Num DestTy :
  (forall e f, Some e ∈ tupleElements E -> f ∈ DestTy ->
               rank1 e (EltTy f) = rank2 e (EltTy f)) ->
  getTupleToTupleTypeConversionRank rank1 E Num DestTy
  = getTupleToTupleTypeConversionRank rank2 E Num DestTy.
Proof.
  intros Hext. unfold getTupleToTupleTypeConversionRank.
  destruct (reconcileElements _ _ _); try done.
  destruct (convertsInPlace E DestTy); [|done].
  unfold tupleElements in Hext.
  destruct (asTupleExpr E) as [[SubExprs Names]|]; [|done].
  now apply literalRank_ext.
Qed.

Lemma getTupleToTupleTypeConversionRank_fuel rank E Num DestTy :
  (forall e f, Some e ∈ tupleElements E -> f ∈ DestTy ->
               rank e (EltTy f) <> OutOfFuel) ->
  getTupleToTupleTypeConversionRank rank E Num DestTy <> OutOfFuel.
Proof.
  intros Hext. unfold getTupleToTupleTypeConversionRank.
  destruct (reconcileElements _ _ _); try done.
  destruct (convertsInPlace E DestTy); [|apply structuralRank_fuel].
  unfold tupleElements in Hext.
  destruct (asTupleExpr E) as [[SubExprs Names]|]; [|done].
  now apply literalRank_fuel.
Qed.

Lemma autoClosureRank_ext rank1 rank2 E DestTy :
  (forall t, TypeBase_size t < TypeBase_size DestTy -> rank1 E t = rank2 E t) ->
  autoClosureRank rank1 E DestTy = autoClosureRank rank2 E DestTy.
Proof.
  intros Hext. unfold autoClosureRank.
  destruct (getAsFunctionType DestTy) as [[In Res]|] eqn:HF; [|done].
  rewrite Hext; [done|]. by eapply getAsFunctionType_size.
Qed.

Lemma autoClosureRank_fuel rank E DestTy :
  (forall t, TypeBase_size t < TypeBase_size DestTy -> rank E t <> OutOfFuel) ->
  autoClosureRank rank E DestTy <> OutOfFuel.
Proof.
  intros Hext. unfold autoClosureRank.
  destruct (getAsFunctionType DestTy) as [[In Res]|] eqn:HF; [|done].
  pose proof (Hext Res (getAsFunctionType_size _ _ _ HF)).
  destruct (rank E Res) as [[]| |]; done.
Qed.

Section Body_calls.
Variables (E : Expr) (DestTy : TypeBase).


Lemma smaller_element e f Fields :
  Some e ∈ tupleElements E -> getAsTupleType DestTy = Some Fields -> f ∈ Fields ->
  smaller E DestTy e (EltTy f).
Proof.
  intros He HT Hf. unfold smaller.
  pose proof (tupleElements_size _ _ He).
  pose proof (getAsTupleType_size _ _ _ HT Hf). lia.
Qed.

Lemma smaller_type t :
  TypeBase_size t < TypeBase_size DestTy -> smaller E DestTy E t.
Proof. unfold smaller. lia. Qed.

Lemma smaller_expr e : Some e ∈ tupleElements E -> smaller E DestTy e DestTy.
Proof.
  intros He. unfold smaller. pose proof (tupleElements_size _ _ He). lia.
Qed.

Lemma getConversionRank_body_ext rank1 rank2 :
  (forall e t, smaller E DestTy e t -> rank1 e t = rank2 e t) ->
  getConversionRank_body rank1 E DestTy = getConversionRank_body rank2 E DestTy.
Proof.
  intros Hext. unfold getConversionRank_body.
  destruct (isDependentType DestTy); [done|].
  destruct (getType E) as [ETy|]; [|done].
  destruct (sameCanonicalType ETy DestTy); [done|].
  assert (Hauto : autoClosureRank rank1 E DestTy = autoClosureRank rank2 E DestTy).
  { apply autoClosureRank_ext. intros t Ht. apply Hext, smaller_type, Ht. }
  destruct (asTupleExpr E) as [[SubExprs Names]|] eqn:HE.
  - assert (Hsub : tupleElements E = SubExprs) by (unfold tupleElements; now rewrite HE).
    destruct (isGroupingParen SubExprs Names).
    + destruct SubExprs as [|[Sub|] ?]; try done.
      apply Hext, smaller_expr. rewrite Hsub. by left.
    + destruct (getAsTupleType DestTy) as [TT|] eqn:HT; [|done].
      apply getTupleToTupleTypeConversionRank_ext. intros e f He Hf.
      by eapply Hext, smaller_element.
  - destruct (getAsTupleType DestTy) as [TT|] eqn:HT; [|done].
    destruct (negb _).
    + destruct (TT !! _) as [Field|] eqn:HField; [|done].
      apply Hext, smaller_type. eapply getAsTupleType_size; [done|].
      by eapply list_elem_of_lookup_2.
    + destruct (getAsTupleType ETy); [|done].
      apply getTupleToTupleTypeConversionRank_ext. intros e f He Hf.
      by eapply Hext, smaller_element.
Qed.

Lemma getConversionRank_body_fuel rank :
  (forall e t, smaller E DestTy e t -> rank e t <> OutOfFuel) ->
  getConversionRank_body rank E DestTy <> OutOfFuel.
Proof.
  intros Hext. unfold getConversionRank_body.
  destruct (isDependentType DestTy); [done|].
  destruct (getType E) as [ETy|]; [|done].
  destruct (sameCanonicalType ETy DestTy); [done|].
  assert (Hauto : autoClosureRank rank E DestTy <> OutOfFuel).
  { apply autoClosureRank_fuel. intros t Ht. apply Hext, smaller_type, Ht. }
  destruct (asTupleExpr E) as [[SubExprs Names]|] eqn:HE.
  - assert (Hsub : tupleElements E = SubExprs) by (unfold tupleElements; now rewrite HE).
    destruct (isGroupingParen SubExprs Names).
    + destruct SubExprs as [|[Sub|] ?]; try done.
      apply Hext, smaller_expr. rewrite Hsub. by left.
    + destruct (getAsTupleType DestTy) as [TT|] eqn:HT; [|done].
      apply getTupleToTupleTypeConversionRank_fuel. intros e f He Hf.
      by eapply Hext, smaller_element.
  - destruct (getAsTupleType DestTy) as [TT|] eqn:HT; [|done].
    destruct (negb _).
    + destruct (TT !! _) as [Field|] eqn:HField; [|done].
      apply Hext, smaller_type. eapply getAsTupleType_size; [done|].
      by eapply list_elem_of_lookup_2.
    + destruct (getAsTupleType ETy); [|done].
      apply getTupleToTupleTypeConversionRank_fuel. intros e f He Hf.
      by eapply Hext, smaller_element.
Qed.
End Body_calls.

(** With more fuel than the size of its arguments, [getConversionRank] does
    not depend on the fuel, and the fuel does not run out. *)
Lemma getConversionRank_fuel_irrelevant (n m : nat) (E : Expr) (DestTy : TypeBase) :
  Expr_size E + TypeBase_size DestTy < n ->
  Expr_size E + TypeBase_size DestTy < m ->
  getConversionRank n E DestTy = getConversionRank m E DestTy.
Proof.
  revert m E DestTy. induction n as [|n IH]; intros m E DestTy Hn Hm; [lia|].
  destruct m as [|m]; [lia|]. simpl.
  apply getConversionRank_body_ext. intros e t Hlt. unfold smaller in Hlt.
  apply IH; lia.
Qed.

Lemma getConversionRank_fuel (n : nat) (E : Expr) (DestTy : TypeBase) :
  Expr_size E + TypeBase_size DestTy < n ->
  getConversionRank n E DestTy <> OutOfFuel.
Proof.
  revert E DestTy. induction n as [|n IH]; intros E DestTy Hn; [lia|]. simpl.
  apply getConversionRank_body_fuel. intros e t Hlt. unfold smaller in Hlt.
  apply IH; lia.
Qed.

(** [getRankOfConversionTo] always comes to a rank or a fatal stop. *)
Lemma getRankOfConversionTo_total (E : Expr) (DestTy : TypeBase) :
  getRankOfConversionTo E DestTy <> OutOfFuel.
Proof. apply getConversionRank_fuel. lia. Qed.

(** [getRankOfConversionTo] satisfies the recursive equation of the source:
    it is the body of [getConversionRank] calling itself. *)
Lemma getRankOfConversionTo_unfold (E : Expr) (DestTy : TypeBase) :
  getRankOfConversionTo E DestTy
  = getConversionRank_body getRankOfConversionTo E DestTy.
Proof.
  unfold getRankOfConversionTo at 1. simpl.
  apply getConversionRank_body_ext. intros e t Hlt. unfold smaller in Hlt.
  apply getConversionRank_fuel_irrelevant; lia.
Qed.

(** ** Tuple reconciliation: the named matching (lines 125-141) *)

Lemma findNamedInput_first IdentList DestName j0 j :
  IdentList !! j = Some DestName ->
  (forall j', j' < j -> IdentList !! j' <> Some DestName) ->
  findNamedInput IdentList DestName j0 = Z.of_nat (j0 + j).
Proof.
  revert j0 j. induction IdentList as [|Id rest IH]; intros j0 j Hj Hfirst; [done|].
  simpl. destruct j as [|j]; simpl in Hj.
  - injection Hj as ->. rewrite String.eqb_refl. f_equal. lia.
  - destruct (String.eqb Id DestName) eqn:Heq.
    + apply String.eqb_eq in Heq as ->. now destruct (Hfirst 0); [lia|].
    + rewrite (IH (S j0) j Hj); [f_equal; lia|].
      intros j' Hlt. apply (Hfirst (S j')). lia.
Qed.

Lemma findNamedInput_absent IdentList DestName j0 :
  DestName ∉ IdentList -> findNamedInput IdentList DestName j0 = (-1)%Z.
Proof.
  revert j0. induction IdentList as [|Id rest IH]; intros j0 Hnot; [done|].
  simpl. destruct (String.eqb Id DestName) eqn:Heq.
  - apply String.eqb_eq in Heq as ->. destruct Hnot. by left.
  - apply IH. intros Hin. apply Hnot. by right.
Qed.

Lemma findNamedInput_found IdentList DestName j0 :
  findNamedInput IdentList DestName j0 <> (-1)%Z ->
  exists j, findNamedInput IdentList DestName j0 = Z.of_nat (j0 + j)
            /\ IdentList !! j = Some DestName.
Proof.
  revert j0. induction IdentList as [|Id rest IH]; intros j0 Hfound; [done|].
  simpl in *. destruct (String.eqb Id DestName) eqn:Heq.
  - apply String.eqb_eq in Heq as ->. exists 0. split; [f_equal; lia|done].
  - destruct (IH (S j0) Hfound) as (j & -> & Hj). exists (S j).
    split; [f_equal; lia|done].
Qed.

Lemma namedSource_found IdentList f :
  namedSource IdentList f <> (-1)%Z ->
  exists j, namedSource IdentList f = Z.of_nat j
            /\ IdentList !! j = Some (Name f) /\ empty (Name f) = false.
Proof.
  unfold namedSource. destruct (empty (Name f)); [done|]. intros Hfound.
  destruct (findNamedInput_found _ _ _ Hfound) as (j & -> & Hj). by exists j.
Qed.

Section Named_matching.
Variable IdentList : list Identifier.

Lemma resolveNamed_step DestElt rest i B :
  resolveNamed IdentList (DestElt :: rest) i B
  = resolveNamed IdentList rest (S i)
      (if (namedSource IdentList DestElt =? -1)%Z then B
       else mkBookkeeping
              (<[Z.to_nat (namedSource IdentList DestElt) := true]> (UsedElements B))
              (<[i := namedSource IdentList DestElt]> (DestElementSources B))).
Proof.
  simpl. unfold namedSource. destruct (empty (Name DestElt)); [done|].
  by destruct (_ =? -1)%Z.
Qed.

Lemma resolveNamed_length Fields i B :
  length (UsedElements (resolveNamed IdentList Fields i B)) = length (UsedElements B)
  /\ length (DestElementSources (resolveNamed IdentList Fields i B))
     = length (DestElementSources B).
Proof.
  revert i B. induction Fields as [|f rest IH]; intros i B; [done|].
  rewrite resolveNamed_step. destruct (IH (S i)
    (if (namedSource IdentList f =? -1)%Z then B
     else mkBookkeeping
            (<[Z.to_nat (namedSource IdentList f) := true]> (UsedElements B))
            (<[i := namedSource IdentList f]> (DestElementSources B)))) as [-> ->].
  destruct (_ =? -1)%Z; simpl; by rewrite ?length_insert.
Qed.

(** Fields before [i] keep their source. *)
Lemma resolveNamed_before Fields i B k :
  k < i ->
  DestElementSources (resolveNamed IdentList Fields i B) !! k
  = DestElementSources B !! k.
Proof.
  revert i B. induction Fields as [|f rest IH]; intros i B Hk; [done|].
  rewrite resolveNamed_step, IH by lia.
  destruct (_ =? -1)%Z; [done|]. simpl. apply list_lookup_insert_ne. lia.
Qed.

(** A field from [i] on has the source its name gives it. *)
Lemma resolveNamed_source Fields i B k f :
  length (DestElementSources B) = i + length Fields ->
  (forall k', i <= k' -> k' < i + length Fields ->
              DestElementSources B !! k' = Some (-1)%Z) ->
  Fields !! k = Some f ->
  DestElementSources (resolveNamed IdentList Fields i B) !! (i + k)
  = Some (namedSource IdentList f).
Proof.
  revert i B k. induction Fields as [|f0 rest IH]; intros i B k Hlen Hfresh Hf; [done|].
  rewrite resolveNamed_step. simpl in Hlen. destruct k as [|k]; simpl in Hf.
  - injection Hf as ->. rewrite Nat.add_0_r, resolveNamed_before by lia.
    destruct (_ =? -1)%Z eqn:Heq.
    + apply Z.eqb_eq in Heq as ->. apply Hfresh; simpl; lia.
    + simpl. apply list_lookup_insert_eq. lia.
  - replace (i + S k) with (S i + k) by lia. apply IH; [| |done].
    + destruct (_ =? -1)%Z; simpl; rewrite ?length_insert; lia.
    + intros k' Hle Hlt. destruct (_ =? -1)%Z; simpl.
      * apply Hfresh; simpl; lia.
      * rewrite list_lookup_insert_ne by lia. apply Hfresh; simpl; lia.
Qed.

(** An input element is marked used when it was, or when it is the named
    source of one of the fields. *)
Lemma resolveNamed_used Fields i B j :
  UsedElements (resolveNamed IdentList Fields i B) !! j = Some true <->
  UsedElements B !! j = Some true
  \/ (j < length (UsedElements B)
      /\ exists f, f ∈ Fields /\ namedSource IdentList f = Z.of_nat j).
Proof.
  revert i B. induction Fields as [|f0 rest IH]; intros i B.
  - simpl. split; [by left|]. intros [H|(_ & f & Hf & _)]; [done|by inversion Hf].
  - rewrite resolveNamed_step, IH. destruct (_ =? -1)%Z eqn:Heq.
    + apply Z.eqb_eq in Heq. split.
      * intros [H|(Hj & f & Hf & Hsrc)]; [by left|]. right. split; [done|].
        exists f. split; [by right|done].
      * intros [H|(Hj & f & Hf & Hsrc)]; [by left|]. right. split; [done|].
        exists f. split; [|done]. apply elem_of_cons in Hf as [->|Hf]; [lia|done].
    + apply Z.eqb_neq in Heq. simpl. rewrite length_insert.
      destruct (namedSource_found _ _ Heq) as (j0 & Hj0 & _).
      rewrite list_lookup_insert_Some. split.
      * intros [[(? & ? & ?)|(? & ?)]|(Hj & f & Hf & Hsrc)].
        -- right. split; [lia|]. exists f0. split; [by left|]. lia.
        -- by left.
        -- right. split; [done|]. exists f. split; [by right|done].
      * intros [H|(Hj & f & Hf & Hsrc)].
        -- left. destruct (decide (Z.to_nat (namedSource IdentList f0) = j)).
           ++ left. split; [done|]. split; [done|]. by eapply lookup_lt_Some.
           ++ by right.
        -- apply elem_of_cons in Hf as [->|Hf].
           ++ left. left. split; [lia|]. split; [done|lia].
           ++ right. split; [done|]. by exists f.
Qed.
End Named_matching.

(** The named matching as lines 125-141 have it: a destination field with a
    non-empty name takes the first input element of that name, scanning from
    the left, and marks it used; the scan does not look at the used marks.  A
    field without a name, or without an input of its name, is left for the
    positional matching (its source stays [-1]).  Two destination fields that
    take the same input element have the same name. *)
Theorem resolveNamed_binds_first_of_name
    (IdentList : list Identifier) (DestTy : list (TupleTypeElt TypeBase))
    (i : nat) (f : TupleTypeElt TypeBase) :
  DestTy !! i = Some f ->
  let B := resolveNamed IdentList DestTy 0
             (initialBookkeeping (length IdentList) (length DestTy)) in
  (forall j, empty (Name f) = false ->
      IdentList !! j = Some (Name f) ->
      (forall j', j' < j -> IdentList !! j' <> Some (Name f)) ->
      DestElementSources B !! i = Some (Z.of_nat j)
      /\ UsedElements B !! j = Some true)
  /\ (empty (Name f) = true \/ Name f ∉ IdentList ->
      DestElementSources B !! i = Some (-1)%Z)
  /\ (forall i' f' s, DestTy !! i' = Some f' ->
      DestElementSources B !! i = Some s -> DestElementSources B !! i' = Some s ->
      s <> (-1)%Z -> Name f' = Name f).
Proof.
  intros Hf B.
  assert (Hsrc : forall k g, DestTy !! k = Some g ->
            DestElementSources B !! k = Some (namedSource IdentList g)).
  { intros k g Hg. subst B.
    apply (resolveNamed_source IdentList DestTy 0 _ k g); simpl; [|  |done].
    - by rewrite length_replicate.
    - intros k' _ Hk'. by apply lookup_replicate_2. }
  split; [|split].
  - intros j Hnamed Hj Hfirst.
    assert (Hns : namedSource IdentList f = Z.of_nat j).
    { unfold namedSource. rewrite Hnamed.
      by rewrite (findNamedInput_first _ _ 0 j Hj Hfirst). }
    split; [by rewrite (Hsrc i f Hf), Hns|].
    subst B. apply resolveNamed_used. right. simpl. rewrite length_replicate.
    split; [by eapply lookup_lt_Some|].
    exists f. split; [by eapply list_elem_of_lookup_2|done].
  - intros Hnone. rewrite (Hsrc i f Hf). f_equal. unfold namedSource.
    destruct Hnone as [->|Hnot]; [done|].
    destruct (empty (Name f)); [done|]. by apply findNamedInput_absent.
  - intros i' f' s Hf' Hs Hs' Hbound.
    rewrite (Hsrc i f Hf) in Hs. rewrite (Hsrc i' f' Hf') in Hs'.
    injection Hs as Hs. injection Hs' as Hs'.
    destruct (namedSource_found IdentList f) as (j & Hj & Hname & _); [congruence|].
    destruct (namedSource_found IdentList f') as (j' & Hj' & Hname' & _); [congruence|].
    assert (j = j') by lia. subst j'. congruence.
Qed.

(** The swizzle of the source's comment: [(.y = 4, .x = 3)] to
    [(.x = int, .y = int)]; the field [x] takes input 1. *)
Lemma resolveNamed_binds_first_of_name_witness :
  let B := resolveNamed ["y"; "x"] [field "x" Int; field "y" Int] 0
             (initialBookkeeping 2 2) in
  DestElementSources B !! 0 = Some 1%Z /\ UsedElements B !! 1 = Some true.
Proof.
  apply (proj1 (resolveNamed_binds_first_of_name ["y"; "x"]
                  [field "x" Int; field "y" Int] 0 (field "x" Int) eq_refl) 1).
  - reflexivity.
  - reflexivity.
  - intros [|j'] Hlt Heq; [simpl in Heq; discriminate Heq | lia].
Defined.

(** With two inputs and two fields of one name, both fields [x] take input 0,
    input 1 of the same name stays unused, and the conversion is invalid. *)
Lemma resolveNamed_shares_input :
  resolveNamed ["x"; "x"] [field "x" Int; field "x" IntProducer] 0
    (initialBookkeeping 2 2)
  = mkBookkeeping [true; false] [0%Z; 0%Z]
  /\ reconcileElements (Some (TupleType [field "x" Int; field "x" Int])) 2
       [field "x" Int; field "x" IntProducer]
     = Rec_Invalid.
Proof. split; reflexivity. Qed.

(** C2.  The named matching is to bind, for a destination field with a name,
    the first input element of that name that is not used yet, so that no
    input element is bound to two fields.  The loop of lines 132-136 marks the
    input element it binds as used (line 140) and never reads the marks, which
    the positional matching does (line 158).  For a variable [p] of type
    [(x : Int)] converted to [(x : Int, x : Int)], both fields take the one
    input element, the matching succeeds, and the conversion has the rank
    Identity: one value for two fields. *)
Theorem named_matching_binds_used_input :
  resolveNamed ["x"] [field "x" Int; field "x" Int] 0 (initialBookkeeping 1 2)
  = mkBookkeeping [true] [0%Z; 0%Z]
  /\ reconcileElements (Some (TupleType [field "x" Int])) 1
       [field "x" Int; field "x" Int]
     = Rec_Bound ["x"] (mkBookkeeping [true] [0%Z; 0%Z])
  /\ getRankOfConversionTo (DeclRefExpr (Some (TupleType [field "x" Int])) "p")
       (TupleType [field "x" Int; field "x" Int])
     = Ranked CR_Identity.
Proof. repeat split; vm_compute; reflexivity. Qed.

(** ** [getConversionRank]: exact matches and auto-closures *)

(** A dependent destination stops the engine at the assertion of line 246. *)
Lemma getRankOfConversionTo_dependent (E : Expr) (DestTy : TypeBase) :
  isDependentType DestTy = true -> getRankOfConversionTo E DestTy = Fatal.
Proof.
  intros Hdep. rewrite getRankOfConversionTo_unfold.
  unfold getConversionRank_body. by rewrite Hdep.
Qed.

(** C6.  An expression whose type has the canonical type of the destination
    converts with rank Identity; so does every expression to its own type.
    The destination is not a dependent type: that is the precondition the
    function asserts on entry (line 246). *)
Theorem rank_identity_on_same_canonical_type (E : Expr) (ETy DestTy : TypeBase) :
  getType E = Some ETy ->
  isDependentType DestTy = false ->
  getCanonicalType ETy = getCanonicalType DestTy ->
  getRankOfConversionTo E DestTy = Ranked CR_Identity.
Proof.
  intros HTy Hdep Hsame. rewrite getRankOfConversionTo_unfold.
  unfold getConversionRank_body. rewrite Hdep, HTy.
  apply sameCanonicalType_spec in Hsame. by rewrite Hsame.
Qed.

(** A literal whose type is spelled through an alias of [Int], to [Int]. *)
Lemma rank_identity_on_same_canonical_type_witness :
  getRankOfConversionTo (IntegerLiteral (Some (NameAliasType "int" Int)) "4") Int
  = Ranked CR_Identity.
Proof.
  apply (rank_identity_on_same_canonical_type _ (NameAliasType "int" Int) Int);
    reflexivity.
Defined.

Lemma getAsFunctionType_not_tuple (T In Res : TypeBase) :
  getAsFunctionType T = Some (In, Res) ->
  getAsTupleType T = None /\ isDependentType T = false.
Proof.
  unfold getAsFunctionType, getAsTupleType, isDependentType.
  by destruct (getDesugaredType T).
Qed.

(** C7.  For a destination that is a function type, with an expression of
    another canonical type that is not a grouping parenthesis (the tuple cases
    do not apply), the rank is Invalid when the rank of the conversion to the
    function's result type is Invalid, and AutoClosure when that is another
    rank; a fatal stop of the inner conversion stops the outer one. *)
Theorem rank_to_function_type (E : Expr) (ETy DestTy Input Result : TypeBase) :
  getType E = Some ETy ->
  getAsFunctionType DestTy = Some (Input, Result) ->
  getCanonicalType ETy <> getCanonicalType DestTy ->
  isGroupingParenExpr E = false ->
  getRankOfConversionTo E DestTy
  = match getRankOfConversionTo E Result with
    | Ranked CR_Invalid => Ranked CR_Invalid
    | Ranked _ => Ranked CR_AutoClosure
    | stop => stop
    end.
Proof.
  intros HTy HF Hdiff Hparen.
  destruct (getAsFunctionType_not_tuple _ _ _ HF) as [Htuple Hdep].
  rewrite (getRankOfConversionTo_unfold E DestTy).
  unfold getConversionRank_body. rewrite Hdep, HTy.
  destruct (sameCanonicalType ETy DestTy) eqn:Hsame;
    [by apply sameCanonicalType_spec in Hsame|].
  unfold isGroupingParenExpr in Hparen. rewrite Htuple.
  destruct (asTupleExpr E) as [[SubExprs Names]|]; rewrite ?Hparen;
    unfold autoClosureRank; by rewrite HF.
Qed.

(** A source of type [Int] against [() -> Int] ranks AutoClosure. *)
Lemma rank_to_function_type_witness :
  getRankOfConversionTo (literal "1") IntProducer = Ranked CR_AutoClosure.
Proof.
  rewrite (rank_to_function_type (literal "1") Int IntProducer (TupleType []) Int
             eq_refl eq_refl ltac:(discriminate) eq_refl).
  reflexivity.
Defined.

(** ** Tuple reconciliation: the positional matching (lines 146-180) *)

Section Positional_matching.
Variables (IdentList : list Identifier) (NumExprElements : nat).

Lemma scanUnmatched_first Used steps Next :
  Next + steps = NumExprElements ->
  scanUnmatched IdentList Used NumExprElements steps Next
  = hd NumExprElements (List.filter (isLeftOver IdentList Used) (seq Next steps)).
Proof.
  revert Next. induction steps as [|steps IH]; intros Next Hsum; simpl.
  - lia.
  - destruct (Nat.eqb_spec Next NumExprElements) as [?|_]; [lia|].
    fold (isLeftOver IdentList Used Next).
    destruct (isLeftOver IdentList Used Next); [done|]. apply IH. lia.
Qed.

Lemma filter_seq_cons (P : nat -> bool) steps Next j rest :
  List.filter P (seq Next steps) = j :: rest ->
  Next <= j < Next + steps /\ P j = true
  /\ List.filter P (seq (S j) (Next + steps - S j)) = rest.
Proof.
  revert Next. induction steps as [|steps IH]; intros Next; simpl; [done|].
  destruct (P Next) eqn:HP.
  - intros Heq. injection Heq as <- <-. split; [lia|]. split; [done|].
    f_equal. f_equal. lia.
  - intros Heq. destruct (IH _ Heq) as (Hr & HPj & Hrest).
    split; [lia|]. split; [done|]. rewrite <- Hrest. f_equal. f_equal. lia.
Qed.

Lemma leftOverInputs_cons Used Next j rest :
  Next <= NumExprElements ->
  leftOverInputs IdentList Used Next NumExprElements = j :: rest ->
  Next <= j < NumExprElements /\ isLeftOver IdentList Used j = true
  /\ leftOverInputs IdentList Used (S j) NumExprElements = rest.
Proof.
  intros Hle Heq. destruct (filter_seq_cons _ _ _ _ _ Heq) as (Hr & HP & Hrest).
  split; [lia|]. split; [done|]. unfold leftOverInputs. rewrite <- Hrest.
  f_equal. f_equal. lia.
Qed.

(** Taking input [j] removes it from the left-over inputs, and only it. *)
Lemma leftOverInputs_taken Used j :
  j < NumExprElements -> j < length Used ->
  leftOverInputs IdentList (<[j := true]> Used) j NumExprElements
  = leftOverInputs IdentList Used (S j) NumExprElements.
Proof.
  intros Hj Hlen. unfold leftOverInputs.
  replace (NumExprElements - j) with (S (NumExprElements - S j)) by lia. simpl.
  unfold isLeftOver at 1. rewrite list_lookup_insert_eq by done. simpl.
  apply filter_ext_in. intros k Hk. apply in_seq in Hk.
  unfold isLeftOver. rewrite list_lookup_insert_ne by lia. done.
Qed.

Lemma unresolvedFields_cons s Sources :
  unresolvedFields (s :: Sources)
  = if (s =? -1)%Z then S (unresolvedFields Sources) else unresolvedFields Sources.
Proof. unfold unresolvedFields. simpl. by destruct (s =? -1)%Z. Qed.

(** The loop of the source, with its cursor and its used marks, gives each
    unresolved field what [assignPositional] gives it. *)
Lemma resolveUnnamed_assign Fields i Next B :
  Next <= NumExprElements ->
  length (UsedElements B) = NumExprElements ->
  length (DestElementSources B) = i + length Fields ->
  resolveUnnamed IdentList NumExprElements Fields i Next B
  = (fun S =>
       mkBookkeeping
         (markUsed (take (unresolvedFields (drop i (DestElementSources B)))
                      (leftOverInputs IdentList (UsedElements B) Next NumExprElements))
            (UsedElements B))
         (take i (DestElementSources B) ++ S))
    <$> assignPositional Fields (drop i (DestElementSources B))
          (leftOverInputs IdentList (UsedElements B) Next NumExprElements).
Proof.
  revert i Next B. induction Fields as [|f rest IH]; intros i Next [Used DES];
    simpl; intros HNext HUsed HDES.
  - rewrite (drop_ge DES i), (take_ge DES i), app_nil_r by lia. done.
  - destruct (DES !! i) as [s|] eqn:Hs;
      [|apply lookup_ge_None in Hs; lia].
    rewrite (drop_S _ _ _ Hs), unresolvedFields_cons. simpl.
    destruct (s =? -1)%Z eqn:Hunres; simpl.
    + apply Z.eqb_eq in Hunres as ->.
      rewrite scanUnmatched_first by lia. fold (leftOverInputs IdentList Used Next NumExprElements).
      destruct (leftOverInputs IdentList Used Next NumExprElements)
        as [|j LeftOver] eqn:HLO; simpl.
      * rewrite Nat.eqb_refl. destruct (Init f); [|done].
        rewrite IH; simpl; rewrite ?length_insert; [|lia|done|lia].
        rewrite drop_insert_lt by lia.
        unfold leftOverInputs at 1 2. rewrite Nat.sub_diag. simpl.
        rewrite take_nil.
        rewrite (take_S_r (<[i := (-2)%Z]> DES) i (-2)%Z)
          by (apply list_lookup_insert_eq; lia).
        rewrite take_insert_ge by lia.
        destruct (assignPositional rest (drop (S i) DES) []); simpl; [|done].
        by rewrite <- app_assoc.
      * destruct (leftOverInputs_cons _ _ _ _ HNext HLO) as (Hj & Hfree & Hrest).
        destruct (Nat.eqb_spec j NumExprElements) as [?|_]; [lia|].
        rewrite IH; simpl; rewrite ?length_insert; [|lia|done|lia].
        rewrite drop_insert_lt by lia.
        rewrite leftOverInputs_taken, Hrest by lia.
        rewrite (take_S_r (<[i := Z.of_nat j]> DES) i (Z.of_nat j))
          by (apply list_lookup_insert_eq; lia).
        rewrite take_insert_ge by lia.
        destruct (assignPositional rest (drop (S i) DES) LeftOver); simpl; [|done].
        by rewrite <- app_assoc.
    + rewrite IH; simpl; [|lia|done|lia].
      rewrite (take_S_r DES i s Hs).
      destruct (assignPositional rest (drop (S i) DES) _); simpl; [|done].
      by rewrite <- app_assoc.
Qed.
End Positional_matching.

Lemma assignPositional_Some Fields Sources LeftOver S :
  length Sources = length Fields ->
  assignPositional Fields Sources LeftOver = Some S ->
  forall i f s, Fields !! i = Some f -> Sources !! i = Some s ->
    if negb (s =? -1)%Z then S !! i = Some s
    else match LeftOver !! unresolvedFields (take i Sources) with
         | Some j => S !! i = Some (Z.of_nat j)
         | None => Init f = true /\ S !! i = Some (-2)%Z
         end.
Proof.
  revert Sources LeftOver S.
  induction Fields as [|f0 rest IH]; intros [|s0 Sources] LeftOver S Hlen Hassign
    i f s Hf Hs; try done.
  simpl in Hlen, Hassign. injection Hlen as Hlen.
  destruct (s0 =? -1)%Z eqn:Hs0; simpl in Hassign.
  - destruct LeftOver as [|j LeftOver].
    + destruct (Init f0) eqn:HInit; [|done].
      destruct (assignPositional rest Sources []) as [S'|] eqn:HS'; [|done].
      injection Hassign as <-. destruct i as [|i]; simpl in *.
      * injection Hf as <-. injection Hs as <-. by rewrite Hs0.
      * specialize (IH _ _ _ Hlen HS' i f s Hf Hs).
        destruct (negb (s =? -1)%Z); [done|].
        by rewrite lookup_nil in *.
    + destruct (assignPositional rest Sources LeftOver) as [S'|] eqn:HS'; [|done].
      injection Hassign as <-. destruct i as [|i]; simpl in *.
      * injection Hf as <-. injection Hs as <-. by rewrite Hs0.
      * specialize (IH _ _ _ Hlen HS' i f s Hf Hs).
        destruct (negb (s =? -1)%Z); [done|].
        by rewrite unresolvedFields_cons, Hs0.
  - destruct (assignPositional rest Sources LeftOver) as [S'|] eqn:HS'; [|done].
    injection Hassign as <-. destruct i as [|i]; simpl in *.
    + injection Hf as <-. injection Hs as <-. by rewrite Hs0.
    + specialize (IH _ _ _ Hlen HS' i f s Hf Hs).
      destruct (negb (s =? -1)%Z); [done|].
      by rewrite unresolvedFields_cons, Hs0.
Qed.

Lemma assignPositional_None Fields Sources LeftOver :
  length Sources = length Fields ->
  assignPositional Fields Sources LeftOver = None ->
  exists i f, Fields !! i = Some f /\ Sources !! i = Some (-1)%Z
              /\ LeftOver !! unresolvedFields (take i Sources) = None
              /\ Init f = false.
Proof.
  revert Sources LeftOver.
  induction Fields as [|f0 rest IH]; intros [|s0 Sources] LeftOver Hlen Hassign;
    try done.
  simpl in Hlen, Hassign. injection Hlen as Hlen.
  destruct (s0 =? -1)%Z eqn:Hs0; simpl in Hassign.
  - apply Z.eqb_eq in Hs0 as ->. destruct LeftOver as [|j LeftOver].
    + destruct (Init f0) eqn:HInit; [|by exists 0, f0].
      destruct (assignPositional rest Sources []) as [S'|] eqn:HS'; [done|].
      destruct (IH _ _ Hlen HS') as (i & f & Hf & Hs & HLO & HInit').
      exists (S i), f. by rewrite lookup_nil.
    + destruct (assignPositional rest Sources LeftOver) as [S'|] eqn:HS'; [done|].
      destruct (IH _ _ Hlen HS') as (i & f & Hf & Hs & HLO & HInit').
      exists (S i), f. simpl. by unfold unresolvedFields in *.
  - destruct (assignPositional rest Sources LeftOver) as [S'|] eqn:HS'; [done|].
    destruct (IH _ _ Hlen HS') as (i & f & Hf & Hs & HLO & HInit').
    exists (S i), f. simpl. by rewrite unresolvedFields_cons, Hs0.
Qed.

Lemma markUsed_length Inputs Used : length (markUsed Inputs Used) = length Used.
Proof.
  revert Used. induction Inputs as [|j Inputs IH]; intros Used; [done|].
  simpl. by rewrite IH, length_insert.
Qed.

Lemma markUsed_lookup Inputs Used j :
  markUsed Inputs Used !! j = Some true <->
  Used !! j = Some true \/ (j ∈ Inputs /\ j < length Used).
Proof.
  revert Used. induction Inputs as [|j0 Inputs IH]; intros Used; simpl.
  - split; [by left|]. intros [H|[H _]]; [done|by inversion H].
  - rewrite IH, length_insert, list_lookup_insert_Some, elem_of_cons.
    split.
    + intros [[(-> & _ & Hlt)|(_ & H)]|(Hin & Hlt)]; auto.
    + intros [H|([->|Hin] & Hlt)]; auto.
      destruct (decide (j0 = j)) as [->|Hne]; [|auto].
      left. left. split; [done|]. split; [done|]. by eapply lookup_lt_Some.
Qed.

Lemma leftOverInputs_range IdentList Used Next Num j :
  j ∈ leftOverInputs IdentList Used Next Num -> Next <= j < Num.
Proof.
  unfold leftOverInputs. rewrite list_elem_of_In, filter_In, in_seq. lia.
Qed.

Lemma unresolvedFields_take_le Sources i :
  unresolvedFields (take i Sources) <= unresolvedFields Sources.
Proof.
  revert i. induction Sources as [|s Sources IH]; intros [|i]; simpl; try done.
  - unfold unresolvedFields. simpl. lia.
  - rewrite !unresolvedFields_cons. specialize (IH i). destruct (s =? -1)%Z; lia.
Qed.

Lemma unresolvedFields_take_lt Sources i :
  Sources !! i = Some (-1)%Z ->
  unresolvedFields (take i Sources) < unresolvedFields Sources.
Proof.
  revert i. induction Sources as [|s Sources IH]; intros [|i] Hs; simpl in *; try done.
  - injection Hs as ->. rewrite unresolvedFields_cons. simpl.
    unfold unresolvedFields. simpl. lia.
  - rewrite !unresolvedFields_cons. specialize (IH i Hs). destruct (s =? -1)%Z; lia.
Qed.

(** The [k]-th unresolved field. *)
Lemma unresolvedFields_nth Sources k :
  k < unresolvedFields Sources ->
  exists i, Sources !! i = Some (-1)%Z /\ unresolvedFields (take i Sources) = k.
Proof.
  revert k. induction Sources as [|s Sources IH]; intros k Hk.
  - unfold unresolvedFields in Hk. simpl in Hk. lia.
  - rewrite unresolvedFields_cons in Hk. destruct (s =? -1)%Z eqn:Hs.
    + apply Z.eqb_eq in Hs as ->. destruct k as [|k]; [by exists 0|].
      destruct (IH k) as (i & Hi & Hcount); [lia|].
      exists (S i). simpl. rewrite unresolvedFields_cons. simpl. by rewrite Hcount.
    + destruct (IH k Hk) as (i & Hi & Hcount).
      exists (S i). simpl. by rewrite unresolvedFields_cons, Hs.
Qed.

(** What the positional matching gives each field. *)
Lemma resolveUnnamed_sources
    (IdentList : list Identifier) (NumExprElements : nat)
    (DestTy : list (TupleTypeElt TypeBase)) (B : Bookkeeping) :
  length (UsedElements B) = NumExprElements ->
  length (DestElementSources B) = length DestTy ->
  let LeftOver := leftOverInputs IdentList (UsedElements B) 0 NumExprElements in
  let before i := unresolvedFields (take i (DestElementSources B)) in
  match resolveUnnamed IdentList NumExprElements DestTy 0 0 B with
  | Some B' =>
      forall i f s, DestTy !! i = Some f -> DestElementSources B !! i = Some s ->
        if negb (s =? -1)%Z then DestElementSources B' !! i = Some s
        else match LeftOver !! before i with
             | Some j => DestElementSources B' !! i = Some (Z.of_nat j)
                         /\ UsedElements B' !! j = Some true
             | None => Init f = true /\ DestElementSources B' !! i = Some (-2)%Z
             end
  | None =>
      exists i f, DestTy !! i = Some f /\ DestElementSources B !! i = Some (-1)%Z
                  /\ LeftOver !! before i = None /\ Init f = false
  end.
Proof.
  intros HUsed HDES LeftOver before.
  rewrite resolveUnnamed_assign by (done || lia). simpl.
  rewrite drop_0. fold LeftOver.
  destruct (assignPositional DestTy (DestElementSources B) LeftOver) as [S|] eqn:HS;
    simpl.
  - intros i f s Hf Hs.
    pose proof (assignPositional_Some _ _ _ _ HDES HS i f s Hf Hs) as Hi.
    destruct (negb (s =? -1)%Z) eqn:Hres; [done|].
    fold (before i) in Hi.
    destruct (LeftOver !! before i) as [j|] eqn:Hj; [|done].
    split; [done|]. apply markUsed_lookup. right.
    apply negb_false_iff, Z.eqb_eq in Hres as ->.
    pose proof (unresolvedFields_take_lt _ _ Hs) as Hlt.
    split.
    + apply list_elem_of_lookup. exists (before i).
      rewrite lookup_take_lt by done. done.
    + apply list_elem_of_lookup_2, leftOverInputs_range in Hj. lia.
  - by apply assignPositional_None.
Qed.

(** C3.  In the positional matching a field that has a source keeps it.  The
    fields without one take, from left to right, the input elements that are
    unused and unnamed, in their order: the field with [k] unresolved fields
    before it takes the [k]-th of these inputs, which is marked used.  When
    the inputs are exhausted, the field takes its default value ([-2]) if it
    has one; the matching fails exactly when an unresolved field finds the
    inputs exhausted and has no default value, and the rank is then Invalid,
    as for [(1, 2)] to [(Int, Int, Int)]. *)
Theorem resolveUnnamed_positional :
  (forall (IdentList : list Identifier) (NumExprElements : nat)
          (DestTy : list (TupleTypeElt TypeBase)) (B : Bookkeeping),
      length (UsedElements B) = NumExprElements ->
      length (DestElementSources B) = length DestTy ->
      let LeftOver := leftOverInputs IdentList (UsedElements B) 0 NumExprElements in
      let before i := unresolvedFields (take i (DestElementSources B)) in
      match resolveUnnamed IdentList NumExprElements DestTy 0 0 B with
      | Some B' =>
          forall i f s, DestTy !! i = Some f -> DestElementSources B !! i = Some s ->
            if negb (s =? -1)%Z then DestElementSources B' !! i = Some s
            else match LeftOver !! before i with
                 | Some j => DestElementSources B' !! i = Some (Z.of_nat j)
                             /\ UsedElements B' !! j = Some true
                 | None => Init f = true /\ DestElementSources B' !! i = Some (-2)%Z
                 end
      | None =>
          exists i f, DestTy !! i = Some f /\ DestElementSources B !! i = Some (-1)%Z
                      /\ LeftOver !! before i = None /\ Init f = false
      end)
  /\ (forall (rank : Expr -> TypeBase -> Outcome) (E : Expr) (T : TypeBase)
             (NumExprElements : nat) (DestTy : list (TupleTypeElt TypeBase))
             (IdentList : list Identifier) (B : Bookkeeping),
      getType E = Some T ->
      namedMatching T NumExprElements DestTy = Some (IdentList, B) ->
      resolveUnnamed IdentList NumExprElements DestTy 0 0 B = None ->
      getTupleToTupleTypeConversionRank rank E NumExprElements DestTy
      = Ranked CR_Invalid)
  /\ getRankOfConversionTo pair_1_2
       (TupleType [field "" Int; field "" Int; field "" Int])
     = Ranked CR_Invalid.
Proof.
  split; [|split; [|reflexivity]].
  - intros IdentList NumExprElements DestTy B HUsed HDES.
    by apply resolveUnnamed_sources.
  - intros rank E T NumExprElements DestTy IdentList B HT Hnamed Hfail.
    unfold getTupleToTupleTypeConversionRank, reconcileElements.
    by rewrite HT, Hnamed, Hfail.
Qed.

(** [(5)] with a second field that has a default value: to the fields
    [(a, b = default)] the one input goes to [a], and [b] takes its default. *)
Lemma resolveUnnamed_positional_witness :
  exists B',
    resolveUnnamed [""] 1 [field "a" Int; fieldWithDefault "b" Int] 0 0
      (initialBookkeeping 1 2) = Some B'
    /\ (DestElementSources B' !! 0 = Some 0%Z /\ UsedElements B' !! 0 = Some true)
    /\ (true = true /\ DestElementSources B' !! 1 = Some (-2)%Z).
Proof.
  pose proof (proj1 resolveUnnamed_positional [""] 1
                [field "a" Int; fieldWithDefault "b" Int]
                (initialBookkeeping 1 2) eq_refl eq_refl) as H.
  cbv zeta in H.
  change (resolveUnnamed [""] 1 [field "a" Int; fieldWithDefault "b" Int] 0 0
            (initialBookkeeping 1 2))
    with (Some (mkBookkeeping [true] [0%Z; (-2)%Z])) in H.
  exists (mkBookkeeping [true] [0%Z; (-2)%Z]). split; [reflexivity|]. split.
  - exact (H 0 (field "a" Int) (-1)%Z eq_refl eq_refl).
  - exact (H 1 (fieldWithDefault "b" Int) (-1)%Z eq_refl eq_refl).
Defined.

(** ** Tuple reconciliation: what a successful matching has bound *)

Lemma initialBookkeeping_wellFormed NumExprElements NumFields :
  wellFormed NumExprElements NumFields
    (initialBookkeeping NumExprElements NumFields).
Proof.
  unfold wellFormed, initialBookkeeping. simpl. rewrite !length_replicate.
  split; [done|]. split; [done|]. split.
  - intros i s Hs. apply lookup_replicate in Hs as [-> _]. by left.
  - intros j Hj. by apply lookup_replicate in Hj as [? _].
Qed.

Lemma resolveNamed_wellFormed IdentList DestTy :
  wellFormed (length IdentList) (length DestTy)
    (resolveNamed IdentList DestTy 0
       (initialBookkeeping (length IdentList) (length DestTy))).
Proof.
  set (B0 := initialBookkeeping (length IdentList) (length DestTy)).
  assert (Hsrc : forall k g, DestTy !! k = Some g ->
            DestElementSources (resolveNamed IdentList DestTy 0 B0) !! k
            = Some (namedSource IdentList g)).
  { intros k g Hg.
    apply (resolveNamed_source IdentList DestTy 0 _ k g); simpl; [| |done].
    - by rewrite length_replicate.
    - intros k' _ Hk'. by apply lookup_replicate_2. }
  destruct (resolveNamed_length IdentList DestTy 0 B0) as [HU HD].
  unfold wellFormed. rewrite HU, HD. simpl. rewrite !length_replicate.
  split; [done|]. split; [done|]. split.
  - intros i s Hs.
    destruct (DestTy !! i) as [g|] eqn:Hg.
    + rewrite (Hsrc i g Hg) in Hs. injection Hs as <-.
      destruct (decide (namedSource IdentList g = (-1)%Z)) as [|Hfound]; [by left|].
      destruct (namedSource_found _ _ Hfound) as (j & -> & Hj & _).
      apply lookup_lt_Some in Hj. right. lia.
    + apply lookup_ge_None in Hg. apply lookup_lt_Some in Hs.
      rewrite HD in Hs. simpl in Hs. rewrite length_replicate in Hs. lia.
  - intros j Hj. apply resolveNamed_used in Hj as [Hj|(_ & g & Hg & Hsrcg)].
    + simpl in Hj. by apply lookup_replicate in Hj as [? _].
    + apply list_elem_of_lookup in Hg as [k Hk]. exists k.
      by rewrite (Hsrc k g Hk), Hsrcg.
Qed.

Lemma assignPositional_length Fields Sources LeftOver S :
  length Sources = length Fields ->
  assignPositional Fields Sources LeftOver = Some S ->
  length S = length Fields.
Proof.
  revert Sources LeftOver S.
  induction Fields as [|f0 rest IH]; intros [|s0 Sources] LeftOver S Hlen Hassign;
    try done; simpl in *.
  - by injection Hassign as <-.
  - injection Hlen as Hlen. destruct (negb (s0 =? -1)%Z).
    + destruct (assignPositional rest Sources LeftOver) as [S'|] eqn:HS'; [|done].
      injection Hassign as <-. simpl. f_equal. by eapply IH.
    + destruct LeftOver as [|j LeftOver].
      * destruct (Init f0); [|done].
        destruct (assignPositional rest Sources []) as [S'|] eqn:HS'; [|done].
        injection Hassign as <-. simpl. f_equal. by eapply IH.
      * destruct (assignPositional rest Sources LeftOver) as [S'|] eqn:HS'; [|done].
        injection Hassign as <-. simpl. f_equal. by eapply IH.
Qed.

(** After the positional matching every field has a source, an input element
    or its default value. *)
Lemma resolveUnnamed_wellFormed IdentList NumExprElements DestTy B B' :
  wellFormed NumExprElements (length DestTy) B ->
  resolveUnnamed IdentList NumExprElements DestTy 0 0 B = Some B' ->
  length (UsedElements B') = NumExprElements
  /\ length (DestElementSources B') = length DestTy
  /\ (forall i f, DestTy !! i = Some f ->
        exists s, DestElementSources B' !! i = Some s
                  /\ ((s = (-2)%Z /\ Init f = true)
                      \/ (0 <= s < Z.of_nat NumExprElements)%Z))
  /\ (forall j, UsedElements B' !! j = Some true ->
                exists i, DestElementSources B' !! i = Some (Z.of_nat j)).
Proof.
  intros (HUsed & HDES & Hrange & Hbound).
  rewrite resolveUnnamed_assign by (done || lia). simpl. rewrite drop_0.
  set (LeftOver := leftOverInputs IdentList (UsedElements B) 0 NumExprElements).
  destruct (assignPositional DestTy (DestElementSources B) LeftOver) as [S|] eqn:HS;
    [|done].
  simpl. intros HB'. injection HB' as <-. simpl.
  assert (Hfield : forall i f s, DestTy !! i = Some f ->
            DestElementSources B !! i = Some s ->
            if negb (s =? -1)%Z then S !! i = Some s
            else match LeftOver !! unresolvedFields (take i (DestElementSources B)) with
                 | Some j => S !! i = Some (Z.of_nat j)
                 | None => Init f = true /\ S !! i = Some (-2)%Z
                 end)
    by (by apply assignPositional_Some).
  split; [by rewrite markUsed_length|].
  split; [by eapply assignPositional_length|].
  split.
  - intros i f Hf.
    destruct (DestElementSources B !! i) as [s|] eqn:Hs;
      [|apply lookup_ge_None in Hs; apply lookup_lt_Some in Hf; lia].
    specialize (Hfield i f s Hf Hs).
    destruct (s =? -1)%Z eqn:Hres; simpl in Hfield;
      [apply Z.eqb_eq in Hres as ->|apply Z.eqb_neq in Hres].
    + destruct (LeftOver !! _) as [j|] eqn:Hj.
      * exists (Z.of_nat j). split; [done|]. right.
        apply list_elem_of_lookup_2, leftOverInputs_range in Hj. lia.
      * exists (-2)%Z. split; [apply Hfield|]. left. split; [done|apply Hfield].
    + exists s. split; [done|]. right. destruct (Hrange i s Hs); [done|lia].
  - intros j Hj. apply markUsed_lookup in Hj as [Hj|[Hj Hlt]].
    + destruct (Hbound j Hj) as [i Hi]. exists i.
      destruct (DestTy !! i) as [f|] eqn:Hf;
        [|apply lookup_ge_None in Hf; apply lookup_lt_Some in Hi; lia].
      specialize (Hfield i f _ Hf Hi).
      destruct (Z.of_nat j =? -1)%Z eqn:Hres; [apply Z.eqb_eq in Hres; lia|done].
    + apply list_elem_of_lookup in Hj as [k Hk].
      apply lookup_take_Some in Hk as [Hk Hlt'].
      destruct (unresolvedFields_nth _ _ Hlt') as (i & Hi & Hcount).
      exists i.
      destruct (DestTy !! i) as [f|] eqn:Hf;
        [|apply lookup_ge_None in Hf; apply lookup_lt_Some in Hi; lia].
      specialize (Hfield i f _ Hf Hi). simpl in Hfield.
      by rewrite Hcount, Hk in Hfield.
Qed.

Lemma anyUnused_false Used j :
  anyUnused Used = false -> j < length Used -> Used !! j = Some true.
Proof.
  unfold anyUnused. revert j. induction Used as [|u Used IH]; intros j; simpl; [lia|].
  rewrite orb_false_iff. intros [Hu HUsed] Hj. destruct j as [|j]; simpl.
  - by destruct u.
  - apply IH; [done|lia].
Qed.

(** What [reconcileElements] has established when it succeeds. *)
Lemma namedMatching_wellFormed T NumExprElements DestTy IdentList B :
  namedMatching T NumExprElements DestTy = Some (IdentList, B) ->
  wellFormed NumExprElements (length DestTy) B.
Proof.
  unfold namedMatching. destruct (getAsTupleType T) as [EFields|].
  - destruct (Nat.eqb_spec (length EFields) NumExprElements) as [<-|]; [|done].
    intros Heq. injection Heq as <- <-.
    pose proof (resolveNamed_wellFormed (Name <$> EFields) DestTy) as H.
    by rewrite length_fmap in H.
  - intros Heq. injection Heq as <- <-. apply initialBookkeeping_wellFormed.
Qed.

Lemma reconcileElements_bound ETy NumExprElements DestTy IdentList B :
  reconcileElements ETy NumExprElements DestTy = Rec_Bound IdentList B ->
  length (UsedElements B) = NumExprElements
  /\ length (DestElementSources B) = length DestTy
  /\ (forall j, j < NumExprElements -> UsedElements B !! j = Some true)
  /\ (forall i f, DestTy !! i = Some f ->
        exists s, DestElementSources B !! i = Some s
                  /\ ((s = (-2)%Z /\ Init f = true)
                      \/ (0 <= s < Z.of_nat NumExprElements)%Z))
  /\ (forall j, j < NumExprElements ->
        exists i, DestElementSources B !! i = Some (Z.of_nat j)).
Proof.
  unfold reconcileElements. destruct ETy as [T|]; [|done].
  destruct (namedMatching T NumExprElements DestTy) as [[IL B1]|] eqn:Hnamed;
    [|done].
  apply namedMatching_wellFormed in Hnamed.
  destruct (resolveUnnamed IL NumExprElements DestTy 0 0 B1) as [B2|] eqn:HB2; [|done].
  destruct (anyUnused (UsedElements B2)) eqn:Hunused; [done|].
  intros Heq. injection Heq as <- <-.
  destruct (resolveUnnamed_wellFormed _ _ _ _ _ Hnamed HB2)
    as (HU & HD & Hfields & Hbound).
  split; [done|]. split; [done|].
  assert (Hall : forall j, j < NumExprElements -> UsedElements B2 !! j = Some true).
  { intros j Hj. apply anyUnused_false; [done|lia]. }
  split; [done|]. split; [done|].
  intros j Hj. apply Hbound, Hall, Hj.
Qed.

(** C4.  When [getTupleToTupleTypeConversionRank] gives a rank other than
    Invalid, the matching has succeeded with every input element used, and
    the source of some destination field, and with every destination field
    provided for, by an input element or by its default value (which it then
    has).  Extra arguments make the result Invalid, as for [(1, 2)] to
    [(Int)]. *)
Theorem reconciliation_success_is_exhaustive :
  (forall (rank : Expr -> TypeBase -> Outcome) (E : Expr) (NumExprElements : nat)
          (DestTy : list (TupleTypeElt TypeBase)) (R : ConversionRank),
      getTupleToTupleTypeConversionRank rank E NumExprElements DestTy = Ranked R ->
      R <> CR_Invalid ->
      exists IdentList B,
        reconcileElements (getType E) NumExprElements DestTy = Rec_Bound IdentList B
        /\ (forall j, j < NumExprElements ->
              UsedElements B !! j = Some true
              /\ exists i, DestElementSources B !! i = Some (Z.of_nat j))
        /\ (forall i f, DestTy !! i = Some f ->
              exists s, DestElementSources B !! i = Some s
                        /\ ((s = (-2)%Z /\ Init f = true)
                            \/ (0 <= s < Z.of_nat NumExprElements)%Z)))
  /\ getRankOfConversionTo pair_1_2 (TupleType [field "" Int]) = Ranked CR_Invalid.
Proof.
  split; [|reflexivity].
  intros rank E NumExprElements DestTy R Hrank Hvalid.
  unfold getTupleToTupleTypeConversionRank in Hrank.
  destruct (reconcileElements (getType E) NumExprElements DestTy)
    as [| |IdentList B] eqn:Hrec; [done|congruence|].
  exists IdentList, B. split; [done|].
  destruct (reconcileElements_bound _ _ _ _ _ Hrec)
    as (_ & _ & Hused & Hfields & Hbound).
  split; [|done]. intros j Hj. split; [by apply Hused|by apply Hbound].
Qed.

Lemma reconciliation_success_is_exhaustive_witness :
  exists IdentList B,
    reconcileElements (getType swizzle_4_3) 2 [field "x" Int; field "y" Int]
    = Rec_Bound IdentList B
    /\ (forall j, j < 2 ->
          UsedElements B !! j = Some true
          /\ exists i, DestElementSources B !! i = Some (Z.of_nat j))
    /\ (forall i f, [field "x" Int; field "y" Int] !! i = Some f ->
          exists s, DestElementSources B !! i = Some s
                    /\ ((s = (-2)%Z /\ Init f = true)
                        \/ (0 <= s < Z.of_nat 2)%Z)).
Proof.
  apply (proj1 reconciliation_success_is_exhaustive getRankOfConversionTo
           swizzle_4_3 2 [field "x" Int; field "y" Int] CR_Identity).
  - reflexivity.
  - discriminate.
Defined.

(** ** Tuple reconciliation: the rank of a permutation (lines 216-235) *)

Lemma structuralRank_cases EFields Sources Fields i :
  (forall k f, Fields !! k = Some f ->
     exists s, Sources !! (i + k) = Some s
               /\ (s = (-2)%Z \/ (0 <= s < Z.of_nat (length EFields))%Z)) ->
  (structuralRank (Some EFields) Sources Fields i = Ranked CR_Identity
   /\ forall k f s, Fields !! k = Some f -> Sources !! (i + k) = Some s ->
        s <> (-2)%Z ->
        exists g, EFields !! Z.to_nat s = Some g
                  /\ sameCanonicalType (EltTy g) (EltTy f) = true)
  \/ (structuralRank (Some EFields) Sources Fields i = Ranked CR_Invalid
      /\ exists k f s g, Fields !! k = Some f /\ Sources !! (i + k) = Some s
           /\ s <> (-2)%Z /\ EFields !! Z.to_nat s = Some g
           /\ sameCanonicalType (EltTy g) (EltTy f) = false).
Proof.
  revert i. induction Fields as [|f0 rest IH]; intros i Hvalid.
  - left. split; [done|]. intros k f s Hf. by rewrite lookup_nil in Hf.
  - destruct (Hvalid 0 f0 eq_refl) as (s0 & Hs0 & Hrange0).
    rewrite Nat.add_0_r in Hs0.
    assert (Hrest : forall k f, rest !! k = Some f ->
              exists s, Sources !! (S i + k) = Some s
                        /\ (s = (-2)%Z \/ (0 <= s < Z.of_nat (length EFields))%Z)).
    { intros k f Hf. destruct (Hvalid (S k) f Hf) as (s & Hs & Hr).
      exists s. split; [|done]. rewrite <- Hs. f_equal. lia. }
    specialize (IH (S i) Hrest). simpl. rewrite Hs0. simpl.
    destruct (s0 =? -1)%Z eqn:Hm1; [apply Z.eqb_eq in Hm1; lia|].
    assert (Hshift : forall k, Sources !! (i + S k) = Sources !! (S i + k))
      by (intros k; f_equal; lia).
    destruct (s0 =? -2)%Z eqn:Hm2.
    + apply Z.eqb_eq in Hm2 as ->.
      destruct IH as [[-> Hall]|[-> (k & f & s & g & Hf & Hs & Hne & Hg & Hdiff)]].
      * left. split; [done|]. intros [|k] f s Hf Hs Hne; simpl in Hf.
        -- rewrite Nat.add_0_r in Hs. congruence.
        -- rewrite Hshift in Hs. by eapply Hall.
      * right. split; [done|]. exists (S k), f, s, g. by rewrite Hshift.
    + apply Z.eqb_neq in Hm2.
      destruct (EFields !! Z.to_nat s0) as [g0|] eqn:Hg0;
        [|apply lookup_ge_None in Hg0; lia].
      destruct (sameCanonicalType (EltTy g0) (EltTy f0)) eqn:Hsame.
      * destruct IH as [[-> Hall]|[-> (k & f & s & g & Hf & Hs & Hne & Hg & Hdiff)]].
        -- left. split; [done|]. intros [|k] f s Hf Hs Hne; simpl in Hf.
           ++ rewrite Nat.add_0_r in Hs. injection Hf as <-.
              assert (s = s0) by congruence. subst s. by exists g0.
           ++ rewrite Hshift in Hs. by eapply Hall.
        -- right. split; [done|]. exists (S k), f, s, g. by rewrite Hshift.
      * right. split; [done|]. exists 0, f0, s0, g0. by rewrite Nat.add_0_r.
Qed.

Lemma reconcileElements_tuple_size T NumExprElements DestTy EFields IdentList B :
  getAsTupleType T = Some EFields ->
  reconcileElements (Some T) NumExprElements DestTy = Rec_Bound IdentList B ->
  length EFields = NumExprElements.
Proof.
  unfold reconcileElements, namedMatching. intros ->.
  by destruct (Nat.eqb_spec (length EFields) NumExprElements).
Qed.

(** C5.  In the structural mode (the expression is not converted in place,
    its type is a tuple type, and the matching has succeeded) the rank is
    Identity when every destination field bound to an input element has, up
    to canonical types, the type of that element of the expression's type,
    and Invalid when some bound pair differs.  The rank of conversion of the
    elements plays no part: the result is the same for every [rank]. *)
Theorem structural_mode_rank
    (rank : Expr -> TypeBase -> Outcome) (E : Expr) (NumExprElements : nat)
    (DestTy : list (TupleTypeElt TypeBase))
    (T : TypeBase) (EFields : list (TupleTypeElt TypeBase))
    (IdentList : list Identifier) (B : Bookkeeping) :
  getType E = Some T ->
  getAsTupleType T = Some EFields ->
  convertsInPlace E DestTy = false ->
  reconcileElements (getType E) NumExprElements DestTy = Rec_Bound IdentList B ->
  let matching :=
    forall i f s, DestTy !! i = Some f -> DestElementSources B !! i = Some s ->
      s <> (-2)%Z ->
      exists g, EFields !! Z.to_nat s = Some g
                /\ getCanonicalType (EltTy g) = getCanonicalType (EltTy f) in
  (matching ->
   getTupleToTupleTypeConversionRank rank E NumExprElements DestTy
   = Ranked CR_Identity)
  /\ (~ matching ->
      getTupleToTupleTypeConversionRank rank E NumExprElements DestTy
      = Ranked CR_Invalid)
  /\ (forall rank',
      getTupleToTupleTypeConversionRank rank' E NumExprElements DestTy
      = getTupleToTupleTypeConversionRank rank E NumExprElements DestTy).
Proof.
  intros HT HE Hplace Hrec matching.
  assert (Hstruct : forall r,
            getTupleToTupleTypeConversionRank r E NumExprElements DestTy
            = structuralRank (Some EFields) (DestElementSources B) DestTy 0).
  { intros r. unfold getTupleToTupleTypeConversionRank.
    rewrite Hrec, Hplace, HT. simpl. by rewrite HE. }
  rewrite HT in Hrec.
  pose proof (reconcileElements_tuple_size _ _ _ _ _ _ HE Hrec) as Hsize.
  destruct (reconcileElements_bound _ _ _ _ _ Hrec) as (_ & _ & _ & Hfields & _).
  destruct (structuralRank_cases EFields (DestElementSources B) DestTy 0)
    as [[Hid Hall]|[Hinv (k & f & s & g & Hf & Hs & Hne & Hg & Hdiff)]].
  { intros k f Hf. destruct (Hfields k f Hf) as (s & Hs & Hr).
    exists s. split; [done|]. rewrite Hsize. tauto. }
  - split; [|split].
    + intros _. by rewrite Hstruct.
    + intros Hnot. destruct Hnot. intros i f s Hf Hs Hne.
      destruct (Hall i f s Hf Hs Hne) as (g & Hg & Hsame).
      exists g. split; [done|]. by apply sameCanonicalType_spec.
    + intros rank'. by rewrite !Hstruct.
  - split; [|split].
    + intros Hmatch. destruct (Hmatch k f s Hf Hs Hne) as (g' & Hg' & Hsame).
      apply sameCanonicalType_spec in Hsame. congruence.
    + intros _. by rewrite Hstruct.
    + intros rank'. by rewrite !Hstruct.
Qed.

(** A value of type [(x : Int, y : Int)] to the type [(y : Int, x : Int)]: a
    permutation, of rank Identity. *)
Lemma structural_mode_rank_witness :
  getTupleToTupleTypeConversionRank getRankOfConversionTo point_variable 2
    [field "y" Int; field "x" Int]
  = Ranked CR_Identity.
Proof.
  apply (proj1 (structural_mode_rank getRankOfConversionTo point_variable 2
                  [field "y" Int; field "x" Int]
                  (TupleType [field "x" Int; field "y" Int])
                  [field "x" Int; field "y" Int]
                  ["x"; "y"] (mkBookkeeping [true; true] [1%Z; 0%Z])
                  eq_refl eq_refl eq_refl eq_refl)).
  intros [|[|i]] f s Hf Hs Hne; simpl in Hf, Hs; try discriminate.
  - injection Hf as <-. injection Hs as <-. by exists (field "y" Int).
  - injection Hf as <-. injection Hs as <-. by exists (field "x" Int).
Defined.

(** ** Tuple reconciliation: the rank of a conversion in place (lines 190-214) *)

Lemma rank_max_assoc (A B C : ConversionRank) :
  rank_max (rank_max A B) C = rank_max A (rank_max B C).
Proof. by destruct A, B, C. Qed.

Lemma rank_max_Identity_r (A : ConversionRank) : rank_max A CR_Identity = A.
Proof. by destruct A. Qed.

Lemma rank_max_upper (A B : ConversionRank) :
  rankValue A <= rankValue (rank_max A B) /\ rankValue B <= rankValue (rank_max A B).
Proof. destruct A, B; simpl; lia. Qed.

(** The loop of the source, which folds the ranks into [CurRank] from the
    left, computes the maximum. *)
Lemma literalRank_worstRank rank SubExprs Sources Fields i CurRank :
  length Sources = i + length Fields ->
  (forall k, i <= k -> Sources !! k <> Some (-1)%Z) ->
  literalRank rank SubExprs Sources Fields i CurRank
  = match worstRank (elementRanks rank SubExprs (drop i Sources) Fields) with
    | Ranked R => Ranked (rank_max CurRank R)
    | stop => stop
    end.
Proof.
  revert i CurRank. induction Fields as [|f rest IH]; intros i CurRank Hlen Hbound.
  - simpl. by destruct CurRank.
  - simpl in Hlen.
    destruct (Sources !! i) as [s|] eqn:Hs; [|apply lookup_ge_None in Hs; lia].
    rewrite (drop_S _ _ _ Hs). simpl. rewrite Hs. simpl.
    destruct (s =? -1)%Z eqn:Hm1;
      [apply Z.eqb_eq in Hm1 as ->; by destruct (Hbound i)|].
    assert (Hrest : forall k, S i <= k -> Sources !! k <> Some (-1)%Z)
      by (intros k Hk; apply Hbound; lia).
    destruct (s =? -2)%Z; [apply IH; [lia|done]|].
    destruct (SubExprs !! Z.to_nat s) as [[Elt|]|]; try done. simpl.
    destruct (rank Elt (EltTy f)) as [R| |]; try done.
    rewrite IH by (lia || done).
    destruct (worstRank _) as [R'| |]; try done.
    by rewrite rank_max_assoc.
Qed.

(** C1 (as amended).  A tuple expression, not a grouping parenthesis, to a
    destination that is a tuple type, with the matching successful: when the
    expression has as many elements as the destination has fields, and not
    one element, the rank is that of the literal mode, the maximum over the
    destination fields bound to an input element of the rank of that element
    against the field's type; otherwise the expression is not converted in
    place, and the rank is that of the structural mode on the expression's
    type. *)
Theorem tuple_literal_rank
    (Ty : Type_) (SubExprs : list (option Expr))
    (Names : option (list Identifier)) (ETy DestTy : TypeBase)
    (Fields : list (TupleTypeElt TypeBase))
    (IdentList : list Identifier) (B : Bookkeeping) :
  let E := TupleExpr Ty SubExprs Names in
  getType E = Some ETy ->
  getCanonicalType ETy <> getCanonicalType DestTy ->
  isGroupingParen SubExprs Names = false ->
  getAsTupleType DestTy = Some Fields ->
  reconcileElements (Some ETy) (length SubExprs) Fields = Rec_Bound IdentList B ->
  getRankOfConversionTo E DestTy
  = if negb (length SubExprs =? 1) && (length SubExprs =? length Fields)
    then literalModeRank getRankOfConversionTo SubExprs (DestElementSources B) Fields
    else structuralRank (getAsTupleType ETy) (DestElementSources B) Fields 0.
Proof.
  intros E HTy Hdiff Hparen HDest Hrec.
  rewrite getRankOfConversionTo_unfold. unfold getConversionRank_body.
  assert (Hdep : isDependentType DestTy = false).
  { unfold isDependentType, getAsTupleType in *.
    by destruct (getDesugaredType DestTy). }
  rewrite Hdep, HTy.
  destruct (sameCanonicalType ETy DestTy) eqn:Hsame;
    [by apply sameCanonicalType_spec in Hsame|].
  simpl. rewrite Hparen, HDest.
  unfold getTupleToTupleTypeConversionRank. rewrite HTy, Hrec.
  unfold convertsInPlace. simpl.
  destruct (negb (length SubExprs =? 1) && (length SubExprs =? length Fields));
    [|done].
  destruct (reconcileElements_bound _ _ _ _ _ Hrec) as (_ & HD & _ & Hfields & _).
  rewrite literalRank_worstRank; rewrite ?drop_0.
  - unfold literalModeRank. by destruct (worstRank _) as [[]| |].
  - by rewrite HD.
  - intros k _ Hk.
    destruct (Fields !! k) as [f|] eqn:Hf;
      [|apply lookup_ge_None in Hf; apply lookup_lt_Some in Hk; lia].
    destruct (Hfields k f Hf) as (s & Hs & Hr).
    rewrite Hs in Hk. injection Hk as ->. lia.
Qed.

(** [(1, 2)] to [(() -> Int, Int)]: the first element becomes a closure. *)
Lemma tuple_literal_rank_witness :
  getRankOfConversionTo pair_1_2 (TupleType [field "" IntProducer; field "" Int])
  = Ranked CR_AutoClosure.
Proof.
  unfold pair_1_2.
  rewrite (tuple_literal_rank (Some (TupleType [field "" Int; field "" Int]))
             [Some (literal "1"); Some (literal "2")] None
             (TupleType [field "" Int; field "" Int])
             (TupleType [field "" IntProducer; field "" Int])
             [field "" IntProducer; field "" Int]
             [""; ""] (mkBookkeeping [true; true] [0%Z; 1%Z])
             eq_refl ltac:(discriminate) eq_refl eq_refl eq_refl).
  reflexivity.
Defined.

(** C1, as the design document has it, fails for a tuple expression whose
    number of elements is not the number of destination fields: [(1, 2)] to
    [(() -> Int, Int, c : Int = ...)] matches its two elements with the first two
    fields, and the literal mode would rank it AutoClosure; the code compares
    the types of the elements and ranks it Invalid. *)
Lemma tuple_literal_not_in_place :
  reconcileElements (getType pair_1_2) 2 producer_and_default
  = Rec_Bound [""; ""] (mkBookkeeping [true; true] [0%Z; 1%Z; (-2)%Z])
  /\ literalModeRank getRankOfConversionTo
       [Some (literal "1"); Some (literal "2")] [0%Z; 1%Z; (-2)%Z]
       producer_and_default
     = Ranked CR_AutoClosure
  /\ getRankOfConversionTo pair_1_2 (TupleType producer_and_default)
     = Ranked CR_Invalid.
Proof. repeat split; reflexivity. Qed.

(** ** Children of a node, and walking a list of children *)

Section Walk_lemmas.
Context {Data : Type}.
Variable P : Expr -> Walk Data (option Expr).

Lemma walkElements_cons C rest d :
  walkElements P (C :: rest) d
  = match P C d with
    | (Some C', d1) =>
        match walkElements P rest d1 with
        | (Some rest', d2) => (Some (C' :: rest'), d2)
        | (None, d2) => (None, d2)
        end
    | (None, d1) => (None, d1)
    end.
Proof.
  simpl. unfold ifNode, bind, ret. destruct (P C d) as [[C'|] d1]; [|done].
  by destruct (walkElements P rest d1) as [[rest'|] d2].
Qed.

(** Walking a list of children, once its first part has been walked. *)
Lemma walkElements_app before after before' d d1 :
  walkElements P before d = (Some before', d1) ->
  walkElements P (before ++ after) d
  = match walkElements P after d1 with
    | (Some after', d2) => (Some (before' ++ after')%list, d2)
    | (None, d2) => (None, d2)
    end.
Proof.
  revert before' d. induction before as [|C before IH]; intros before' d.
  - simpl. unfold ret. intros Heq. injection Heq as <- <-.
    by destruct (walkElements P after d) as [[after'|] d2].
  - rewrite <- app_comm_cons, !walkElements_cons.
    destruct (P C d) as [[C'|] d0]; [|done].
    destruct (walkElements P before d0) as [[rest'|] d0'] eqn:Hrest; [|done].
    intros Heq. injection Heq as <- <-. rewrite (IH _ _ Hrest).
    by destruct (walkElements P after d0') as [[after'|] d2].
Qed.

Lemma walkSubExprs_children SubExprs d :
  walkSubExprs P SubExprs d
  = match walkElements P (omap id SubExprs) d with
    | (Some Cs, d') => (Some (fillSubExprs SubExprs Cs), d')
    | (None, d') => (None, d')
    end.
Proof.
  revert d. induction SubExprs as [|[Sub|] rest IH]; intros d.
  - done.
  - change (omap id (Some Sub :: rest)) with (Sub :: omap id rest).
    rewrite walkElements_cons. simpl. unfold ifNode, bind, ret.
    destruct (P Sub d) as [[Elt|] d1]; [|done]. rewrite IH.
    by destruct (walkElements P (omap id rest) d1) as [[Cs|] d2].
  - change (omap id (None :: rest)) with (omap id rest).
    simpl. unfold ifNode, bind, ret. rewrite IH.
    destruct (walkElements P (omap id rest) d) as [[Cs|] d2]; [|done].
    by destruct rest, Cs.
Qed.

Lemma walkBraceElements_children Elements d :
  walkBraceElements P Elements d
  = match walkElements P
            (omap (fun x => match x with
                            | inl e => Some e
                            | inr D => declInit D
                            end) Elements) d with
    | (Some Cs, d') => (Some (fillBraceElements Elements Cs), d')
    | (None, d') => (None, d')
    end.
Proof.
  revert d. induction Elements as [|[e|[N [DInit|]|N]] rest IH]; intros d.
  - done.
  - cbn [omap list_omap]. rewrite walkElements_cons. simpl.
    unfold ifNode, bind, ret.
    destruct (P e d) as [[E2|] d1]; [|done]. rewrite IH.
    by destruct (walkElements P _ d1) as [[Cs|] d2].
  - cbn [omap list_omap declInit]. rewrite walkElements_cons. simpl.
    unfold ifNode, bind, ret.
    destruct (P DInit d) as [[E2|] d1]; [|done]. rewrite IH.
    by destruct (walkElements P _ d1) as [[Cs|] d2].
  - cbn [omap list_omap declInit]. simpl. unfold ifNode, bind, ret. rewrite IH.
    destruct (walkElements P _ d) as [[Cs|] d2]; [|done].
    by destruct Cs.
  - cbn [omap list_omap declInit]. simpl. unfold ifNode, bind, ret. rewrite IH.
    destruct (walkElements P _ d) as [[Cs|] d2]; [|done].
    by destruct Cs.
Qed.

(** Every visit function walks the children of its node in order, stops at
    the first that gives no node, and otherwise returns the node with the
    results in its child slots. *)
Lemma Visit_children E d :
  Visit P E d
  = match walkElements P (children E) d with
    | (Some Cs, d') => (Some (withChildren E Cs), d')
    | (None, d') => (None, d')
    end.
Proof.
  destruct E as [| | | | | |Ty SubExprs Names|Ty [Sub|] N|Ty Sub No|Ty Callee Arg
                |Ty Elements|Ty Elements|Ty Input| |Ty Callee LHS RHS];
    try done.
  - simpl. unfold VisitTupleExpr, ifNode, bind, ret.
    rewrite walkSubExprs_children.
    by destruct (walkElements P (omap id SubExprs) d) as [[Cs|] d'].
  - simpl. unfold VisitUnresolvedDotExpr, ifNode, bind, ret.
    by destruct (P Sub d) as [[E2|] d'].
  - simpl. unfold VisitTupleElementExpr, ifNode, bind, ret.
    by destruct (P Sub d) as [[E2|] d'].
  - simpl. unfold VisitApplyExpr, ifNode, bind, ret.
    destruct (P Callee d) as [[C'|] d1]; [|done].
    by destruct (P Arg d1) as [[A'|] d2].
  - simpl. unfold VisitSequenceExpr, ifNode, bind, ret.
    by destruct (walkElements P Elements d) as [[Cs|] d'].
  - simpl. unfold VisitBraceExpr, ifNode, bind, ret.
    rewrite walkBraceElements_children.
    by destruct (walkElements P _ d) as [[Cs|] d'].
  - simpl. unfold VisitClosureExpr, ifNode, bind, ret.
    by destruct (P Input d) as [[E2|] d'].
  - simpl. unfold VisitBinaryExpr, ifNode, bind, ret.
    destruct (P LHS d) as [[L'|] d1]; [|done].
    by destruct (P RHS d1) as [[R'|] d2].
Qed.
End Walk_lemmas.

Lemma ProcessNode_unfold {Data : Type} (Fn : WalkFn Data) (E : Expr) (d : Data) :
  ProcessNode Fn E d
  = match Fn E Walk_PreOrder d with
    | (None, d0) => (Some E, d0)
    | (Some _, d0) =>
        match Visit (ProcessNode Fn) E d0 with
        | (Some E', d1) => Fn E' Walk_PostOrder d1
        | (None, d1) => (None, d1)
        end
    end.
Proof.
  destruct E; simpl; unfold ifNode, bind, ret;
    destruct (Fn _ Walk_PreOrder d) as [[?|] ?]; try done;
    match goal with
    | |- context [let (_, _) := ?v in _] => by destruct v as [[?|] ?]
    end.
Qed.

(** ** Abort, reject, and the value returned before the children *)

(** C8.  When the processing of a child gives no node, the walker stops: the
    children after it are not processed and the function is not called on the
    parent after its children; the walk of the parent gives no node, with the
    data as the aborted child left them (no call of the function follows). *)
Theorem abort_stops_walk {Data : Type} (Fn : WalkFn Data)
    (E : Expr) (E2 : Expr) (before after before' : list Expr) (C : Expr)
    (d d0 d1 d2 : Data) :
  Fn E Walk_PreOrder d = (Some E2, d0) ->
  children E = (before ++ C :: after)%list ->
  walkElements (ProcessNode Fn) before d0 = (Some before', d1) ->
  ProcessNode Fn C d1 = (None, d2) ->
  WalkExpr E Fn d = (None, d2).
Proof.
  intros Hpre Hchildren Hbefore Habort. unfold WalkExpr.
  rewrite ProcessNode_unfold, Hpre, Visit_children, Hchildren.
  rewrite (walkElements_app _ _ _ _ _ _ Hbefore), walkElements_cons, Habort.
  done.
Qed.

(** For [f(x)], with a function that returns null after the children of the
    callee [f]: the walk returns no node, and the calls are those on [f(x)]
    before its children and on [f]; [x] is not visited. *)
Lemma abort_stops_walk_witness :
  WalkExpr (ApplyExpr None (ref "f") (ref "x")) (abortAfter "f") []
  = (None, [(ApplyExpr None (ref "f") (ref "x"), Walk_PreOrder);
            (ref "f", Walk_PreOrder); (ref "f", Walk_PostOrder)]).
Proof.
  apply (abort_stops_walk (abortAfter "f") (ApplyExpr None (ref "f") (ref "x"))
           (ApplyExpr None (ref "f") (ref "x")) [] [ref "x"] [] (ref "f")
           [] [(ApplyExpr None (ref "f") (ref "x"), Walk_PreOrder)]
           [(ApplyExpr None (ref "f") (ref "x"), Walk_PreOrder)]);
    reflexivity.
Defined.

(** C9.  When the function returns null on a node before its children, the
    processing of the node returns the node itself, with the data as that
    call left them: neither its children nor the node after its children are
    visited.  The walk of the parent goes on: the children after the node are
    processed, and the parent is visited after its children with the node
    unchanged in its slot and the results of the other children in theirs. *)
Theorem reject_keeps_node {Data : Type} (Fn : WalkFn Data)
    (C : Expr) (d1 d2 : Data) :
  Fn C Walk_PreOrder d1 = (None, d2) ->
  ProcessNode Fn C d1 = (Some C, d2)
  /\ forall (E E2 : Expr) (before after before' after' : list Expr)
            (d d0 d3 : Data),
       Fn E Walk_PreOrder d = (Some E2, d0) ->
       children E = (before ++ C :: after)%list ->
       walkElements (ProcessNode Fn) before d0 = (Some before', d1) ->
       walkElements (ProcessNode Fn) after d2 = (Some after', d3) ->
       WalkExpr E Fn d
       = Fn (withChildren E (before' ++ C :: after')%list) Walk_PostOrder d3.
Proof.
  intros Hreject.
  assert (HC : ProcessNode Fn C d1 = (Some C, d2))
    by (by rewrite ProcessNode_unfold, Hreject).
  split; [done|].
  intros E E2 before after before' after' d d0 d3 Hpre Hchildren Hbefore Hafter.
  unfold WalkExpr. rewrite ProcessNode_unfold, Hpre, Visit_children, Hchildren.
  by rewrite (walkElements_app _ _ _ _ _ _ Hbefore), walkElements_cons, HC, Hafter.
Qed.

(** A sequence of three elements, the second rejected: its children [g] and
    [b] are not visited, the other two elements are, and the walk returns the
    sequence with the second element unchanged (and the third rewritten). *)
Lemma reject_keeps_node_witness :
  WalkExpr sequence_a_gb_c rejectApply []
  = (Some (SequenceExpr None
             [ref "a"; ApplyExpr None (ref "g") (ref "b"); ref "c'"]),
     [(sequence_a_gb_c, Walk_PreOrder);
      (ref "a", Walk_PreOrder); (ref "a", Walk_PostOrder);
      (ApplyExpr None (ref "g") (ref "b"), Walk_PreOrder);
      (ref "c", Walk_PreOrder); (ref "c", Walk_PostOrder);
      (SequenceExpr None
         [ref "a"; ApplyExpr None (ref "g") (ref "b"); ref "c'"],
       Walk_PostOrder)]).
Proof.
  pose (l0 := [(sequence_a_gb_c, Walk_PreOrder)]).
  pose (l1 := (l0 ++ [(ref "a", Walk_PreOrder); (ref "a", Walk_PostOrder)])%list).
  pose (l2 := (l1 ++ [(ApplyExpr None (ref "g") (ref "b"), Walk_PreOrder)])%list).
  pose (l3 := (l2 ++ [(ref "c", Walk_PreOrder); (ref "c", Walk_PostOrder)])%list).
  rewrite (proj2 (reject_keeps_node rejectApply
                    (ApplyExpr None (ref "g") (ref "b")) l1 l2 eq_refl)
             sequence_a_gb_c sequence_a_gb_c [ref "a"] [ref "c"]
             [ref "a"] [ref "c'"] [] l0 l3 eq_refl eq_refl eq_refl eq_refl).
  reflexivity.
Defined.

Lemma list_sum_omap_le {A : Type} (f : A -> option Expr) (g : A -> nat)
    (l : list A) (C : Expr) :
  (forall x, f x = Some C -> Expr_size C <= g x) ->
  C ∈ omap f l -> Expr_size C <= list_sum (map g l).
Proof.
  intros Hfg HC. apply list_elem_of_omap in HC as (x & Hx & HxC).
  pose proof (list_sum_elem_le g l x Hx). specialize (Hfg x HxC). lia.
Qed.

(** A child is smaller than its node. *)
Lemma children_size (E C : Expr) :
  C ∈ children E -> Expr_size C < Expr_size E.
Proof.
  destruct E as [| | | | | |Ty SubExprs Names|Ty [Sub|] N|Ty Sub No|Ty Callee Arg
                |Ty Elements|Ty Elements|Ty Input| |Ty Callee LHS RHS];
    simpl; intros HC; try (by inversion HC).
  - apply (list_sum_omap_le id
             (fun o => match o with Some e => Expr_size e | None => 0 end)) in HC;
      [lia|]. by intros [e|] [= ->].
  - apply list_elem_of_singleton in HC as ->. lia.
  - apply list_elem_of_singleton in HC as ->. lia.
  - apply elem_of_cons in HC as [->|HC]; [lia|].
    apply list_elem_of_singleton in HC as ->. lia.
  - pose proof (list_sum_elem_le Expr_size _ _ HC). lia.
  - apply (list_sum_omap_le _
             (fun x => match x with
                       | inl e => Expr_size e
                       | inr (ValueDecl _ (Some e)) => Expr_size e
                       | inr _ => 0
                       end)) in HC; [lia|].
    by intros [e|[N [e|]|N]] [= ->].
  - apply list_elem_of_singleton in HC as ->. lia.
  - apply elem_of_cons in HC as [->|HC]; [lia|].
    apply list_elem_of_singleton in HC as ->. lia.
Qed.

(** An induction on expressions by their children. *)
Lemma Expr_children_ind (P : Expr -> Prop) :
  (forall E, (forall C, C ∈ children E -> P C) -> P E) -> forall E, P E.
Proof.
  intros Hstep E. remember (Expr_size E) as n eqn:Hn.
  revert E Hn. induction n as [n IH] using lt_wf_ind. intros E ->.
  apply Hstep. intros C HC. apply (IH (Expr_size C)); [|done].
  by apply children_size.
Qed.

Lemma walkElements_ext {Data : Type} (P Q : Expr -> Walk Data (option Expr))
    (Elements : list Expr) (d : Data) :
  (forall C d', C ∈ Elements -> P C d' = Q C d') ->
  walkElements P Elements d = walkElements Q Elements d.
Proof.
  revert d. induction Elements as [|C rest IH]; intros d Hext; [done|].
  rewrite !walkElements_cons, <- (Hext C d) by (by left).
  destruct (P C d) as [[C'|] d1]; [|done].
  rewrite IH; [done|]. intros C0 d' HC0. apply Hext. by right.
Qed.

(** C10.  The node that the function returns before the children of a node
    is only tested against null: two walk functions that, before the
    children, return null on the same nodes and change the data alike, and
    that agree after the children, give the same walk.  What the function
    returns before the children, when it is not null, replaces nothing; the
    walker descends into the node it was given and returns that node to the
    function after its children. *)
Theorem preorder_result_not_installed {Data : Type} (Fn Gn : WalkFn Data) :
  (forall E d, Gn E Walk_PostOrder d = Fn E Walk_PostOrder d) ->
  (forall E d, snd (Gn E Walk_PreOrder d) = snd (Fn E Walk_PreOrder d)
               /\ (fst (Gn E Walk_PreOrder d) = None
                   <-> fst (Fn E Walk_PreOrder d) = None)) ->
  forall E d, WalkExpr E Gn d = WalkExpr E Fn d.
Proof.
  intros Hpost Hpre. unfold WalkExpr.
  induction E as [E IH] using Expr_children_ind. intros d.
  rewrite !ProcessNode_unfold. destruct (Hpre E d) as [Hdata Hnull].
  destruct (Gn E Walk_PreOrder d) as [[G2|] dG];
    destruct (Fn E Walk_PreOrder d) as [[F2|] dF]; simpl in *; subst dG.
  - rewrite !Visit_children.
    rewrite (walkElements_ext (ProcessNode Gn) (ProcessNode Fn))
      by (intros C d' HC; by apply IH).
    destruct (walkElements (ProcessNode Fn) (children E) dF) as [[Cs|] d1];
      [apply Hpost|done].
  - by destruct Hnull as [_ Hnull]; specialize (Hnull eq_refl).
  - by destruct Hnull as [Hnull _]; specialize (Hnull eq_refl).
  - done.
Qed.

(** The walk of the three-element sequence is the same when the function
    returns some other node before the children of the nodes it accepts. *)
Lemma preorder_result_not_installed_witness :
  WalkExpr sequence_a_gb_c rejectApplyOrOther []
  = WalkExpr sequence_a_gb_c rejectApply [].
Proof.
  apply (preorder_result_not_installed rejectApply rejectApplyOrOther).
  - reflexivity.
  - intros E d. split; [reflexivity|]. simpl. by destruct (isApply E).
Defined.

(** * Further properties of the conversion ranks *)

(** X1.  The recursion of [getConversionRank] ends: with a counter above the
    sizes of the expression and of the destination type the counter does not
    run out, and the result is that of [getRankOfConversionTo], whatever the
    counter. *)
Theorem getConversionRank_terminates (fuel : nat) (E : Expr) (DestTy : TypeBase) :
  Expr_size E + TypeBase_size DestTy < fuel ->
  getConversionRank fuel E DestTy = getRankOfConversionTo E DestTy
  /\ getConversionRank fuel E DestTy <> OutOfFuel.
Proof.
  intros Hfuel. split.
  - apply getConversionRank_fuel_irrelevant; [done|lia].
  - by apply getConversionRank_fuel.
Qed.

Lemma getConversionRank_terminates_witness :
  getConversionRank 100 swizzle_4_3 (TupleType [field "x" Int; field "y" Int])
  = getRankOfConversionTo swizzle_4_3 (TupleType [field "x" Int; field "y" Int])
  /\ getConversionRank 100 swizzle_4_3 (TupleType [field "x" Int; field "y" Int])
     <> OutOfFuel.
Proof.
  apply (getConversionRank_terminates 100 swizzle_4_3
           (TupleType [field "x" Int; field "y" Int])).
  vm_compute. lia.
Defined.

(** The sources of the fields are distinct input elements for distinct input
    elements: there are no more input elements than fields. *)
Lemma reconcileElements_arity ETy NumExprElements DestTy IdentList B :
  reconcileElements ETy NumExprElements DestTy = Rec_Bound IdentList B ->
  NumExprElements <= length DestTy.
Proof.
  intros Hrec.
  destruct (reconcileElements_bound _ _ _ _ _ Hrec) as (_ & HD & _ & _ & Hbound).
  assert (Hle : length (Z.of_nat <$> seq 0 NumExprElements)
                <= length (DestElementSources B)).
  { apply submseteq_length, NoDup_submseteq.
    - apply NoDup_fmap_2; [apply Nat2Z.inj'|apply NoDup_seq].
    - intros s Hs. apply list_elem_of_fmap in Hs as (j & -> & Hj).
      apply elem_of_seq in Hj. destruct (Hbound j) as [i Hi]; [lia|].
      by eapply list_elem_of_lookup_2. }
  rewrite length_fmap, length_seq in Hle. lia.
Qed.

(** X2.  With more input elements than the destination has fields, the
    conversion of a tuple to a tuple is Invalid: for an expression that has a
    type, with as many fields as there are input elements when it is a tuple
    type (which the function asserts), the rank is Invalid, whatever the
    names and whatever the ranks of the elements. *)
Theorem too_many_elements_invalid
    (rank : Expr -> TypeBase -> Outcome) (E : Expr) (T : TypeBase)
    (NumExprElements : nat) (DestTy : list (TupleTypeElt TypeBase)) :
  getType E = Some T ->
  (forall EFields, getAsTupleType T = Some EFields ->
     length EFields = NumExprElements) ->
  length DestTy < NumExprElements ->
  getTupleToTupleTypeConversionRank rank E NumExprElements DestTy
  = Ranked CR_Invalid.
Proof.
  intros HTy Hsize Hmore. unfold getTupleToTupleTypeConversionRank.
  destruct (reconcileElements (getType E) NumExprElements DestTy)
    as [| |IdentList B] eqn:Hrec; [|done|].
  - exfalso. rewrite HTy in Hrec. unfold reconcileElements, namedMatching in Hrec.
    destruct (getAsTupleType T) as [EFields|] eqn:HT.
    + rewrite (Hsize EFields eq_refl), Nat.eqb_refl in Hrec.
      destruct (resolveUnnamed _ _ _ _ _ _) as [B2|]; [|done].
      by destruct (anyUnused _).
    + destruct (resolveUnnamed _ _ _ _ _ _) as [B2|]; [|done].
      by destruct (anyUnused _).
  - apply reconcileElements_arity in Hrec. lia.
Qed.

(** [(1, 2, 3)], of type [(Int, Int, Int)], for the two fields
    [(x : Int, y : Int)]. *)
Lemma too_many_elements_invalid_witness :
  getTupleToTupleTypeConversionRank getRankOfConversionTo
    (TupleExpr (Some (TupleType [field "" Int; field "" Int; field "" Int]))
       [Some (literal "1"); Some (literal "2"); Some (literal "3")] None)
    3 [field "x" Int; field "y" Int]
  = Ranked CR_Invalid.
Proof.
  apply (too_many_elements_invalid getRankOfConversionTo
           (TupleExpr (Some (TupleType [field "" Int; field "" Int; field "" Int]))
              [Some (literal "1"); Some (literal "2"); Some (literal "3")] None)
           (TupleType [field "" Int; field "" Int; field "" Int])).
  - reflexivity.
  - intros EFields Heq. injection Heq as <-. reflexivity.
  - simpl. lia.
Defined.

Lemma empty_spec (Id : Identifier) : empty Id = true <-> Id = "".
Proof. destruct Id; simpl; split; congruence. Qed.

Lemma findNamedInput_none IdentList DestName j0 :
  findNamedInput IdentList DestName j0 = (-1)%Z -> DestName ∉ IdentList.
Proof.
  revert j0. induction IdentList as [|Id rest IH]; intros j0 Hnone Hin.
  - by inversion Hin.
  - simpl in Hnone. destruct (String.eqb Id DestName) eqn:Heq; [lia|].
    apply String.eqb_neq in Heq.
    apply elem_of_cons in Hin as [->|Hin]; [done|]. by apply (IH (S j0)).
Qed.

Lemma namedSource_none_iff IdentList f :
  namedSource IdentList f = (-1)%Z <->
  empty (Name f) = true \/ Name f ∉ IdentList.
Proof.
  unfold namedSource. destruct (empty (Name f)) eqn:Hempty.
  - split; [by left|done].
  - split.
    + intros Hnone. right. by eapply findNamedInput_none.
    + intros [?|Hnot]; [done|]. by apply findNamedInput_absent.
Qed.

(** What the named matching leaves: each field has the source its name gives
    it, and the input elements marked used are these sources. *)
Lemma namedMatching_sources T NumExprElements DestTy IdentList B :
  namedMatching T NumExprElements DestTy = Some (IdentList, B) ->
  length IdentList = NumExprElements
  /\ (forall i f, DestTy !! i = Some f ->
        DestElementSources B !! i = Some (namedSource IdentList f))
  /\ (forall j, UsedElements B !! j = Some true <->
        j < NumExprElements
        /\ exists f, f ∈ DestTy /\ namedSource IdentList f = Z.of_nat j).
Proof.
  unfold namedMatching. destruct (getAsTupleType T) as [EFields|].
  - destruct (Nat.eqb_spec (length EFields) NumExprElements) as [<-|]; [|done].
    intros Heq. injection Heq as <- <-. split; [by rewrite length_fmap|]. split.
    + intros i f Hf.
      apply (resolveNamed_source (Name <$> EFields) DestTy 0 _ i f); simpl; [| |done].
      * by rewrite length_replicate.
      * intros k' _ Hk'. by apply lookup_replicate_2.
    + intros j. rewrite resolveNamed_used. simpl. rewrite length_replicate. split.
      * intros [Hj|H]; [by apply lookup_replicate in Hj as [? _]|done].
      * intros H. by right.
  - intros Heq. injection Heq as <- <-. split; [by rewrite length_replicate|].
    assert (Hnone : forall f, namedSource (replicate NumExprElements "") f = (-1)%Z).
    { intros f. apply namedSource_none_iff.
      destruct (empty (Name f)) eqn:Hempty; [by left|right].
      intros Hin. apply elem_of_replicate in Hin as [Hname _].
      rewrite Hname in Hempty. done. }
    split.
    + intros i f Hf. simpl. rewrite Hnone. apply lookup_replicate_2.
      by eapply lookup_lt_Some.
    + intros j. simpl. split.
      * intros Hj. by apply lookup_replicate in Hj as [? _].
      * intros (_ & f & _ & Hsrc). rewrite Hnone in Hsrc. lia.
Qed.

Lemma leftOverInputs_isLeftOver IdentList Used Next Num j :
  j ∈ leftOverInputs IdentList Used Next Num -> isLeftOver IdentList Used j = true.
Proof.
  unfold leftOverInputs. rewrite list_elem_of_In, filter_In. tauto.
Qed.

(** The parts of a successful [reconcileElements]. *)
Lemma reconcileElements_parts T NumExprElements DestTy IdentList B :
  reconcileElements (Some T) NumExprElements DestTy = Rec_Bound IdentList B ->
  exists B1,
    namedMatching T NumExprElements DestTy = Some (IdentList, B1)
    /\ resolveUnnamed IdentList NumExprElements DestTy 0 0 B1 = Some B
    /\ anyUnused (UsedElements B) = false.
Proof.
  unfold reconcileElements.
  destruct (namedMatching T NumExprElements DestTy) as [[IL B1]|]; [|done].
  destruct (resolveUnnamed IL NumExprElements DestTy 0 0 B1) as [B2|] eqn:HB2;
    [|done].
  destruct (anyUnused (UsedElements B2)) eqn:Hunused; [done|].
  intros Heq. injection Heq as <- <-. by exists B1.
Qed.

(** The input element that the search of lines 131-136 finds is the first of
    the name. *)
Lemma findNamedInput_found_first IdentList DestName j0 :
  findNamedInput IdentList DestName j0 <> (-1)%Z ->
  exists j, findNamedInput IdentList DestName j0 = Z.of_nat (j0 + j)
            /\ IdentList !! j = Some DestName
            /\ forall j', j' < j -> IdentList !! j' <> Some DestName.
Proof.
  revert j0. induction IdentList as [|Id rest IH]; intros j0 Hfound; [done|].
  simpl in *. destruct (String.eqb_spec Id DestName) as [->|Hne].
  - exists 0. split; [f_equal; lia|]. split; [done|]. intros j' Hj'. lia.
  - destruct (IH (S j0) Hfound) as (j & Hj & Hlook & Hfirst).
    exists (S j). split; [rewrite Hj; f_equal; lia|]. split; [done|].
    intros [|j'] Hlt; simpl; [congruence|]. apply Hfirst. lia.
Qed.

Lemma namedSource_found_first IdentList f :
  namedSource IdentList f <> (-1)%Z ->
  exists j, namedSource IdentList f = Z.of_nat j
            /\ IdentList !! j = Some (Name f) /\ empty (Name f) = false
            /\ forall j', j' < j -> IdentList !! j' <> Some (Name f).
Proof.
  unfold namedSource. destruct (empty (Name f)); [done|]. intros Hfound.
  destruct (findNamedInput_found_first _ _ _ Hfound) as (j & Hj & Hlook & Hfirst).
  by exists j.
Qed.

(** X3.  What a successful matching binds a field to: the first input element
    of the field's name (no input element before it has that name); or, for a
    field that has no name or no input of its name, an input element without
    a name or the field's default value, which it then has.  A field never
    takes an input element of another name, nor a later one of its name. *)
Theorem binding_by_name_or_position
    (T : TypeBase) (NumExprElements : nat) (DestTy : list (TupleTypeElt TypeBase))
    (IdentList : list Identifier) (B : Bookkeeping)
    (i : nat) (f : TupleTypeElt TypeBase) (s : Z) :
  reconcileElements (Some T) NumExprElements DestTy = Rec_Bound IdentList B ->
  DestTy !! i = Some f ->
  DestElementSources B !! i = Some s ->
  (exists j, s = Z.of_nat j /\ IdentList !! j = Some (Name f)
             /\ empty (Name f) = false
             /\ forall j', j' < j -> IdentList !! j' <> Some (Name f))
  \/ ((empty (Name f) = true \/ Name f ∉ IdentList)
      /\ ((exists j, s = Z.of_nat j /\ IdentList !! j = Some "")
          \/ (s = (-2)%Z /\ Init f = true))).
Proof.
  intros Hrec Hf Hs.
  destruct (reconcileElements_parts _ _ _ _ _ Hrec) as (B1 & Hnamed & HB & _).
  destruct (namedMatching_sources _ _ _ _ _ Hnamed) as (HIL & Hsrc & _).
  destruct (namedMatching_wellFormed _ _ _ _ _ Hnamed) as (HU & HD & _).
  pose proof (resolveUnnamed_sources IdentList NumExprElements DestTy B1 HU HD) as Hpos.
  cbv zeta in Hpos. rewrite HB in Hpos.
  specialize (Hpos i f _ Hf (Hsrc i f Hf)).
  destruct (namedSource IdentList f =? -1)%Z eqn:Hns; simpl in Hpos.
  - apply Z.eqb_eq in Hns. right. split; [by apply namedSource_none_iff|].
    destruct (leftOverInputs _ _ _ _ !! _) as [j|] eqn:Hj.
    + left. exists j. destruct Hpos as [Hpos _]. split; [congruence|].
      apply list_elem_of_lookup_2 in Hj.
      pose proof (leftOverInputs_range _ _ _ _ _ Hj) as Hrange.
      apply leftOverInputs_isLeftOver in Hj. unfold isLeftOver in Hj.
      apply andb_true_iff in Hj as [_ Hj].
      destruct (IdentList !! j) as [n|] eqn:Hn;
        [|apply lookup_ge_None in Hn; unfold Identifier in *; lia].
      simpl in Hj. apply empty_spec in Hj. by subst n.
    + right. destruct Hpos as [HInit Hpos]. split; [congruence|done].
  - apply Z.eqb_neq in Hns. left.
    destruct (namedSource_found_first _ _ Hns) as (j & Hj & HIdent & Hname & Hfirst).
    exists j. split; [congruence|done].
Qed.

(** A value of type [(x : Int, Int)] to [(x : Int, y : Int)]: the matching
    succeeds, and the field [x] has taken input 0, the first of its name. *)
Lemma binding_by_name_or_position_witness :
  reconcileElements (Some (TupleType [field "x" Int; field "" Int])) 2
    [field "x" Int; field "y" Int]
  = Rec_Bound ["x"; ""] (mkBookkeeping [true; true] [0%Z; 1%Z])
  /\ ((exists j, 0%Z = Z.of_nat j /\ ["x"; ""] !! j = Some "x"
                 /\ empty "x" = false
                 /\ forall j', j' < j -> ["x"; ""] !! j' <> Some "x")
      \/ ((empty "x" = true \/ "x" ∉ ["x"; ""])
          /\ ((exists j, 0%Z = Z.of_nat j /\ ["x"; ""] !! j = Some "")
              \/ (0%Z = (-2)%Z /\ false = true)))).
Proof.
  split; [reflexivity|].
  apply (binding_by_name_or_position
           (TupleType [field "x" Int; field "" Int]) 2
           [field "x" Int; field "y" Int] ["x"; ""]
           (mkBookkeeping [true; true] [0%Z; 1%Z]) 0 (field "x" Int) 0%Z);
    reflexivity.
Defined.

(** ** Input elements without names *)

Lemma resolveNamed_noop IdentList Fields i B :
  (forall f, f ∈ Fields -> namedSource IdentList f = (-1)%Z) ->
  resolveNamed IdentList Fields i B = B.
Proof.
  revert i. induction Fields as [|f rest IH]; intros i Hnone; [done|].
  rewrite resolveNamed_step, (Hnone f) by (by left). simpl.
  apply IH. intros g Hg. apply Hnone. by right.
Qed.

Lemma filter_all {A : Type} (P : A -> bool) (l : list A) :
  (forall x, In x l -> P x = true) -> List.filter P l = l.
Proof.
  induction l as [|x l IH]; intros HP; [done|]. simpl.
  rewrite (HP x) by (by left). f_equal. apply IH. intros y Hy. apply HP. by right.
Qed.

Lemma leftOverInputs_fresh n :
  leftOverInputs (replicate n "") (replicate n false) 0 n = seq 0 n.
Proof.
  unfold leftOverInputs. rewrite Nat.sub_0_r. apply filter_all.
  intros j Hj. apply in_seq in Hj. unfold isLeftOver.
  by rewrite !lookup_replicate_2 by lia.
Qed.

Lemma unresolvedFields_replicate n : unresolvedFields (replicate n (-1)%Z) = n.
Proof.
  induction n as [|n IH]; [done|]. simpl. by rewrite unresolvedFields_cons, IH.
Qed.

Lemma assignPositional_fresh Fields LeftOver :
  assignPositional Fields (replicate (length Fields) (-1)%Z) LeftOver
  = if forallb Init (drop (length LeftOver) Fields)
    then Some ((Z.of_nat <$> take (length Fields) LeftOver)
               ++ replicate (length Fields - length LeftOver) (-2)%Z)%list
    else None.
Proof.
  revert LeftOver. induction Fields as [|f rest IH]; intros LeftOver.
  - simpl. by rewrite drop_nil.
  - simpl. destruct LeftOver as [|j LeftOver]; simpl.
    + rewrite IH. simpl. rewrite drop_0, Nat.sub_0_r, take_nil.
      by destruct (Init f), (forallb Init rest).
    + rewrite IH. by destruct (forallb Init (drop (length LeftOver) rest)).
Qed.

Lemma markUsed_seq a k r :
  markUsed (seq a k) (replicate a true ++ replicate (k + r) false)%list
  = (replicate (a + k) true ++ replicate r false)%list.
Proof.
  revert a. induction k as [|k IH]; intros a; simpl.
  - by rewrite Nat.add_0_r.
  - rewrite insert_app_r_alt by (rewrite length_replicate; lia).
    rewrite length_replicate, Nat.sub_diag. simpl.
    replace (replicate a true ++ true :: replicate (k + r) false)%list
      with (replicate (S a) true ++ replicate (k + r) false)%list
      by (by rewrite replicate_S_end, <- app_assoc).
    rewrite IH. f_equal. f_equal. lia.
Qed.

Lemma anyUnused_replicate n : anyUnused (replicate n true) = false.
Proof. induction n as [|n IH]; [done|]. simpl. apply IH. Qed.

Lemma reconcileElements_unnamed
    (T : TypeBase) (NumExprElements : nat) (DestTy : list (TupleTypeElt TypeBase)) :
  (forall EFields, getAsTupleType T = Some EFields ->
     length EFields = NumExprElements /\ forall f, f ∈ EFields -> Name f = "") ->
  reconcileElements (Some T) NumExprElements DestTy
  = if (NumExprElements <=? length DestTy)
       && forallb Init (drop NumExprElements DestTy)
    then Rec_Bound (replicate NumExprElements "")
           (mkBookkeeping (replicate NumExprElements true)
              ((Z.of_nat <$> seq 0 NumExprElements)
               ++ replicate (length DestTy - NumExprElements) (-2)%Z)%list)
    else Rec_Invalid.
Proof.
  intros Hunnamed.
  assert (Hnamed : namedMatching T NumExprElements DestTy
            = Some (replicate NumExprElements "",
                    initialBookkeeping NumExprElements (length DestTy))).
  { unfold namedMatching. destruct (getAsTupleType T) as [EFields|]; [|done].
    destruct (Hunnamed EFields eq_refl) as [<- Hnames].
    rewrite Nat.eqb_refl.
    assert (HIL : Name <$> EFields = replicate (length EFields) "").
    { clear Hunnamed. induction EFields as [|e EFields IH]; [done|]. simpl.
      rewrite (Hnames e) by (by left). f_equal.
      apply IH. intros g Hg. apply Hnames. by right. }
    rewrite HIL, resolveNamed_noop; [done|].
    intros f _. apply namedSource_none_iff.
    destruct (empty (Name f)) eqn:Hempty; [by left|right].
    intros Hin. apply elem_of_replicate in Hin as [Hname _].
    rewrite Hname in Hempty. done. }
  destruct (Nat.leb_spec NumExprElements (length DestTy)) as [Hle|Hgt]; simpl.
  - unfold reconcileElements. rewrite Hnamed.
    rewrite resolveUnnamed_assign; simpl; rewrite ?length_replicate; [|lia|done|done].
    rewrite drop_0, leftOverInputs_fresh, unresolvedFields_replicate.
    rewrite assignPositional_fresh, length_seq, take_ge by (rewrite length_seq; lia).
    destruct (forallb Init (drop NumExprElements DestTy)); [|done]. simpl.
    pose proof (markUsed_seq 0 NumExprElements 0) as Hmark. simpl in Hmark.
    rewrite Nat.add_0_r, app_nil_r in Hmark.
    by rewrite Hmark, anyUnused_replicate.
  - destruct (reconcileElements (Some T) NumExprElements DestTy)
      as [| |IdentList B] eqn:Hrec; [|done|].
    + unfold reconcileElements in Hrec. rewrite Hnamed in Hrec.
      destruct (resolveUnnamed _ _ _ _ _ _) as [B2|]; [|done].
      by destruct (anyUnused _).
    + apply reconcileElements_arity in Hrec. lia.
Qed.

(** X4.  When the input elements have no names (the expression's type is not
    a tuple type, or none of its fields has a name), the matching is by
    position: field [i] takes input element [i], and the fields after the
    last input element take their default values.  It succeeds exactly when
    there are no more input elements than fields and every field after the
    last input element has a default value, and is Invalid otherwise. *)
Theorem unnamed_elements_bind_in_order
    (T : TypeBase) (NumExprElements : nat) (DestTy : list (TupleTypeElt TypeBase)) :
  (forall EFields, getAsTupleType T = Some EFields ->
     length EFields = NumExprElements /\ forall f, f ∈ EFields -> Name f = "") ->
  reconcileElements (Some T) NumExprElements DestTy
  = if (NumExprElements <=? length DestTy)
       && forallb Init (drop NumExprElements DestTy)
    then Rec_Bound (replicate NumExprElements "")
           (mkBookkeeping (replicate NumExprElements true)
              ((Z.of_nat <$> seq 0 NumExprElements)
               ++ replicate (length DestTy - NumExprElements) (-2)%Z)%list)
    else Rec_Invalid.
Proof. apply reconcileElements_unnamed. Qed.

(** [(1, 2)] to a type of three fields, the last with a default value. *)
Lemma unnamed_elements_bind_in_order_witness :
  reconcileElements (getType pair_1_2) 2 producer_and_default
  = Rec_Bound [""; ""] (mkBookkeeping [true; true] [0%Z; 1%Z; (-2)%Z]).
Proof.
  apply (unnamed_elements_bind_in_order
           (TupleType [field "" Int; field "" Int]) 2 producer_and_default).
  intros EFields Heq. injection Heq as <-. split; [reflexivity|].
  intros f Hf. apply elem_of_cons in Hf as [->|Hf]; [reflexivity|].
  apply list_elem_of_singleton in Hf as ->. reflexivity.
Defined.

(** * Further properties of the walker *)

Lemma fillSubExprs_same SubExprs : fillSubExprs SubExprs (omap id SubExprs) = SubExprs.
Proof.
  induction SubExprs as [|[Sub|] rest IH]; [done| |].
  - change (omap id (Some Sub :: rest)) with (Sub :: omap id rest). simpl.
    by rewrite IH.
  - change (omap id (None :: rest)) with (omap id rest).
    destruct rest as [|o rest]; [done|].
    change (fillSubExprs (None :: o :: rest) (omap id (o :: rest)))
      with (None :: fillSubExprs (o :: rest) (omap id (o :: rest))).
    by rewrite IH.
Qed.

Lemma fillBraceElements_same Elements :
  fillBraceElements Elements
    (omap (fun x => match x with
                    | inl e => Some e
                    | inr D => declInit D
                    end) Elements) = Elements.
Proof.
  induction Elements as [|[e|[N [DInit|]|N]] rest IH]; [done| | | |];
    cbn [omap list_omap declInit].
  - simpl. by rewrite IH.
  - simpl. by rewrite IH.
  - transitivity (inr (ValueDecl N None)
                    :: fillBraceElements rest
                         (omap (fun x => match x with
                                         | inl e => Some e
                                         | inr D => declInit D
                                         end) rest) : list (Expr + Decl Expr));
      [|by rewrite IH].
    simpl. by destruct (omap _ rest).
  - transitivity (inr (OtherDecl N)
                    :: fillBraceElements rest
                         (omap (fun x => match x with
                                         | inl e => Some e
                                         | inr D => declInit D
                                         end) rest) : list (Expr + Decl Expr));
      [|by rewrite IH].
    simpl. by destruct (omap _ rest).
Qed.

(** A node with its own children in its child slots is the node. *)
Lemma withChildren_children E : withChildren E (children E) = E.
Proof.
  destruct E as [| | | | | |Ty SubExprs Names|Ty [Sub|] N|Ty Sub No|Ty Callee Arg
                |Ty Elements|Ty Elements|Ty Input| |Ty Callee LHS RHS];
    try done; simpl.
  - by rewrite fillSubExprs_same.
  - by rewrite fillBraceElements_same.
Qed.

(** A walk of a list of children, each of which gives a node. *)
Lemma walkElements_nodes {Data : Type} (P : Expr -> Walk Data (option Expr))
    (r : Expr -> Expr) (Cs : list Expr) (d : Data) :
  (forall C d', C ∈ Cs -> fst (P C d') = Some (r C)) ->
  walkElements P Cs d = (Some (r <$> Cs), foldl (fun d' C => snd (P C d')) d Cs).
Proof.
  revert d. induction Cs as [|C rest IH]; intros d Hnodes; [done|].
  rewrite walkElements_cons. pose proof (Hnodes C d ltac:(by left)) as HC.
  change (foldl (fun d' C0 => snd (P C0 d')) d (C :: rest))
    with (foldl (fun d' C0 => snd (P C0 d')) (snd (P C d)) rest).
  destruct (P C d) as [[C'|] d1]; simpl in HC; [|done]. injection HC as ->.
  rewrite IH; [done|]. intros C0 d' HC0. apply Hnodes. by right.
Qed.

Lemma walkElements_not_null {Data : Type} (P : Expr -> Walk Data (option Expr))
    (Cs : list Expr) (d : Data) :
  (forall C d', C ∈ Cs -> fst (P C d') <> None) ->
  fst (walkElements P Cs d) <> None.
Proof.
  revert d. induction Cs as [|C rest IH]; intros d Hnodes; [done|].
  rewrite walkElements_cons. pose proof (Hnodes C d ltac:(by left)) as HC.
  destruct (P C d) as [[C'|] d1]; simpl in HC; [|done].
  assert (Hrest : fst (walkElements P rest d1) <> None).
  { apply IH. intros C0 d' HC0. apply Hnodes. by right. }
  by destruct (walkElements P rest d1) as [[rest'|] d2].
Qed.

(** X5.  A walk function that, after the children, returns the node it is
    given gets the expression itself back from the walk, whatever it returns
    before the children and whatever it does with its data: rejecting a node
    before its children does not change the tree, and no walk of this kind
    returns null. *)
Theorem walk_without_replacement_keeps_tree {Data : Type} (Fn : WalkFn Data)
    (E : Expr) (d : Data) :
  (forall E' d', fst (Fn E' Walk_PostOrder d') = Some E') ->
  fst (WalkExpr E Fn d) = Some E.
Proof.
  intros Hpost. unfold WalkExpr. revert d.
  induction E as [E IH] using Expr_children_ind. intros d.
  rewrite ProcessNode_unfold.
  destruct (Fn E Walk_PreOrder d) as [[E2|] d0]; [|done].
  rewrite Visit_children, (walkElements_nodes _ id) by (intros C d' HC; by apply IH).
  rewrite list_fmap_id, withChildren_children. apply Hpost.
Qed.

Lemma walk_without_replacement_keeps_tree_witness :
  fst (WalkExpr sequence_a_gb_c record []) = Some sequence_a_gb_c.
Proof.
  apply (walk_without_replacement_keeps_tree record sequence_a_gb_c []).
  intros E' d'. reflexivity.
Defined.

(** X6.  Only a null returned after the children of a node makes the walk
    return null: with a walk function that never returns null after the
    children, the walk returns a node, whatever the function returns before
    the children. *)
Theorem walk_null_only_after_children {Data : Type} (Fn : WalkFn Data)
    (E : Expr) (d : Data) :
  (forall E' d', fst (Fn E' Walk_PostOrder d') <> None) ->
  fst (WalkExpr E Fn d) <> None.
Proof.
  intros Hpost. unfold WalkExpr. revert d.
  induction E as [E IH] using Expr_children_ind. intros d.
  rewrite ProcessNode_unfold.
  destruct (Fn E Walk_PreOrder d) as [[E2|] d0]; [|done].
  rewrite Visit_children.
  pose proof (walkElements_not_null (ProcessNode Fn) (children E) d0) as Hnodes.
  destruct (walkElements (ProcessNode Fn) (children E) d0) as [[Cs|] d1].
  - apply Hpost.
  - exfalso. apply Hnodes; [|done]. intros C d' HC. by apply IH.
Qed.

Lemma walk_null_only_after_children_witness :
  fst (WalkExpr sequence_a_gb_c rejectApply []) <> None.
Proof.
  apply (walk_null_only_after_children rejectApply sequence_a_gb_c []).
  intros E' d'. unfold rejectApply. simpl. destruct (isRef "c" E'); discriminate.
Defined.

(** ** The order of the calls *)

Lemma foldl_record (Cs : list Expr) (f : Expr -> Log) (log : Log) :
  foldl (fun d' C => (d' ++ f C)%list) log Cs = (log ++ concat (f <$> Cs))%list.
Proof.
  revert log. induction Cs as [|C rest IH]; intros log; simpl.
  - by rewrite app_nil_r.
  - by rewrite IH, <- app_assoc.
Qed.

Lemma foldl_ext_elem {A B : Type} (f g : A -> B -> A) (l : list B) (a : A) :
  (forall a' x, x ∈ l -> f a' x = g a' x) -> foldl f a l = foldl g a l.
Proof.
  revert a. induction l as [|x l IH]; intros a Hext; [done|]. simpl.
  rewrite (Hext a x) by (by left). apply IH. intros a' y Hy. apply Hext. by right.
Qed.

Lemma ProcessNode_record E log :
  ProcessNode record E log
  = (Some E, (log ++ (E, Walk_PreOrder)
                       :: concat ((fun C => snd (ProcessNode record C [])) <$> children E)
                  ++ [(E, Walk_PostOrder)])%list).
Proof.
  revert log. induction E as [E IH] using Expr_children_ind. intros log.
  assert (Hchild : forall C d', C ∈ children E ->
            ProcessNode record C d'
            = (Some C, (d' ++ snd (ProcessNode record C []))%list)).
  { intros C d' HC. by rewrite (IH C HC d'), (IH C HC []). }
  rewrite ProcessNode_unfold. unfold record at 1.
  rewrite Visit_children, (walkElements_nodes _ id)
    by (intros C d' HC; by rewrite Hchild).
  rewrite list_fmap_id, withChildren_children. unfold record at 1. f_equal.
  rewrite (foldl_ext_elem _ (fun d' C => (d' ++ snd (ProcessNode record C []))%list))
    by (intros d' C HC; by rewrite Hchild).
  rewrite foldl_record, <- !app_assoc. done.
Qed.

Lemma trace_children E :
  trace E = ((E, Walk_PreOrder) :: concat (trace <$> children E)
             ++ [(E, Walk_PostOrder)])%list.
Proof. unfold trace at 1, WalkExpr. by rewrite ProcessNode_record. Qed.

(** X7.  The walk visits a node before its children, then the subtrees of
    its children one after the other, in their order, and then the node after
    its children: with the walk function that accepts every node, replaces
    none and records its calls, the record of the walk of a node is the call
    on the node before its children, the records of the walks of its
    children, and the call on the node after its children; the calls are
    added to those recorded before. *)
Theorem walk_visits_in_order (E : Expr) (log : Log) :
  WalkExpr E record log = (Some E, (log ++ trace E)%list)
  /\ trace E = ((E, Walk_PreOrder) :: concat (trace <$> children E)
                ++ [(E, Walk_PostOrder)])%list.
Proof.
  split; [|apply trace_children].
  unfold WalkExpr. by rewrite ProcessNode_record, trace_children.
Qed.

Lemma afterCalls_app {Data : Type} (Fn : WalkFn Data) l1 l2 (d : Data) :
  afterCalls Fn (l1 ++ l2) d = afterCalls Fn l2 (afterCalls Fn l1 d).
Proof. unfold afterCalls. apply foldl_app. Qed.

Lemma afterCalls_concat {Data : Type} (Fn : WalkFn Data) (Cs : list Expr) (d : Data) :
  afterCalls Fn (concat (trace <$> Cs)) d
  = foldl (fun d' C => afterCalls Fn (trace C) d') d Cs.
Proof.
  revert d. induction Cs as [|C rest IH]; intros d; [done|].
  simpl. by rewrite afterCalls_app, IH.
Qed.

(** X8.  With any walk function that accepts every node and replaces none,
    the walk makes the calls of [trace], in that order: it returns the
    expression, and its data are those that the calls of [trace] leave, one
    after the other. *)
Theorem walk_calls_along_trace {Data : Type} (Fn : WalkFn Data)
    (E : Expr) (d : Data) :
  (forall E' Order d', fst (Fn E' Order d') = Some E') ->
  WalkExpr E Fn d = (Some E, afterCalls Fn (trace E) d).
Proof.
  intros Hacc. unfold WalkExpr. revert d.
  induction E as [E IH] using Expr_children_ind. intros d.
  rewrite ProcessNode_unfold.
  pose proof (Hacc E Walk_PreOrder d) as Hpre.
  destruct (Fn E Walk_PreOrder d) as [[E2|] d0] eqn:HFn; [|done].
  rewrite Visit_children, (walkElements_nodes _ id)
    by (intros C d' HC; by rewrite (IH C HC d')).
  rewrite list_fmap_id, withChildren_children.
  rewrite (foldl_ext_elem _ (fun d' C => afterCalls Fn (trace C) d'))
    by (intros d' C HC; by rewrite (IH C HC d')).
  rewrite trace_children.
  change ((E, Walk_PreOrder) :: concat (trace <$> children E)
          ++ [(E, Walk_PostOrder)])%list
    with ([(E, Walk_PreOrder)] ++ concat (trace <$> children E)
          ++ [(E, Walk_PostOrder)])%list.
  rewrite !afterCalls_app, afterCalls_concat.
  unfold afterCalls at 3. simpl. rewrite HFn. simpl.
  unfold afterCalls at 1. simpl.
  set (d1 := foldl _ d0 (children E)).
  pose proof (Hacc E Walk_PostOrder d1) as Hpost.
  by destruct (Fn E Walk_PostOrder d1) as [o d2]; simpl in *; subst.
Qed.

(** The walk function that counts its calls, on [f(x)]: six calls. *)
Lemma walk_calls_along_trace_witness :
  WalkExpr (ApplyExpr None (ref "f") (ref "x"))
    (fun E (_ : WalkOrder) (n : nat) => (Some E, S n)) 0
  = (Some (ApplyExpr None (ref "f") (ref "x")), 6).
Proof.
  apply (walk_calls_along_trace (fun E (_ : WalkOrder) (n : nat) => (Some E, S n))
           (ApplyExpr None (ref "f") (ref "x")) 0).
  intros E' Order d'. reflexivity.
Defined.




(** ** Replacement after the children *)

Lemma ProcessNode_rewriter (g : Expr -> Expr) (E : Expr) :
  forall (Data : Type) (d : Data),
    ProcessNode (rewriter g) E d
    = (Some (g (withChildren E (rewritten g <$> children E))), d).
Proof.
  induction E as [E IH] using Expr_children_ind. intros Data d.
  assert (Hchild : forall C, C ∈ children E ->
            forall (Data' : Type) (d' : Data'),
              ProcessNode (rewriter g) C d' = (Some (rewritten g C), d')).
  { intros C HC Data' d'. unfold rewritten, WalkExpr.
    by rewrite (IH C HC Data' d'), (IH C HC unit tt). }
  rewrite ProcessNode_unfold. unfold rewriter at 1.
  rewrite Visit_children, (walkElements_nodes _ (rewritten g))
    by (intros C d' HC; by rewrite Hchild).
  unfold rewriter at 1. f_equal.
  induction (children E) as [|C rest IHrest]; [done|]. simpl.
  rewrite Hchild by (by left). simpl. apply IHrest.
  - intros C0 HC0. apply IH. by right.
  - intros C0 HC0. apply Hchild. by right.
Qed.

(** X10.  A walk function that accepts every node, replaces a node after its
    children by [g] of it and leaves its data alone rewrites the expression
    from the leaves to the root: the walk returns, with the data unchanged,
    [g] of the node whose child slots hold the results of the walks of its
    children. *)
Theorem walk_rewrites_bottom_up {Data : Type} (g : Expr -> Expr)
    (E : Expr) (d : Data) :
  WalkExpr E (rewriter g) d = (Some (rewritten g E), d)
  /\ rewritten g E = g (withChildren E (rewritten g <$> children E)).
Proof.
  assert (Hroot : rewritten g E = g (withChildren E (rewritten g <$> children E))).
  { unfold rewritten at 1, WalkExpr. by rewrite ProcessNode_rewriter. }
  split; [|done]. unfold WalkExpr. by rewrite ProcessNode_rewriter, Hroot.
Qed.

(** * Further properties of [getConversionRank] *)

(** X11.  A grouping parenthesis is transparent for the conversion rank: when
    the parenthesis has the canonical type of the expression inside it, its
    rank to any destination type is the rank of that expression (also when
    the destination is a dependent type: both computations stop at the
    assertion). *)
Theorem grouping_paren_is_transparent (PTy STy : TypeBase) (Sub : Expr)
    (Names : option (list Identifier)) (DestTy : TypeBase) :
  isGroupingParen [Some Sub] Names = true ->
  getType Sub = Some STy ->
  sameCanonicalType PTy STy = true ->
  getRankOfConversionTo (TupleExpr (Some PTy) [Some Sub] Names) DestTy
  = getRankOfConversionTo Sub DestTy.
Proof.
  intros Hparen HSub Hsame. apply sameCanonicalType_spec in Hsame.
  rewrite (getRankOfConversionTo_unfold (TupleExpr _ _ _)).
  unfold getConversionRank_body.
  destruct (isDependentType DestTy) eqn:Hdep;
    [by rewrite getRankOfConversionTo_dependent|].
  cbn [getType asTupleExpr]. rewrite Hparen.
  destruct (sameCanonicalType PTy DestTy) eqn:HD; [|done].
  apply sameCanonicalType_spec in HD.
  rewrite (getRankOfConversionTo_unfold Sub). unfold getConversionRank_body.
  rewrite Hdep, HSub.
  assert (HS : sameCanonicalType STy DestTy = true)
    by (apply sameCanonicalType_spec; congruence).
  by rewrite HS.
Qed.

(** [(f)] with [f : Int], of type [Int], to [() -> Int]. *)
Lemma grouping_paren_is_transparent_witness :
  getRankOfConversionTo (TupleExpr (Some Int) [Some (literal "4")] None) IntProducer
  = getRankOfConversionTo (literal "4") IntProducer.
Proof.
  apply (grouping_paren_is_transparent Int Int (literal "4") None IntProducer);
    reflexivity.
Defined.

(** X12.  Scalar to tuple (lines 263-271): an expression that is not a tuple
    expression, converted to a tuple type of another canonical type that has
    a field for scalar initialization, has the rank of its conversion to the
    type of that field. *)
Theorem scalar_to_tuple_rank (E : Expr) (ETy DestTy : TypeBase)
    (TT : list (TupleTypeElt TypeBase)) (k : nat) (Field : TupleTypeElt TypeBase) :
  asTupleExpr E = None ->
  getType E = Some ETy ->
  sameCanonicalType ETy DestTy = false ->
  getAsTupleType DestTy = Some TT ->
  getFieldForScalarInit TT = Z.of_nat k ->
  TT !! k = Some Field ->
  getRankOfConversionTo E DestTy = getRankOfConversionTo E (EltTy Field).
Proof.
  intros HE HTy Hdiff HTT Hk HField.
  rewrite (getRankOfConversionTo_unfold E DestTy). unfold getConversionRank_body.
  assert (Hdep : isDependentType DestTy = false).
  { unfold isDependentType. unfold getAsTupleType in HTT.
    by destruct (getDesugaredType DestTy). }
  rewrite Hdep, HTy, Hdiff, HE, HTT. cbn zeta. rewrite Hk.
  replace (negb (Z.of_nat k =? -1)%Z) with true
    by (symmetry; apply negb_true_iff, Z.eqb_neq; lia).
  by rewrite Nat2Z.id, HField.
Qed.

(** [4] to [(a : () -> Int, b : Int = ...)]: the rank of [4] to [() -> Int]. *)
Lemma scalar_to_tuple_rank_witness :
  getRankOfConversionTo (literal "4")
    (TupleType [field "a" IntProducer; fieldWithDefault "b" Int])
  = getRankOfConversionTo (literal "4") IntProducer.
Proof.
  apply (scalar_to_tuple_rank (literal "4") Int
           (TupleType [field "a" IntProducer; fieldWithDefault "b" Int])
           [field "a" IntProducer; fieldWithDefault "b" Int] 0
           (field "a" IntProducer)); reflexivity.
Defined.

(** X13.  An auto-closure needs a function type: the conversion to a type
    that is neither a tuple type nor a function type never has the rank
    AutoClosure; it is Identity or Invalid, or the computation stops. *)
Theorem no_closure_without_function_type (E : Expr) (DestTy : TypeBase) :
  getAsTupleType DestTy = None ->
  getAsFunctionType DestTy = None ->
  getRankOfConversionTo E DestTy = Ranked CR_Identity
  \/ getRankOfConversionTo E DestTy = Ranked CR_Invalid
  \/ getRankOfConversionTo E DestTy = Fatal.
Proof.
  intros HTT HFT. induction E as [E IH] using Expr_children_ind.
  rewrite getRankOfConversionTo_unfold. unfold getConversionRank_body.
  destruct (isDependentType DestTy); [auto|].
  destruct (getType E) as [ETy|]; [|auto].
  destruct (sameCanonicalType ETy DestTy); [auto|].
  unfold autoClosureRank. rewrite HTT, HFT.
  destruct (asTupleExpr E) as [[SubExprs Names]|] eqn:HE; [|auto].
  destruct (isGroupingParen SubExprs Names); [|auto].
  destruct SubExprs as [|[Sub|] rest]; [auto| |auto].
  apply IH. destruct E; try discriminate. injection HE as -> ->. by left.
Qed.

Lemma no_closure_without_function_type_witness :
  getRankOfConversionTo pair_1_2 Int = Ranked CR_Identity
  \/ getRankOfConversionTo pair_1_2 Int = Ranked CR_Invalid
  \/ getRankOfConversionTo pair_1_2 Int = Fatal.
Proof. apply (no_closure_without_function_type pair_1_2 Int); reflexivity. Defined.

(** * [ClosureExpr::getNumArgs] *)

Lemma getAsTupleType_canonical_length (T : TypeBase) :
  length <$> getAsTupleType (getCanonicalType T) = length <$> getAsTupleType T.
Proof.
  induction T as [n| |n U IH|Fields _|In Res _ _] using TypeBase_nested_ind;
    try done.
  unfold getAsTupleType. simpl. by rewrite length_map.
Qed.

Lemma getNumArgs_canonical (T : TypeBase) :
  getNumArgs (Some (getCanonicalType T)) = getNumArgs (Some T).
Proof.
  induction T as [n| |n U IH|Fields _|In Res _ _] using TypeBase_nested_ind;
    try done.
  unfold getNumArgs, getAsFunctionType. simpl.
  pose proof (getAsTupleType_canonical_length In) as Hlen.
  destruct (getAsTupleType (getCanonicalType In)), (getAsTupleType In);
    simpl in Hlen; congruence.
Qed.

(** X14.  The number of arguments of a closure does not depend on the names
    given to types: two function types with the same canonical type have the
    same number of arguments. *)
Theorem getNumArgs_of_canonical_type (T T' : TypeBase) :
  sameCanonicalType T T' = true ->
  getNumArgs (Some T) = getNumArgs (Some T').
Proof.
  intros Hsame. apply sameCanonicalType_spec in Hsame.
  by rewrite <- (getNumArgs_canonical T), <- (getNumArgs_canonical T'), Hsame.
Qed.

(** [(Int, Int) -> Int] and the same type written with an alias [Pair] for
    its input: two arguments. *)
Lemma getNumArgs_of_canonical_type_witness :
  getNumArgs (Some (FunctionType (TupleType [field "" Int; field "" Int]) Int))
  = getNumArgs
      (Some (FunctionType
               (NameAliasType "Pair" (TupleType [field "" Int; field "" Int])) Int)).
Proof.
  apply (getNumArgs_of_canonical_type
           (FunctionType (TupleType [field "" Int; field "" Int]) Int)
           (FunctionType
              (NameAliasType "Pair" (TupleType [field "" Int; field "" Int])) Int)).
  reflexivity.
Defined.

(** * Tuple expressions without names *)

Lemma getAsTupleType_not_dependent (T : TypeBase) Fields :
  getAsTupleType T = Some Fields -> isDependentType T = false.
Proof.
  unfold isDependentType, getAsTupleType. by destruct (getDesugaredType T).
Qed.

Lemma structuralRank_defaults ETy Sources Fields i :
  (forall k, i <= k -> k < i + length Fields -> Sources !! k = Some (-2)%Z) ->
  structuralRank ETy Sources Fields i = Ranked CR_Identity.
Proof.
  revert i. induction Fields as [|f rest IH]; intros i Hdef; [done|].
  simpl in *. rewrite (Hdef i) by lia. simpl. apply IH. intros k Hk1 Hk2.
  apply Hdef; lia.
Qed.

Lemma literalRank_defaults rank SubExprs Sources Fields i CurRank :
  (forall k, i <= k -> k < i + length Fields -> Sources !! k = Some (-2)%Z) ->
  literalRank rank SubExprs Sources Fields i CurRank = Ranked CurRank.
Proof.
  revert i. induction Fields as [|f rest IH]; intros i Hdef; [done|].
  simpl in *. rewrite (Hdef i) by lia. simpl. apply IH. intros k Hk1 Hk2.
  apply Hdef; lia.
Qed.

(** X15.  The empty tuple takes the default values: the tuple expression
    without elements converts with rank Identity to every tuple type all of
    whose fields have a default value. *)
Theorem empty_tuple_takes_defaults (T DestTy : TypeBase)
    (Names : option (list Identifier)) (Fields : list (TupleTypeElt TypeBase)) :
  getAsTupleType T = Some [] ->
  getAsTupleType DestTy = Some Fields ->
  forallb Init Fields = true ->
  getRankOfConversionTo (TupleExpr (Some T) [] Names) DestTy = Ranked CR_Identity.
Proof.
  intros HT HDest Hinit.
  rewrite getRankOfConversionTo_unfold. unfold getConversionRank_body.
  rewrite (getAsTupleType_not_dependent _ _ HDest). cbn [getType asTupleExpr].
  destruct (sameCanonicalType T DestTy); [done|].
  change (isGroupingParen [] Names) with false. cbn match. rewrite HDest.
  unfold getTupleToTupleTypeConversionRank. cbn [getType length].
  rewrite reconcileElements_unnamed
    by (intros EFields HE; rewrite HT in HE; injection HE as <-;
        split; [done|]; intros f Hf; by apply elem_of_nil in Hf).
  rewrite drop_0, Hinit. cbn [Nat.leb andb seq fmap list_fmap app].
  rewrite Nat.sub_0_r.
  assert (Hdef : forall k, 0 <= k -> k < 0 + length Fields ->
            replicate (length Fields) (-2)%Z !! k = Some (-2)%Z)
    by (intros k _ Hk; apply lookup_replicate_2; lia).
  destruct (convertsInPlace _ _); cbn [asTupleExpr DestElementSources].
  - by apply literalRank_defaults.
  - by apply structuralRank_defaults.
Qed.

(** [()] to [(c : Int = ...)]. *)
Lemma empty_tuple_takes_defaults_witness :
  getRankOfConversionTo (TupleExpr (Some (TupleType [])) [] None)
    (TupleType [fieldWithDefault "c" Int])
  = Ranked CR_Identity.
Proof.
  apply (empty_tuple_takes_defaults (TupleType []) (TupleType [fieldWithDefault "c" Int])
           None [fieldWithDefault "c" Int]); reflexivity.
Defined.

Lemma elementRanks_in_order rank SubExprs Fields a :
  a + length Fields = length SubExprs ->
  elementRanks rank SubExprs (Z.of_nat <$> seq a (length Fields)) Fields
  = zip_with (fun o f => match o with
                         | Some Elt => rank Elt (EltTy f)
                         | None => Fatal
                         end) (drop a SubExprs) Fields.
Proof.
  revert a. induction Fields as [|f rest IH]; intros a Hlen.
  - simpl. by destruct (drop a SubExprs).
  - simpl in Hlen.
    destruct (SubExprs !! a) as [o|] eqn:Ho; [|apply lookup_ge_None in Ho; lia].
    rewrite (drop_S _ _ _ Ho). cbn [length seq fmap list_fmap elementRanks zip_with].
    replace (Z.of_nat a =? -2)%Z with false by (symmetry; apply Z.eqb_neq; lia).
    rewrite Nat2Z.id, Ho, IH by lia. by destruct o.
Qed.

(** X16.  A tuple expression without names, with as many elements as the
    destination tuple type has fields (and not one), converts element by
    element: its rank is the worst of the ranks of element [i] to the type of
    field [i], for every [i]; the names of the destination's fields play no
    part. *)
Theorem unnamed_literal_converts_elementwise (T DestTy : TypeBase)
    (SubExprs : list (option Expr)) (Names : option (list Identifier))
    (Fields : list (TupleTypeElt TypeBase)) :
  (forall EFields, getAsTupleType T = Some EFields ->
     length EFields = length SubExprs /\ forall f, f ∈ EFields -> Name f = "") ->
  sameCanonicalType T DestTy = false ->
  getAsTupleType DestTy = Some Fields ->
  length Fields = length SubExprs ->
  length SubExprs <> 1 ->
  getRankOfConversionTo (TupleExpr (Some T) SubExprs Names) DestTy
  = worstRank (zip_with (fun o f => match o with
                                    | Some Elt => getRankOfConversionTo Elt (EltTy f)
                                    | None => Fatal
                                    end) SubExprs Fields).
Proof.
  intros Hunnamed Hdiff HDest Hlen Hone.
  rewrite getRankOfConversionTo_unfold. unfold getConversionRank_body.
  rewrite (getAsTupleType_not_dependent _ _ HDest). cbn [getType asTupleExpr].
  rewrite Hdiff.
  assert (Hparen : isGroupingParen SubExprs Names = false).
  { unfold isGroupingParen. apply Nat.eqb_neq in Hone. by rewrite Hone. }
  rewrite Hparen, HDest.
  unfold getTupleToTupleTypeConversionRank. cbn [getType].
  rewrite reconcileElements_unnamed by done.
  rewrite <- Hlen, Nat.leb_refl, drop_all, Nat.sub_diag. cbn [forallb andb replicate].
  rewrite app_nil_r. unfold convertsInPlace. cbn [asTupleExpr DestElementSources].
  rewrite <- Hlen in Hone. apply Nat.eqb_neq in Hone.
  rewrite <- Hlen, Hone, Nat.eqb_refl. cbn [negb andb].
  rewrite literalRank_worstRank.
  - rewrite drop_0, elementRanks_in_order by (simpl; lia). rewrite drop_0.
    by destruct (worstRank _) as [[]| |].
  - by rewrite length_fmap, length_seq.
  - intros k _ Hk. apply list_lookup_fmap_Some in Hk as (j & Hj & _). lia.
Qed.

(** [(1, 2)] to [(a : () -> Int, b : Int)]: the first element becomes a
    closure, the second converts with Identity. *)
Lemma unnamed_literal_converts_elementwise_witness :
  getRankOfConversionTo pair_1_2 (TupleType [field "a" IntProducer; field "b" Int])
  = worstRank [getRankOfConversionTo (literal "1") IntProducer;
               getRankOfConversionTo (literal "2") Int].
Proof.
  apply (unnamed_literal_converts_elementwise
           (TupleType [field "" Int; field "" Int])
           (TupleType [field "a" IntProducer; field "b" Int])
           [Some (literal "1"); Some (literal "2")] None
           [field "a" IntProducer; field "b" Int]);
    [|reflexivity|reflexivity|reflexivity|discriminate].
  intros EFields Heq. injection Heq as <-. split; [reflexivity|].
  intros f Hf. apply elem_of_cons in Hf as [->|Hf]; [reflexivity|].
  apply list_elem_of_singleton in Hf as ->. reflexivity.
Defined.

(** * Input elements that all have names *)

Lemma filter_none {A : Type} (P : A -> bool) (l : list A) :
  (forall x, In x l -> P x = false) -> List.filter P l = [].
Proof.
  induction l as [|x l IH]; intros HP; [done|]. simpl.
  rewrite (HP x) by (by left). apply IH. intros y Hy. apply HP. by right.
Qed.

Lemma leftOverInputs_all_named IdentList Used Next :
  (forall n, n ∈ IdentList -> empty n = false) ->
  leftOverInputs IdentList Used Next (length IdentList) = [].
Proof.
  intros Hnamed. unfold leftOverInputs. apply filter_none.
  intros j Hj. apply in_seq in Hj. unfold isLeftOver.
  destruct (IdentList !! j) as [n|] eqn:Hn;
    [|apply lookup_ge_None in Hn; unfold Identifier in *; lia].
  simpl. rewrite (Hnamed n) by (by eapply list_elem_of_lookup_2).
  apply andb_false_r.
Qed.

Lemma assignPositional_exhausted (g : TupleTypeElt TypeBase -> Z) Fields :
  assignPositional Fields (g <$> Fields) []
  = if forallb (fun f => negb (g f =? -1)%Z || Init f) Fields
    then Some ((fun f => if (g f =? -1)%Z then (-2)%Z else g f) <$> Fields)
    else None.
Proof.
  induction Fields as [|f rest IH]; [done|].
  cbn [fmap list_fmap assignPositional forallb]. rewrite IH.
  destruct (g f =? -1)%Z; simpl.
  - destruct (Init f); [|done]. simpl. by destruct (forallb _ rest).
  - by destruct (forallb _ rest).
Qed.

Lemma anyUnused_all_used Used :
  (forall j, j < length Used -> Used !! j = Some true) ->
  Used = replicate (length Used) true.
Proof.
  intros Hall. apply list_eq. intros j.
  destruct (decide (j < length Used)) as [Hj|Hj].
  - by rewrite Hall, lookup_replicate_2.
  - rewrite lookup_ge_None_2 by lia.
    symmetry. apply lookup_ge_None_2. rewrite length_replicate. lia.
Qed.

Lemma anyUnused_true Used j :
  j < length Used -> Used !! j <> Some true -> anyUnused Used = true.
Proof.
  intros Hj Hn. destruct (anyUnused Used) eqn:Hany; [done|].
  by destruct Hn; apply anyUnused_false.
Qed.

(** With distinct names, the input element a field takes by its name is the
    one input element of that name. *)
Lemma namedSource_NoDup IdentList f j :
  NoDup IdentList -> empty (Name f) = false ->
  IdentList !! j = Some (Name f) ->
  namedSource IdentList f = Z.of_nat j.
Proof.
  intros Hdistinct Hname Hj. unfold namedSource. rewrite Hname.
  rewrite (findNamedInput_first IdentList (Name f) 0 j Hj); [done|].
  intros j' Hlt Hj'. pose proof (NoDup_lookup _ _ _ _ Hdistinct Hj Hj'). lia.
Qed.

Lemma reconcileElements_named (T : TypeBase) (EFields DestTy : list (TupleTypeElt TypeBase)) :
  getAsTupleType T = Some EFields ->
  NoDup (Name <$> EFields) ->
  (forall n, n ∈ Name <$> EFields -> empty n = false) ->
  reconcileElements (Some T) (length EFields) DestTy
  = if forallb (fun f => negb (namedSource (Name <$> EFields) f =? -1)%Z || Init f)
         DestTy
       && forallb (fun n => existsb (fun f => String.eqb (Name f) n) DestTy)
            (Name <$> EFields)
    then Rec_Bound (Name <$> EFields)
           (mkBookkeeping (replicate (length EFields) true)
              ((fun f => if (namedSource (Name <$> EFields) f =? -1)%Z
                         then (-2)%Z else namedSource (Name <$> EFields) f)
               <$> DestTy))
    else Rec_Invalid.
Proof.
  intros HT Hdistinct Hnamed.
  set (IdentList := Name <$> EFields) in *.
  assert (HIL : length IdentList = length EFields) by apply length_fmap.
  destruct (namedMatching T (length EFields) DestTy) as [[IL B1]|] eqn:Hnm;
    [|unfold namedMatching in Hnm; by rewrite HT, Nat.eqb_refl in Hnm].
  assert (IL = IdentList) as ->.
  { unfold namedMatching in Hnm. rewrite HT, Nat.eqb_refl in Hnm.
    by injection Hnm as <- _. }
  destruct (namedMatching_wellFormed _ _ _ _ _ Hnm) as (HU & HD & _).
  destruct (namedMatching_sources _ _ _ _ _ Hnm) as (_ & Hsrc & Hused).
  assert (HS : DestElementSources B1 = namedSource IdentList <$> DestTy).
  { apply list_eq. intros i. rewrite list_lookup_fmap.
    destruct (DestTy !! i) as [f|] eqn:Hf; [by rewrite (Hsrc i f Hf)|].
    apply lookup_ge_None in Hf. apply lookup_ge_None. lia. }
  unfold reconcileElements. rewrite Hnm.
  rewrite resolveUnnamed_assign by (lia || done).
  rewrite drop_0, take_0, <- HIL, leftOverInputs_all_named, HS by done.
  rewrite take_nil, assignPositional_exhausted.
  destruct (forallb _ DestTy); [|done]. cbn [fmap option_fmap option_map andb].
  cbn [markUsed foldl UsedElements app].
  match goal with
  | |- context [forallb ?p IdentList] => destruct (forallb p IdentList) eqn:Hcover
  end.
  - assert (Hall : UsedElements B1 = replicate (length IdentList) true).
    { rewrite <- HIL in HU. rewrite <- HU. apply anyUnused_all_used.
      intros j Hj. apply Hused. split; [lia|].
      destruct (IdentList !! j) as [n|] eqn:Hn; [|apply lookup_ge_None in Hn; lia].
      pose proof (proj1 (forallb_forall _ _) Hcover n) as Hex.
      rewrite <- list_elem_of_In in Hex.
      specialize (Hex (list_elem_of_lookup_2 _ _ _ Hn)).
      apply existsb_exists in Hex as (f & Hf & Hfn).
      apply String.eqb_eq in Hfn. apply list_elem_of_In in Hf.
      exists f. split; [done|]. subst n.
      apply namedSource_NoDup; [done| |done].
      apply Hnamed. by eapply list_elem_of_lookup_2. }
    by rewrite Hall, anyUnused_replicate.
  - assert (Hsome : exists j n, IdentList !! j = Some n
                       /\ forall f, f ∈ DestTy -> Name f <> n).
    { clear -Hcover. induction IdentList as [|n rest IH]; [done|].
      simpl in Hcover. apply andb_false_iff in Hcover as [Hn|Hrest].
      - exists 0, n. split; [done|]. intros f Hf Heq.
        assert (existsb (fun f => String.eqb (Name f) n) DestTy = true);
          [|congruence].
        apply existsb_exists. exists f. split; [by apply list_elem_of_In|].
        by apply String.eqb_eq.
      - destruct (IH Hrest) as (j & m & Hj & Hm). by exists (S j), m. }
    destruct Hsome as (j & n & Hj & Hn).
    rewrite (anyUnused_true _ j); [done| |].
    + apply lookup_lt_Some in Hj. lia.
    + intros Htrue. apply Hused in Htrue as (_ & f & Hf & Hfj).
      assert (Hne : namedSource IdentList f <> (-1)%Z) by lia.
      apply namedSource_found in Hne as (j' & Hj' & Hname & _).
      assert (j' = j) as -> by lia.
      apply (Hn f Hf). congruence.
Qed.

(** X17.  When the input elements all have names, which are distinct, the
    matching is by name alone: every field takes the input element of its
    name, and a field without a name, or whose name no input element has,
    takes its default value.  The matching succeeds exactly when every such
    field has a default value and every input element has the name of some
    field, and is Invalid otherwise. *)
Theorem named_elements_bind_by_name (T : TypeBase)
    (EFields DestTy : list (TupleTypeElt TypeBase)) :
  getAsTupleType T = Some EFields ->
  NoDup (Name <$> EFields) ->
  (forall n, n ∈ Name <$> EFields -> empty n = false) ->
  reconcileElements (Some T) (length EFields) DestTy
  = if forallb (fun f => negb (namedSource (Name <$> EFields) f =? -1)%Z || Init f)
         DestTy
       && forallb (fun n => existsb (fun f => String.eqb (Name f) n) DestTy)
            (Name <$> EFields)
    then Rec_Bound (Name <$> EFields)
           (mkBookkeeping (replicate (length EFields) true)
              ((fun f => if (namedSource (Name <$> EFields) f =? -1)%Z
                         then (-2)%Z else namedSource (Name <$> EFields) f)
               <$> DestTy))
    else Rec_Invalid.
Proof. apply reconcileElements_named. Qed.

(** The swizzle of the source's comment: [(.y = 4, .x = 3)] to
    [(x : Int, y : Int)]; field [x] takes input 1, field [y] input 0. *)
Lemma named_elements_bind_by_name_witness :
  reconcileElements (getType swizzle_4_3) 2 [field "x" Int; field "y" Int]
  = Rec_Bound ["y"; "x"] (mkBookkeeping [true; true] [1%Z; 0%Z]).
Proof.
  apply (named_elements_bind_by_name (TupleType [field "y" Int; field "x" Int])
           [field "y" Int; field "x" Int] [field "x" Int; field "y" Int]).
  - reflexivity.
  - simpl. apply NoDup_cons_2; [|apply NoDup_singleton].
    intros Hin. apply list_elem_of_singleton in Hin. discriminate.
  - intros n Hn. simpl in Hn. apply elem_of_cons in Hn as [->|Hn]; [reflexivity|].
    apply list_elem_of_singleton in Hn as ->. reflexivity.
Defined.

Lemma namedSource_of_field (EFields : list (TupleTypeElt TypeBase)) f :
  NoDup (Name <$> EFields) ->
  (forall n, n ∈ Name <$> EFields -> empty n = false) ->
  f ∈ EFields ->
  exists j, EFields !! j = Some f /\ namedSource (Name <$> EFields) f = Z.of_nat j.
Proof.
  intros Hdistinct Hnamed Hf. apply list_elem_of_lookup_1 in Hf as [j Hj].
  exists j. split; [done|].
  assert (Hn : (Name <$> EFields) !! j = Some (Name f))
    by (by rewrite list_lookup_fmap, Hj).
  apply namedSource_NoDup; [done| |done].
  apply Hnamed. by eapply list_elem_of_lookup_2.
Qed.

(** X18.  A tuple value may be permuted (the comment of lines 216-217): an
    expression that is not a tuple expression, whose type is a tuple type with
    distinct field names, converts with rank Identity to every tuple type that
    has the same fields in another order (and no field for scalar
    initialization). *)
Theorem permuted_tuple_value_is_identity (E : Expr) (T DestTy : TypeBase)
    (EFields DFields : list (TupleTypeElt TypeBase)) :
  asTupleExpr E = None ->
  getType E = Some T ->
  getAsTupleType T = Some EFields ->
  getAsTupleType DestTy = Some DFields ->
  NoDup (Name <$> EFields) ->
  (forall n, n ∈ Name <$> EFields -> empty n = false) ->
  DFields ≡ₚ EFields ->
  getFieldForScalarInit DFields = (-1)%Z ->
  getRankOfConversionTo E DestTy = Ranked CR_Identity.
Proof.
  intros HE HTy HT HDest Hdistinct Hnamed Hperm Hscalar.
  rewrite getRankOfConversionTo_unfold. unfold getConversionRank_body.
  rewrite (getAsTupleType_not_dependent _ _ HDest), HTy.
  destruct (sameCanonicalType T DestTy); [done|].
  rewrite HE, HDest. cbn zeta. rewrite Hscalar, HT.
  change (negb (-1 =? -1)%Z) with false. cbn match.
  unfold getTupleToTupleTypeConversionRank.
  rewrite HTy, reconcileElements_named by done.
  assert (Hsrc : forall f, f ∈ DFields ->
            exists j, EFields !! j = Some f
                      /\ namedSource (Name <$> EFields) f = Z.of_nat j).
  { intros f Hf. apply namedSource_of_field; [done..|]. by rewrite <- Hperm. }
  assert (Hfields : forallb (fun f => negb (namedSource (Name <$> EFields) f =? -1)%Z
                                      || Init f) DFields = true).
  { apply forallb_forall. intros f Hf. apply list_elem_of_In in Hf.
    destruct (Hsrc f Hf) as (j & _ & ->).
    replace (Z.of_nat j =? -1)%Z with false by (symmetry; apply Z.eqb_neq; lia).
    done. }
  assert (Hcover : forallb (fun n => existsb (fun f => String.eqb (Name f) n) DFields)
                     (Name <$> EFields) = true).
  { apply forallb_forall. intros n Hn. apply list_elem_of_In in Hn.
    apply list_elem_of_fmap in Hn as (g & -> & Hg).
    apply existsb_exists. exists g. split.
    - apply list_elem_of_In. by rewrite Hperm.
    - apply String.eqb_refl. }
  rewrite Hfields, Hcover. cbn [andb].
  unfold convertsInPlace. rewrite HE. cbn [DestElementSources mbind option_bind].
  rewrite HT.
  assert (Hbound : forall k f, DFields !! k = Some f ->
            ((fun f => if (namedSource (Name <$> EFields) f =? -1)%Z then (-2)%Z
                       else namedSource (Name <$> EFields) f) <$> DFields) !! k
            = Some (namedSource (Name <$> EFields) f)
            /\ exists j, EFields !! j = Some f
                         /\ namedSource (Name <$> EFields) f = Z.of_nat j).
  { intros k f Hf. rewrite list_lookup_fmap, Hf. simpl.
    destruct (Hsrc f) as (j & Hj & Hs); [by eapply list_elem_of_lookup_2|].
    split; [|by exists j]. rewrite Hs.
    by replace (Z.of_nat j =? -1)%Z with false by (symmetry; apply Z.eqb_neq; lia). }
  match goal with
  | |- structuralRank _ ?Sources _ _ = _ =>
      destruct (structuralRank_cases EFields Sources DFields 0)
        as [[Hid _]|[_ (k & f & s & g & Hf & Hs & _ & Hg & Hdiff)]]
  end.
  - intros k f Hf. destruct (Hbound k f Hf) as (Hk & j & Hj & Hs).
    exists (Z.of_nat j). rewrite <- Hs. split; [done|]. right.
    apply lookup_lt_Some in Hj. lia.
  - done.
  - destruct (Hbound k f Hf) as (Hk & j & Hj & Hsj).
    simpl in Hs. rewrite Hk in Hs. injection Hs as <-.
    rewrite Hsj, Nat2Z.id, Hj in Hg. injection Hg as <-.
    by rewrite sameCanonicalType_refl in Hdiff.
Qed.

(** A variable of type [(x : Int, y : Int)] to [(y : Int, x : Int)]. *)
Lemma permuted_tuple_value_is_identity_witness :
  getRankOfConversionTo point_variable (TupleType [field "y" Int; field "x" Int])
  = Ranked CR_Identity.
Proof.
  apply (permuted_tuple_value_is_identity point_variable
           (TupleType [field "x" Int; field "y" Int])
           (TupleType [field "y" Int; field "x" Int])
           [field "x" Int; field "y" Int] [field "y" Int; field "x" Int]);
    try reflexivity.
  - simpl. apply NoDup_cons_2; [|apply NoDup_singleton].
    intros Hin. apply list_elem_of_singleton in Hin. discriminate.
  - intros n Hn. simpl in Hn. apply elem_of_cons in Hn as [->|Hn]; [reflexivity|].
    apply list_elem_of_singleton in Hn as ->. reflexivity.
  - apply perm_swap.
Defined.

(** * [Expr::getLocStart] *)

Lemma find_app_found {A : Type} (P : A -> bool) (l1 l2 : list A) (x : A) :
  List.find P l1 = Some x -> List.find P (l1 ++ l2) = Some x.
Proof.
  induction l1 as [|y l1 IH]; [done|]. simpl. by destruct (P y).
Qed.

(** X19.  The start of an expression is the location stored in the first node
    with a location field that a walk of the expression comes to: when
    [getLocStart] returns a location, it is that of the first such node in
    the order of the walk, and the walk comes to it before its children. *)
Theorem getLocStart_first_in_walk_order {SMLoc : Type} (storedLoc : Expr -> SMLoc)
    (E : Expr) (L : SMLoc) :
  getLocStart storedLoc E = Some L ->
  exists N, List.find (fun c => hasStoredLoc (fst c)) (trace E)
            = Some (N, Walk_PreOrder)
            /\ L = storedLoc N.
Proof.
  revert L. induction E as [E IH] using Expr_children_ind. intros L HL.
  rewrite trace_children.
  assert (Hchild : forall C rest, children E = C :: rest -> hasStoredLoc E = false ->
            getLocStart storedLoc C = Some L ->
            exists N, List.find (fun c => hasStoredLoc (fst c))
                        ((E, Walk_PreOrder) :: concat (trace <$> children E)
                         ++ [(E, Walk_PostOrder)])%list
                      = Some (N, Walk_PreOrder)
                      /\ L = storedLoc N).
  { intros C rest HC HE HLC. rewrite HC.
    destruct (IH C) with (L := L) as (N & HN & HLN); [rewrite HC; by left|done|].
    exists N. split; [|done]. cbn [List.find fst]. rewrite HE.
    rewrite fmap_cons. cbn [concat]. rewrite <- app_assoc.
    by apply find_app_found. }
  destruct E as [| | | | | |Ty SubExprs Names|Ty [Sub|] N|Ty Sub No|Ty Callee Arg
                |Ty Elements|Ty Elements|Ty Input| |Ty Callee LHS RHS];
    simpl in HL;
    try (injection HL as <-; eexists; split; [reflexivity|reflexivity]);
    try discriminate;
    try (by eapply Hchild).
  destruct Elements as [|First rest]; [done|]. by eapply Hchild.
Qed.

(** [f(x)]: the start is the location of [f]. *)
Lemma getLocStart_first_in_walk_order_witness :
  exists N, List.find (fun c => hasStoredLoc (fst c))
              (trace (ApplyExpr None (ref "f") (ref "x")))
            = Some (N, Walk_PreOrder)
            /\ ref "f" = id N.
Proof.
  apply (getLocStart_first_in_walk_order id (ApplyExpr None (ref "f") (ref "x"))
           (ref "f")).
  reflexivity.
Defined.

(** * The printer *)

Lemma string_append_cons (x : ascii) (a b : string) :
  String x a ++ b = String x (a ++ b).
Proof. reflexivity. Qed.

Lemma string_append_assoc (a b c : string) : (a ++ b) ++ c = a ++ (b ++ c).
Proof.
  induction a as [|x a IH]; [done|]. by rewrite !string_append_cons, IH.
Qed.

Lemma string_append_nil_r (a : string) : a ++ "" = a.
Proof. induction a as [|x a IH]; [done|]. by rewrite string_append_cons, IH. Qed.

Lemma unsigned_range (z : Z) : (0 <= unsigned z < 2 ^ 32)%Z.
Proof. unfold unsigned. apply Z.mod_pos_bound. lia. Qed.

(** [Indent += 2] and then [Indent -= 2] give the indentation back. *)
Lemma unsigned_restore (i : Z) :
  (0 <= i < 2 ^ 32)%Z -> unsigned (unsigned (i + 2) - 2) = i.
Proof.
  intros Hi. unfold unsigned. rewrite Zminus_mod_idemp_l.
  replace (i + 2 - 2)%Z with i by lia. by apply Z.mod_small.
Qed.

Lemma printAll_app (ms1 ms2 : list Print) (st : PrintState) :
  printAll (ms1 ++ ms2) st
  = match printAll ms1 st with
    | Some st1 => printAll ms2 st1
    | None => None
    end.
Proof.
  revert st. induction ms1 as [|m ms1 IH]; intros st; [done|]. simpl.
  destruct (m st) as [st1|]; [apply IH|done].
Qed.

Section Printer.
Variable printType : Type_ -> string.
Variable printDecl : Decl Expr -> Z -> string.
Variable numResolvedDecls : Expr -> nat.
(** What a stop of the printer shows. *)
Variable bad : Prop.

Lemma appends_write Text i : appends bad (write Text) i.
Proof. left. by exists Text. Qed.

Lemma appends_indent i : appends bad indent i.
Proof. left. by exists (spaces (Z.to_nat i)). Qed.

Lemma appends_indentElement i : appends bad indentElement i.
Proof. left. by exists (spaces (Z.to_nat (unsigned (i + 2)))). Qed.

Lemma appends_PrintRec_Decl D i : appends bad (PrintRec_Decl printDecl D) i.
Proof. left. by exists (printDecl D (unsigned (i + 2))). Qed.

Lemma appends_printAll ms i :
  Forall (fun m => appends bad m i) ms -> appends bad (printAll ms) i.
Proof.
  induction ms as [|m ms IH]; intros Hms.
  - left. exists "". intros Stream. simpl. by rewrite string_append_nil_r.
  - apply Forall_cons_iff in Hms as [Hm Hms].
    destruct Hm as [[t Ht]|[Hstop Hbad]].
    + destruct (IH Hms) as [[t' Ht']|[Hstop Hbad]].
      * left. exists (t ++ t'). intros Stream. simpl.
        by rewrite Ht, Ht', string_append_assoc.
      * right. split; [|done]. intros Stream. simpl. by rewrite Ht, Hstop.
    + right. split; [|done]. intros Stream. simpl. by rewrite Hstop.
Qed.

Lemma appends_printElements {A : Type} (printElement : A -> Print) (l : list A) i :
  (forall x, x ∈ l -> appends bad (printElement x) i) ->
  appends bad (printElements printElement l) i.
Proof.
  induction l as [|x l IH]; intros Hl; cbn [printElements].
  - by apply appends_printAll.
  - apply appends_printAll. repeat apply Forall_cons; [| | |done].
    + apply appends_write.
    + apply Hl. by left.
    + apply IH. intros y Hy. apply Hl. by right.
Qed.

Lemma appends_PrintRec (V : Expr -> Print) (E : Expr) i :
  (0 <= i < 2 ^ 32)%Z ->
  appends bad (V E) (unsigned (i + 2)) -> appends bad (PrintRec V (Some E)) i.
Proof.
  intros Hi [[t Ht]|[Hstop Hbad]].
  - left. exists t. intros Stream. unfold PrintRec. simpl.
    rewrite Ht. cbn [OS Indent]. by rewrite unsigned_restore.
  - right. split; [|done]. intros Stream. unfold PrintRec. simpl.
    by rewrite Hstop.
Qed.

(** The statements of a visit function: the indentation, an opening
    parenthesis, and a closing parenthesis at the end. *)
Lemma clause_printAll (Last Kind : string) (rest : list Print) i :
  rest = (removelast rest ++ [write (Last ++ ")")])%list ->
  Forall (fun m => appends bad m i) (removelast rest) ->
  (exists Text, isClause i Text
                /\ appendsText (printAll (indent :: write (String "(" Kind) :: rest))
                     i Text)
  \/ (stopsAt (printAll (indent :: write (String "(" Kind) :: rest)) i /\ bad).
Proof.
  intros Hrest Hmiddle. rewrite Hrest.
  destruct (appends_printAll _ _ Hmiddle) as [[t Ht]|[Hstop Hbad]].
  - left. exists (spaces (Z.to_nat i) ++ "(" ++ (Kind ++ t ++ Last) ++ ")").
    split; [by exists (Kind ++ t ++ Last)|]. intros Stream.
    cbn [printAll indent write OS Indent]. rewrite printAll_app, Ht.
    cbn [printAll write OS Indent]. f_equal. f_equal.
    rewrite !string_append_assoc, !string_append_cons. reflexivity.
  - right. split; [|done]. intros Stream.
    cbn [printAll indent write OS Indent]. by rewrite printAll_app, Hstop.
Qed.
End Printer.

Lemma trace_child (E C : Expr) (c : Expr * WalkOrder) :
  C ∈ children E -> c ∈ trace C -> c ∈ trace E.
Proof.
  intros HC Hc. rewrite (trace_children E). right. apply elem_of_app. left.
  apply list_elem_of_In, in_concat. exists (trace C). split.
  - apply list_elem_of_In, list_elem_of_fmap. by exists C.
  - by apply list_elem_of_In.
Qed.

Lemma trace_self (E : Expr) : (E, Walk_PreOrder) ∈ trace E.
Proof. rewrite trace_children. by left. Qed.

Lemma appends_writeName (bad : Prop) (N : option string) i :
  (N = None -> bad) -> appends bad (writeName N) i.
Proof.
  intros Hbad. destruct N as [Text|]; [apply appends_write|].
  right. split; [done|]. by apply Hbad.
Qed.

(** Every visit function of the printer writes a clause in parentheses at the
    indentation and leaves the indentation as it was; it stops only for a
    node of the expression that has no declaration to name. *)
Lemma PrintVisit_clause (printType : Type_ -> string)
    (printDecl : Decl Expr -> Z -> string) (numResolvedDecls : Expr -> nat)
    (E : Expr) :
  forall i, (0 <= i < 2 ^ 32)%Z ->
    (exists Text,
        isClause i Text
        /\ appendsText (PrintVisit printType printDecl numResolvedDecls E) i Text)
    \/ (stopsAt (PrintVisit printType printDecl numResolvedDecls E) i
        /\ exists N Order, (N, Order) ∈ trace E /\ printsName N = false).
Proof.
  induction E as [E IH] using Expr_children_ind. intros i Hi.
  set (bad := exists N Order, (N, Order) ∈ trace E /\ printsName N = false).
  set (V := PrintVisit printType printDecl numResolvedDecls) in *.
  assert (Hchild : forall C, C ∈ children E ->
            appends bad (PrintRec V (Some C)) i).
  { intros C HC. apply appends_PrintRec; [done|].
    destruct (IH C HC (unsigned (i + 2)) (unsigned_range _))
      as [(t & _ & Ht)|(Hstop & N & Order & HN & Hname)].
    - left. by exists t.
    - right. split; [done|]. exists N, Order. split; [|done].
      by apply (trace_child E C). }
  assert (Hself : printsName E = false -> bad)
    by (intros Hname; exists E, Walk_PreOrder; split; [apply trace_self|done]).
  clearbody bad. clear IH.
  destruct E as [Ty Val|Ty D|Ty Decls|Ty N|Ty N|Ty TD N|Ty SubExprs Names
                |Ty SubExpr N|Ty Sub No|Ty Callee Arg|Ty Elements|Ty Elements
                |Ty Input|Ty ArgNo|Ty Callee LHS RHS];
    subst V; cbn [PrintVisit];
    (first [apply (clause_printAll bad ""); [reflexivity|]
           |apply (clause_printAll bad "'"); [reflexivity|]]); cbn [removelast];
    repeat (apply Forall_cons; [try apply appends_write|]); try apply Forall_nil.
  - (* OverloadSetRefExpr *)
    apply appends_writeName. intros Hnone. apply Hself. by destruct Decls.
  - (* TupleExpr *)
    apply appends_printElements. intros [Sub|] Ho.
    + apply Hchild. simpl. apply list_elem_of_omap. by exists (Some Sub).
    + apply appends_printAll.
      repeat (apply Forall_cons; [try apply appends_write|]); [|done].
      apply appends_indentElement.
  - (* UnresolvedDotExpr: the resolved declarations *)
    destruct (numResolvedDecls _ =? 0); apply appends_printAll;
      repeat (apply Forall_cons; [try apply appends_write|]); done.
  - (* UnresolvedDotExpr: the sub-expression *)
    destruct SubExpr as [Sub|]; apply appends_printAll;
      repeat (apply Forall_cons; [try apply appends_write|]); try done.
    apply Hchild. by left.
  - apply Hchild. by left.
  - apply Hchild. by left.
  - apply Hchild. right. by left.
  - (* SequenceExpr *)
    apply appends_printElements. intros Elt HElt. by apply Hchild.
  - (* BraceExpr *)
    apply appends_printElements. intros [SubExpr|D] Hx.
    + apply Hchild. simpl. apply list_elem_of_omap. by exists (inl SubExpr).
    + apply appends_PrintRec_Decl.
  - apply Hchild. by left.
  - (* BinaryExpr *)
    apply appends_writeName. intros Hnone. apply Hself.
    destruct Callee as [[]|]; try done. by destruct Decls.
  - apply Hchild. by left.
  - apply Hchild. right. by left.
Qed.

(** X20.  The printer only adds to the stream, and it restores its
    indentation: when the visit of an expression returns, the member [Indent]
    is what it was, the stream is what it was followed by a text, and that
    text does not depend on what was on the stream. *)
Theorem printer_appends_and_restores_indent (printType : Type_ -> string)
    (printDecl : Decl Expr -> Z -> string) (numResolvedDecls : Expr -> nat)
    (E : Expr) (Stream : string) (i : Z) (st : PrintState) :
  (0 <= i < 2 ^ 32)%Z ->
  PrintVisit printType printDecl numResolvedDecls E (mkPrintState Stream i) = Some st ->
  Indent st = i
  /\ exists Text,
       OS st = Stream ++ Text
       /\ forall Stream',
            PrintVisit printType printDecl numResolvedDecls E (mkPrintState Stream' i)
            = Some (mkPrintState (Stream' ++ Text) i).
Proof.
  intros Hi Hst.
  destruct (PrintVisit_clause printType printDecl numResolvedDecls E i Hi)
    as [(Text & _ & HText)|(Hstop & _)]; [|by rewrite Hstop in Hst].
  rewrite HText in Hst. injection Hst as <-. split; [done|]. by exists Text.
Qed.

(** [f(x)], printed at the indentation 0 on an empty stream. *)
Lemma printer_appends_and_restores_indent_witness :
  exists st,
    PrintVisit (fun _ => "Int") (fun _ _ => "") (fun _ => 0)
      (ApplyExpr None (ref "f") (ref "x")) (mkPrintState "" 0) = Some st
    /\ Indent st = 0%Z
    /\ exists Text,
         OS st = "" ++ Text
         /\ forall Stream',
              PrintVisit (fun _ => "Int") (fun _ _ => "") (fun _ => 0)
                (ApplyExpr None (ref "f") (ref "x")) (mkPrintState Stream' 0)
              = Some (mkPrintState (Stream' ++ Text) 0).
Proof.
  eexists. split; [vm_compute; reflexivity|].
  apply (printer_appends_and_restores_indent (fun _ => "Int") (fun _ _ => "")
           (fun _ => 0) (ApplyExpr None (ref "f") (ref "x")) "" 0);
    [lia|vm_compute; reflexivity].
Defined.

(** X21.  Every node is printed as a clause in parentheses at the current
    indentation: the text that the visit of an expression adds to the stream
    is the indentation, an opening parenthesis, a body, and a closing
    parenthesis. *)
Theorem printer_writes_clause (printType : Type_ -> string)
    (printDecl : Decl Expr -> Z -> string) (numResolvedDecls : Expr -> nat)
    (E : Expr) (Stream : string) (i : Z) (st : PrintState) :
  (0 <= i < 2 ^ 32)%Z ->
  PrintVisit printType printDecl numResolvedDecls E (mkPrintState Stream i) = Some st ->
  exists Body, OS st = Stream ++ spaces (Z.to_nat i) ++ "(" ++ Body ++ ")".
Proof.
  intros Hi Hst.
  destruct (PrintVisit_clause printType printDecl numResolvedDecls E i Hi)
    as [(Text & [Body ->] & HText)|(Hstop & _)]; [|by rewrite Hstop in Hst].
  rewrite HText in Hst. injection Hst as <-. by exists Body.
Qed.

(** The literal [4], printed at the indentation 2. *)
Lemma printer_writes_clause_witness :
  exists st,
    PrintVisit (fun _ => "Int") (fun _ _ => "") (fun _ => 0)
      (literal "4") (mkPrintState "" 2) = Some st
    /\ exists Body, OS st = "" ++ spaces (Z.to_nat 2) ++ "(" ++ Body ++ ")".
Proof.
  eexists. split; [vm_compute; reflexivity|].
  apply (printer_writes_clause (fun _ => "Int") (fun _ _ => "") (fun _ => 0)
           (literal "4") "" 2); [lia|vm_compute; reflexivity].
Defined.

(** X22.  The printer stops only where it has no declaration to name: when
    no node that a walk of the expression comes to is a reference to an
    overload set without declarations, or a binary expression whose function
    is one, [print] returns, with a text added to the stream. *)
Theorem print_returns (printType : Type_ -> string)
    (printDecl : Decl Expr -> Z -> string) (numResolvedDecls : Expr -> nat)
    (E : Expr) (Stream : string) (Indentation : Z) :
  forallb (fun c => printsName (fst c)) (trace E) = true ->
  exists Text,
    print printType printDecl numResolvedDecls E Stream Indentation
    = Some (Stream ++ Text).
Proof.
  intros Hnames. unfold print.
  destruct (PrintVisit_clause printType printDecl numResolvedDecls E
              (unsigned Indentation) (unsigned_range _))
    as [(Text & _ & HText)|(_ & N & Order & HN & Hname)].
  - exists Text. by rewrite HText.
  - apply list_elem_of_In in HN.
    pose proof (proj1 (forallb_forall _ _) Hnames _ HN) as Htrue.
    simpl in Htrue. congruence.
Qed.

Lemma print_returns_witness :
  exists Text,
    print (fun _ => "Int") (fun _ _ => "") (fun _ => 0)
      (BinaryExpr None (Some (ref "+")) (literal "1") (literal "2")) "" 0
    = Some ("" ++ Text).
Proof.
  apply (print_returns (fun _ => "Int") (fun _ _ => "") (fun _ => 0)
           (BinaryExpr None (Some (ref "+")) (literal "1") (literal "2")) "" 0).
  vm_compute. reflexivity.
Defined.
